(** * git-workflow-helper: the validators and the integration-branch policy

    A shallow embedding of
    - [validateCommitMessage]  (src/commands/commit.ts),
    - [validateBranchName]     (src/commands/branch.ts),
    - [detectDefaultBranch] and [getIntegrationBranch] (src/utils/git.ts),
    together with the fragment of ECMAScript strings and regular
    expressions these functions use. *)

From Stdlib Require Import Ascii String DecimalString.
From Stdlib Require Import NArith PeanoNat Arith Lia Bool List.
Import ListNotations.

Set Implicit Arguments.

(** ** ECMAScript strings

    A JavaScript string is a finite sequence of UTF-16 code units;
    [s.length] is the number of code units. *)

Module JS.

Definition codeunit := N.
Definition jsstring := list codeunit.

(** A code unit written as an ASCII character, a string as an ASCII
    literal. *)
Definition cu (a : ascii) : codeunit := N_of_ascii a.
Definition str (s : string) : jsstring := map N_of_ascii (list_ascii_of_string s).

Definition LF : codeunit := 10%N.
Definition DQUOTE : codeunit := 34%N.

Definition between (lo hi c : codeunit) : bool := (lo <=? c)%N && (c <=? hi)%N.

(** LineTerminator :: LF | CR | LS | PS *)
Definition isLineTerminator (c : codeunit) : bool :=
  (c =? 0x0A)%N || (c =? 0x0D)%N || (c =? 0x2028)%N || (c =? 0x2029)%N.

(** WhiteSpace :: TAB | VT | FF | ZWNBSP | any code point of category Zs *)
Definition isWhiteSpace (c : codeunit) : bool :=
  (c =? 0x09)%N || (c =? 0x0B)%N || (c =? 0x0C)%N || (c =? 0xFEFF)%N ||
  (c =? 0x20)%N || (c =? 0xA0)%N || (c =? 0x1680)%N ||
  between 0x2000%N 0x200A%N c || (c =? 0x202F)%N || (c =? 0x205F)%N ||
  (c =? 0x3000)%N.

(** What [String.prototype.trim] strips, and what [\s] matches. *)
Definition isSpace (c : codeunit) : bool := isWhiteSpace c || isLineTerminator c.

(** [\w] is [[A-Za-z0-9_]]. *)
Definition isWord (c : codeunit) : bool :=
  between (cu "a") (cu "z") c || between (cu "A") (cu "Z") c ||
  between (cu "0") (cu "9") c || (c =? cu "_")%N.

(** [.] without the [s] flag: anything but a line terminator. *)
Definition isDot (c : codeunit) : bool := negb (isLineTerminator c).

Definition isChar (a : ascii) (c : codeunit) : bool := (c =? cu a)%N.
Definition isNotChar (a : ascii) (c : codeunit) : bool := negb (c =? cu a)%N.

(** Canonicalize of the [i] flag (without [u]): a code unit is compared
    through its upper-case form, and a non-ASCII code unit whose upper-case
    form is ASCII is left alone.  Against an ASCII letter of the pattern only
    the two ASCII cases of that letter can therefore agree, which is all
    this definition has to decide. *)
Definition canonicalize (c : codeunit) : codeunit :=
  if between (cu "a") (cu "z") c then (c - 32)%N else c.

Definition isIgnoreCase (a : ascii) (c : codeunit) : bool :=
  (canonicalize c =? canonicalize (cu a))%N.

Fixpoint strictEq (s t : jsstring) : bool :=
  match s, t with
  | [], [] => true
  | c :: s', d :: t' => (c =? d)%N && strictEq s' t'
  | _, _ => false
  end.

(** [s.trim()] *)
Fixpoint trimStart (s : jsstring) : jsstring :=
  match s with
  | c :: t => if isSpace c then trimStart t else s
  | [] => []
  end.

Definition trimEnd (s : jsstring) : jsstring := rev (trimStart (rev s)).

Definition trim (s : jsstring) : jsstring := trimEnd (trimStart s).

(** [s.split(sep)] for a separator of one code unit: never an empty array. *)
Fixpoint split (sep : codeunit) (s : jsstring) : list jsstring :=
  match s with
  | [] => [[]]
  | c :: t =>
      if (c =? sep)%N then [] :: split sep t
      else match split sep t with
           | l :: ls => (c :: l) :: ls
           | [] => [[c]]
           end
  end.

(** [a.slice(1)] and [a.join(sep)] *)
Definition slice1 (A : Type) (a : list A) : list A := tl a.

Fixpoint join (sep : jsstring) (a : list jsstring) : jsstring :=
  match a with
  | [] => []
  | [x] => x
  | x :: rest => x ++ sep ++ join sep rest
  end.

(** [a.includes(x)] on an array of strings; [undefined] is none of them. *)
Definition arrayIncludes (a : list jsstring) (x : option jsstring) : bool :=
  match x with
  | Some s => existsb (strictEq s) a
  | None => false
  end.

(** [s.startsWith(p)], [s.includes(p)] *)
Fixpoint startsWith (p s : jsstring) : bool :=
  match p, s with
  | [], _ => true
  | c :: p', d :: s' => (c =? d)%N && startsWith p' s'
  | _ :: _, [] => false
  end.

Fixpoint includes (p s : jsstring) : bool :=
  startsWith p s ||
  match s with
  | [] => false
  | _ :: t => includes p t
  end.

(** [s.replace(p, r)] with a string pattern: the first occurrence only. *)
Fixpoint replace (p r s : jsstring) : jsstring :=
  if startsWith p s then r ++ skipn (length p) s
  else match s with
       | [] => []
       | c :: t => c :: replace p r t
       end.

(** A number in a string concatenation: its decimal digits. *)
Definition ofNumber (n : nat) : jsstring := str (NilZero.string_of_uint (Nat.to_uint n)).

(** A value in a template literal: [undefined] prints as its name. *)
Definition toString (x : option jsstring) : jsstring :=
  match x with
  | Some s => s
  | None => str "undefined"
  end.

(** Completion of an evaluation: a value, or a thrown exception. *)
Inductive Completion (A : Type) : Type :=
| Normal (a : A)
| Throw (e : jsstring).
Arguments Normal {A} a.
Arguments Throw {A} e.

Definition bind (A B : Type) (c : Completion A) (k : A -> Completion B) : Completion B :=
  match c with
  | Normal a => k a
  | Throw e => Throw e
  end.

Definition TypeError : jsstring := str "TypeError".

(** [a[i]] then a property read on it: reading a property of [undefined]
    throws. *)
Definition defined (A : Type) (x : option A) : Completion A :=
  match x with
  | Some a => Normal a
  | None => Throw TypeError
  end.

End JS.

Export JS.

(** ** ECMAScript regular expressions

    The backtracking matcher of the language specification, in
    continuation-passing style, for the pattern syntax this repository
    writes: assertions [^] and [$] (no [m] flag), character classes and
    escapes, literal characters (with or without the [i] flag), sequence,
    alternation, capturing groups, the greedy quantifier [?] on any term and
    the greedy quantifier [+] on a one-character term. *)

Module RegExp.

Inductive regex : Type :=
| Empty
| CharSet (p : codeunit -> bool)
| Seq (r1 r2 : regex)
| Alt (r1 r2 : regex)
| Opt (r : regex)
| Plus (p : codeunit -> bool)
| Group (i : nat) (r : regex)
| AssertStart
| AssertEnd.

(** The matcher's state: how far the match has come, the input still ahead,
    and the captures so far ([None] is [undefined]). *)
Record State : Type := mkState {
  endIndex : nat;
  rest : jsstring;
  captures : list (option jsstring)
}.

Definition Continuation := State -> option State.

Fixpoint update (A : Type) (i : nat) (v : A) (l : list A) : list A :=
  match l, i with
  | [], _ => []
  | _ :: t, O => v :: t
  | x :: t, S j => x :: update j v t
  end.

Definition advance (n : nat) (x : State) : State :=
  {| endIndex := endIndex x + n; rest := skipn n (rest x); captures := captures x |}.

Definition capture (i : nat) (x y : State) : State :=
  {| endIndex := endIndex y;
     rest := rest y;
     captures := update i (Some (firstn (endIndex y - endIndex x) (rest x))) (captures y) |}.

(** Greedy repetition of a one-character term, zero or more times: the
    longest run first, then one character less at a time. *)
Fixpoint star (p : codeunit -> bool) (i : nat) (s : jsstring)
    (caps : list (option jsstring)) (k : Continuation) : option State :=
  match s with
  | c :: t =>
      if p c then
        match star p (S i) t caps k with
        | Some z => Some z
        | None => k (mkState i s caps)
        end
      else k (mkState i s caps)
  | [] => k (mkState i [] caps)
  end.

Fixpoint matcher (r : regex) (x : State) (k : Continuation) : option State :=
  match r with
  | Empty => k x
  | CharSet p =>
      match rest x with
      | c :: t => if p c then k (mkState (S (endIndex x)) t (captures x)) else None
      | [] => None
      end
  | Seq r1 r2 => matcher r1 x (fun y => matcher r2 y k)
  | Alt r1 r2 =>
      match matcher r1 x k with
      | Some z => Some z
      | None => matcher r2 x k
      end
  | Opt r1 =>
      (* an iteration that consumed nothing is refused *)
      match matcher r1 x (fun y => if endIndex y =? endIndex x then None else k y) with
      | Some z => Some z
      | None => k x
      end
  | Plus p =>
      match rest x with
      | c :: t => if p c then star p (S (endIndex x)) t (captures x) k else None
      | [] => None
      end
  | Group i r1 => matcher r1 x (fun y => k (capture i x y))
  | AssertStart => if endIndex x =? 0 then k x else None
  | AssertEnd => match rest x with [] => k x | _ :: _ => None end
  end.

(** Number of capturing groups: the largest group index. *)
Fixpoint nGroups (r : regex) : nat :=
  match r with
  | Seq r1 r2 | Alt r1 r2 => Nat.max (nGroups r1) (nGroups r2)
  | Opt r1 => nGroups r1
  | Group i r1 => Nat.max i (nGroups r1)
  | _ => 0
  end.

(** [RegExp.prototype.exec] without the [g] and [y] flags: the match is tried
    at every index from 0 to the length of the input, leftmost first.  The
    result is the match array: the matched substring, then the groups. *)
Fixpoint execFrom (r : regex) (n i : nat) (s : jsstring) : option (list (option jsstring)) :=
  match matcher r (mkState i s (repeat None (S n))) Some with
  | Some y => Some (update 0 (Some (firstn (endIndex y - i) s)) (captures y))
  | None =>
      match s with
      | [] => None
      | _ :: t => execFrom r n (S i) t
      end
  end.

Definition exec (r : regex) (s : jsstring) : option (list (option jsstring)) :=
  execFrom r (nGroups r) 0 s.

(** [r.test(s)] and [s.match(r)] *)
Definition test (r : regex) (s : jsstring) : bool :=
  match exec r s with Some _ => true | None => false end.

Definition stringMatch (s : jsstring) (r : regex) : option (list (option jsstring)) :=
  exec r s.

(** A run of literal characters, and the same under the [i] flag. *)
Fixpoint literalOf (f : ascii -> codeunit -> bool) (s : string) : regex :=
  match s with
  | EmptyString => Empty
  | String a EmptyString => CharSet (f a)
  | String a s' => Seq (CharSet (f a)) (literalOf f s')
  end.

Definition lit : string -> regex := literalOf isChar.
Definition litI : string -> regex := literalOf isIgnoreCase.

Fixpoint seq (rs : list regex) : regex :=
  match rs with
  | [] => Empty
  | [r] => r
  | r :: rs' => Seq r (seq rs')
  end.

Fixpoint alt (rs : list regex) : regex :=
  match rs with
  | [] => Empty
  | [r] => r
  | r :: rs' => Alt r (alt rs')
  end.

(** What the matcher can do, as a relation: [matches r x y] when the term [r]
    can take the state [x] to the state [y]. *)
Fixpoint matches (r : regex) (x y : State) : Prop :=
  match r with
  | Empty => y = x
  | CharSet p =>
      exists c t, rest x = c :: t /\ p c = true /\
                  y = mkState (S (endIndex x)) t (captures x)
  | Seq r1 r2 => exists m, matches r1 x m /\ matches r2 m y
  | Alt r1 r2 => matches r1 x y \/ matches r2 x y
  | Opt r1 => (matches r1 x y /\ endIndex y <> endIndex x) \/ y = x
  | Plus p =>
      exists n, 0 < n /\ n <= List.length (rest x) /\
                forallb p (firstn n (rest x)) = true /\ y = advance n x
  | Group i r1 => exists m, matches r1 x m /\ y = capture i x m
  | AssertStart => endIndex x = 0 /\ y = x
  | AssertEnd => rest x = [] /\ y = x
  end.

End RegExp.

Export RegExp.

(** ** src/commands/commit.ts *)

Module Commit.

Local Notation "x <- c ;; k" := (JS.bind c (fun x => k))
  (at level 61, c at next level, right associativity).

Record CommitMessageValidation : Type := mkValidation {
  valid : bool;
  errors : list jsstring;
  warnings : list jsstring
}.

(** [a.push(x)] *)
Definition push (a : list jsstring) (x : jsstring) : list jsstring := a ++ [x].

(** [/^(\w+)(\([^)]+\))?(!)?:\s+(.+)$/] *)
Definition conventionalCommitPattern : regex :=
  seq [ AssertStart;
        Group 1 (Plus isWord);
        Opt (Group 2 (seq [CharSet (isChar "("); Plus (isNotChar ")"); CharSet (isChar ")")]));
        Opt (Group 3 (CharSet (isChar "!")));
        CharSet (isChar ":");
        Plus isSpace;
        Group 4 (Plus isDot);
        AssertEnd ].

(** [/^(add|update|fix|remove|create|delete|implement|refactor|improve|change)/i] *)
Definition imperativePattern : regex :=
  seq [ AssertStart;
        Group 1 (alt [ litI "add"; litI "update"; litI "fix"; litI "remove";
                       litI "create"; litI "delete"; litI "implement";
                       litI "refactor"; litI "improve"; litI "change" ]) ].

Definition validTypes : list jsstring :=
  [ str "feat"; str "fix"; str "docs"; str "style"; str "refactor";
    str "test"; str "chore"; str "perf"; str "ci"; str "build"; str "revert" ].

Definition emptyMessageError : jsstring := str "Commit message cannot be empty".

Definition headerLengthWarning (n : nat) : jsstring :=
  str "Header should be 50 characters or less (currently " ++ ofNumber n ++ str ")".

Definition formatError : jsstring :=
  str "Commit message does not follow Conventional Commits format." ++ [LF] ++
  str "Expected: <type>(<scope>): <subject>" ++ [LF] ++
  str "Example: feat(auth): add login functionality".

Definition typeWarning (type : option jsstring) : jsstring :=
  str "Type " ++ [DQUOTE] ++ toString type ++ [DQUOTE] ++
  str " is not a standard conventional commit type." ++ [LF] ++
  str "Common types: " ++ join (str ", ") validTypes.

Definition emptySubjectError : jsstring := str "Subject cannot be empty".

Definition subjectLengthWarning : jsstring :=
  str "Subject should be concise (50 characters or less)".

Definition imperativeWarning : jsstring :=
  str "Subject should use imperative mood (e.g., " ++ [DQUOTE] ++ str "add" ++
  [DQUOTE] ++ str " not " ++ [DQUOTE] ++ str "added" ++ [DQUOTE] ++ str ")".

Definition bodyLengthWarning : jsstring :=
  str "Body should be concise (1000 characters or less)".

(** The [else] branch of the format check: the checks on the destructured
    match array [[, type, scope, breaking, subject]]. *)
Definition checkMatch (m : list (option jsstring)) (errors warnings : list jsstring)
    : Completion (list jsstring * list jsstring) :=
  let type := nth 1 m None in
  let scope := nth 2 m None in
  let breaking := nth 3 m None in
  let subject := nth 4 m None in
  let warnings :=
    if negb (arrayIncludes validTypes type)
    then push warnings (typeWarning type) else warnings in
  subject <- defined subject ;;
  let '(errors, warnings) :=
    if List.length subject =? 0 then (push errors emptySubjectError, warnings)
    else if 50 <? List.length subject then (errors, push warnings subjectLengthWarning)
    else (errors, warnings) in
  let warnings :=
    if negb (test imperativePattern subject)
    then push warnings imperativeWarning else warnings in
  Normal (errors, warnings).

Definition validateCommitMessage (message : jsstring) : Completion CommitMessageValidation :=
  let errors : list jsstring := [] in
  let warnings : list jsstring := [] in
  if (match message with [] => true | _ :: _ => false end)
     || (List.length (trim message) =? 0)
  then
    let errors := push errors emptyMessageError in
    Normal {| valid := false; errors := errors; warnings := warnings |}
  else
    let lines := split LF (trim message) in
    header <- defined (nth_error lines 0) ;;
    let body := join [LF] (slice1 lines) in
    let warnings :=
      if 72 <? List.length header
      then push warnings (headerLengthWarning (List.length header)) else warnings in
    ew <- match stringMatch header conventionalCommitPattern with
          | None => Normal (push errors formatError, warnings)
          | Some m => checkMatch m errors warnings
          end ;;
    let '(errors, warnings) := ew in
    let warnings :=
      if (0 <? List.length body) && (1000 <? List.length body)
      then push warnings bodyLengthWarning else warnings in
    Normal {| valid := (List.length errors =? 0); errors := errors; warnings := warnings |}.

(** The header and the body the function works on. *)
Definition headerOf (message : jsstring) : jsstring :=
  nth 0 (split LF (trim message)) [].

Definition bodyOf (message : jsstring) : jsstring :=
  join [LF] (slice1 (split LF (trim message))).

(** A warning about the header's length, recognised by its text. *)
Definition isHeaderLengthWarning (w : jsstring) : bool :=
  startsWith (str "Header should be 50 characters or less") w.

(** The warnings of the two length checks that every non-blank message goes
    through, in the order they are pushed. *)
Definition lengthWarnings (message : jsstring) : list jsstring :=
  (if 72 <? List.length (headerOf message)
   then [headerLengthWarning (List.length (headerOf message))] else []) ++
  (if 1000 <? List.length (bodyOf message) then [bodyLengthWarning] else []).

End Commit.

(** ** src/commands/branch.ts *)

Module Branch.

Record BranchValidation : Type := mkValidation {
  valid : bool;
  error : option jsstring
}.

(** [[a-z0-9-]] *)
Definition isSlugChar (c : codeunit) : bool :=
  between (cu "a") (cu "z") c || between (cu "0") (cu "9") c || (c =? cu "-")%N.

Definition patterns : list regex :=
  [ seq [AssertStart; lit "feature/"; Plus isSlugChar; AssertEnd];
    seq [AssertStart; lit "bugfix/"; Plus isSlugChar; AssertEnd];
    seq [AssertStart; lit "hotfix/"; Plus isSlugChar; AssertEnd];
    seq [AssertStart; lit "release/"; Plus isSlugChar; AssertEnd];
    seq [AssertStart; lit "main"; AssertEnd];
    seq [AssertStart; lit "develop"; AssertEnd] ].

Definition conventionError (name : jsstring) : jsstring :=
  str "Branch name " ++ [DQUOTE] ++ name ++ [DQUOTE] ++
  str " does not follow convention." ++ [LF] ++
  str "Valid formats: feature/name, bugfix/name, hotfix/name, release/name".

Definition validateBranchName (name : jsstring) : BranchValidation :=
  let isValid := existsb (fun pattern => test pattern name) patterns in
  if negb isValid
  then {| valid := false; error := Some (conventionError name) |}
  else {| valid := true; error := None |}.

(** The convention in the specification's words: a slug is one or more
    lowercase letters, digits and hyphens. *)
Definition isSlug (s : jsstring) : bool :=
  match s with [] => false | _ :: _ => forallb isSlugChar s end.

Definition followsConvention (name : jsstring) : Prop :=
  (exists slug, isSlug slug = true /\
     (name = str "feature/" ++ slug \/ name = str "bugfix/" ++ slug \/
      name = str "hotfix/" ++ slug \/ name = str "release/" ++ slug)) \/
  name = str "main" \/ name = str "develop".

End Branch.

(** ** src/utils/git.ts

    The functions run [git] through [execSync]; the repository and its remote
    are a state ([World]) that each command may read and change, and a
    command either yields its standard output or throws. *)

Module Git.

Section Detection.

Variable World : Type.
Variable execSync : jsstring -> World -> Completion jsstring * World.

Definition IO (A : Type) : Type := World -> Completion A * World.

Definition ret (A : Type) (a : A) : IO A := fun w => (Normal a, w).

Definition bindIO (A B : Type) (c : IO A) (k : A -> IO B) : IO B :=
  fun w =>
    match c w with
    | (Normal a, w') => k a w'
    | (Throw e, w') => (Throw e, w')
    end.

(** [try { c } catch { h }] *)
Definition tryCatch (A : Type) (c h : IO A) : IO A :=
  fun w =>
    match c w with
    | (Normal a, w') => (Normal a, w')
    | (Throw _, w') => h w'
    end.

Local Notation "x <- c ;; k" := (bindIO c (fun x => k))
  (at level 61, c at next level, right associativity).

Definition symbolicRefCommand : jsstring :=
  str "git symbolic-ref refs/remotes/origin/HEAD 2>/dev/null".
Definition fetchCommand : jsstring := str "git fetch origin --quiet".
Definition branchCommand : jsstring := str "git branch -r".

(** A string in a condition: the empty string is false. *)
Definition truthy (s : jsstring) : bool :=
  match s with [] => false | _ :: _ => true end.

(** A [try] block yields [Some b] when it executes [return b], and [None]
    when control leaves it at its end or through its [catch]. *)
Definition detectDefaultBranch : IO jsstring :=
  r1 <- tryCatch
          (out <- execSync symbolicRefCommand ;;
           let symbolicRef := trim out in
           if truthy symbolicRef then
             let branch := replace (str "refs/remotes/origin/") [] symbolicRef in
             ret (Some branch)
           else ret None)
          (ret None) ;;
  match r1 with
  | Some branch => ret branch
  | None =>
      r2 <- tryCatch
              (_ <- execSync fetchCommand ;;
               branches <- execSync branchCommand ;;
               if includes (str "origin/main") branches then ret (Some (str "main"))
               else if includes (str "origin/master") branches then ret (Some (str "master"))
               else if includes (str "origin/develop") branches then ret (Some (str "develop"))
               else ret None)
              (ret None) ;;
      match r2 with
      | Some branch => ret branch
      | None => ret (str "main")
      end
  end.

Definition getIntegrationBranch : IO jsstring :=
  tryCatch
    (_ <- execSync fetchCommand ;;
     branches <- execSync branchCommand ;;
     if includes (str "origin/develop") branches then ret (str "develop")
     else detectDefaultBranch)
    detectDefaultBranch.

(** *** The policy as the specification words it

    The Git-query results the decision is taken over, and the decision as a
    function of them alone. *)

(** The listing of the remote's branches, when the fetch and the listing both
    succeed. *)
Definition queryRemoteBranches (w : World) : option jsstring * World :=
  match execSync fetchCommand w with
  | (Throw _, w1) => (None, w1)
  | (Normal _, w1) =>
      match execSync branchCommand w1 with
      | (Normal branches, w2) => (Some branches, w2)
      | (Throw _, w2) => (None, w2)
      end
  end.

(** The target of [origin/HEAD], when the query succeeds with a non-blank
    answer. *)
Definition querySymbolicDefault (w : World) : option jsstring * World :=
  match execSync symbolicRefCommand w with
  | (Normal out, w1) =>
      (if truthy (trim out)
       then Some (replace (str "refs/remotes/origin/") [] (trim out))
       else None, w1)
  | (Throw _, w1) => (None, w1)
  end.

(** [origin/<branch>] exists on the remote: [git branch -r] prints one
    remote-tracking branch to a line, indented, and one of the lines is this
    branch. *)
Definition existsOnRemote (branch : string) (listing : option jsstring) : bool :=
  match listing with
  | Some branches =>
      existsb (fun line => strictEq (trim line) (str "origin/" ++ str branch))
              (split LF branches)
  | None => false
  end.

(** What the code tests instead: [origin/<branch>] occurs somewhere in the
    listing. *)
Definition listedOnRemote (branch : string) (listing : option jsstring) : bool :=
  match listing with
  | Some branches => includes (str "origin/" ++ str branch) branches
  | None => false
  end.

Definition integrationBranchPolicy (developExists : bool)
    (symbolicDefault : option jsstring)
    (mainProbe masterProbe developProbe : bool) : jsstring :=
  if developExists then str "develop"
  else match symbolicDefault with
       | Some branch => branch
       | None =>
           if mainProbe then str "main"
           else if masterProbe then str "master"
           else if developProbe then str "develop"
           else str "main"
       end.

End Detection.

(** *** Two remotes

    A remote with the branches [main] and [developer-docs], whose
    [origin/HEAD] is [main]; and a remote with the branches [maintenance]
    and [master] and no [origin/HEAD].  Neither has a branch [develop], and
    the second has no branch [main]. *)
Definition docsRemote (command : jsstring) (w : unit) : Completion jsstring * unit :=
  if strictEq command branchCommand then
    (Normal (str "  origin/HEAD -> origin/main" ++ [LF] ++
             str "  origin/developer-docs" ++ [LF] ++
             str "  origin/main" ++ [LF]), w)
  else if strictEq command symbolicRefCommand then
    (Normal (str "refs/remotes/origin/main" ++ [LF]), w)
  else (Normal [], w).

Definition maintenanceRemote (command : jsstring) (w : unit) : Completion jsstring * unit :=
  if strictEq command branchCommand then
    (Normal (str "  origin/maintenance" ++ [LF] ++ str "  origin/master" ++ [LF]), w)
  else if strictEq command symbolicRefCommand then
    (Throw (str "Command failed: git symbolic-ref refs/remotes/origin/HEAD"), w)
  else (Normal [], w).

End Git.

(** ** The shape of a conventional header

    The parts the header pattern reads, in order: the type, the scope
    between its parentheses, the breaking-change mark, the white space after
    the colon and the subject. *)

Module Conventional.

Record Parts : Type := mkParts {
  type : jsstring;
  scope : option jsstring;
  breaking : bool;
  spaces : jsstring;
  subject : jsstring
}.

Definition scopeText (s : option jsstring) : jsstring :=
  match s with
  | Some inner => [cu "("] ++ inner ++ [cu ")"]
  | None => []
  end.

Definition breakingText (b : bool) : jsstring :=
  if b then [cu "!"] else [].

Definition render (p : Parts) : jsstring :=
  type p ++ scopeText (scope p) ++ breakingText (breaking p) ++
  [cu ":"] ++ spaces p ++ subject p.

Definition nonEmpty (s : jsstring) : bool :=
  match s with [] => false | _ :: _ => true end.

Definition wellFormed (p : Parts) : bool :=
  nonEmpty (type p) && forallb isWord (type p) &&
  match scope p with
  | Some inner => nonEmpty inner && forallb (isNotChar ")") inner
  | None => true
  end &&
  nonEmpty (spaces p) && forallb isSpace (spaces p) &&
  nonEmpty (subject p) && forallb isDot (subject p).

(** The match array of a header with these parts. *)
Definition matchArray (p : Parts) : list (option jsstring) :=
  [ Some (render p);
    Some (type p);
    match scope p with Some _ => Some (scopeText (scope p)) | None => None end;
    if breaking p then Some [cu "!"] else None;
    Some (subject p) ].

(** The verbs of the imperative-mood pattern, and a prefix test that is
    blind to the case of ASCII letters. *)
Definition imperativeVerbs : list string :=
  [ "add"; "update"; "fix"; "remove"; "create"; "delete"; "implement";
    "refactor"; "improve"; "change" ]%string.

Fixpoint startsWithIgnoreCase (p s : jsstring) : bool :=
  match p, s with
  | [], _ => true
  | c :: p', d :: s' => (canonicalize d =? canonicalize c)%N && startsWithIgnoreCase p' s'
  | _ :: _, [] => false
  end.

(** The characters of a branch name that follows the convention. *)
Definition isBranchChar (c : codeunit) : bool :=
  Branch.isSlugChar c || (c =? cu "/")%N.

End Conventional.

(** ** src/utils/git.ts, the queries

    The same [execSync] as above; a thrown error is represented by its
    message. *)

Module Repository.

Record BranchPresence : Type := mkPresence {
  local : bool;
  remote : bool
}.

Section Queries.

Variable World : Type.
Variable execSync : jsstring -> World -> Completion jsstring * World.

Local Notation "x <- c ;; k" := (Git.bindIO c (fun x => k))
  (at level 61, c at next level, right associativity).

Definition branchExists (branchName : jsstring) : Git.IO World BranchPresence :=
  Git.tryCatch
    (localBranches <- execSync (str "git branch --list") ;;
     remoteBranches <- execSync (str "git branch -r --list") ;;
     Git.ret {| local := includes branchName localBranches;
                remote := includes (str "origin/" ++ branchName) remoteBranches |})
    (Git.ret {| local := false; remote := false |}).

Definition isGitRepository : Git.IO World bool :=
  Git.tryCatch
    (_ <- execSync (str "git rev-parse --git-dir") ;; Git.ret true)
    (Git.ret false).

(** [null] is [None]. *)
Definition getCurrentBranch : Git.IO World (option jsstring) :=
  Git.tryCatch
    (out <- execSync (str "git rev-parse --abbrev-ref HEAD") ;; Git.ret (Some (trim out)))
    (Git.ret None).

Definition hasUncommittedChanges : Git.IO World bool :=
  Git.tryCatch
    (status <- execSync (str "git status --porcelain") ;;
     Git.ret (0 <? List.length (trim status)))
    (Git.ret false).

End Queries.

(** [p] occurs somewhere in [s]. *)
Definition occursIn (p s : jsstring) : Prop := exists a b, s = a ++ p ++ b.

End Repository.

(** ** src/commands/status.ts

    [checkPRReadiness] fills one [status] object while it runs [git]; the
    object is part of the state, so that what was pushed before a command
    throws is still there in the [catch]. *)

Module Status.

Record WorkflowStatus : Type := mkStatus {
  readyForPR : bool;
  issues : list jsstring;
  warnings : list jsstring;
  info : list jsstring
}.

(** [/^[a-f0-9]+\s+(\w+)(\([^)]+\))?:\s+/] *)
Definition isHexLower (c : codeunit) : bool :=
  between (cu "a") (cu "f") c || between (cu "0") (cu "9") c.

Definition logLinePattern : regex :=
  seq [ AssertStart;
        Plus isHexLower;
        Plus isSpace;
        Group 1 (Plus isWord);
        Opt (Group 2 (seq [CharSet (isChar "("); Plus (isNotChar ")"); CharSet (isChar ")")]));
        CharSet (isChar ":");
        Plus isSpace ].

(** [commits.split('\n').filter(line => !line.match(...))] *)
Definition invalidCommits (commits : jsstring) : list jsstring :=
  filter (fun line =>
            match stringMatch line logLinePattern with
            | Some _ => false
            | None => true
            end)
         (split LF commits).

Definition notARepositoryIssue : jsstring := str "Not in a Git repository".
Definition currentBranchInfo (currentBranch : jsstring) : jsstring :=
  str "Current branch: " ++ currentBranch.
Definition onMainlineWarning (currentBranch : jsstring) : jsstring :=
  str "You're on " ++ currentBranch ++ str ". Consider creating a feature branch first.".
Definition uncommittedIssue : jsstring :=
  str "You have uncommitted changes. Commit or stash them before creating a PR.".
Definition differsInfo : jsstring :=
  str "Branch differs from remote. Make sure to push your changes.".
Definition noTrackingWarning : jsstring :=
  str "No remote tracking branch. Use: git push -u origin <branch>".
Definition noCommitsWarning : jsstring :=
  str "No commits ahead of develop. Make sure you have commits to merge.".
Definition aheadInfo (commitCount : nat) (base : string) : jsstring :=
  ofNumber commitCount ++ str " commit(s) ahead of " ++ str base.
Definition formatWarning : jsstring :=
  str "Some commits may not follow Conventional Commits format. Consider: git-workflow commit check".
Definition unknownAheadWarning : jsstring :=
  str "Could not determine commits ahead of base branch".
Definition behindWarning : jsstring :=
  str "Branch is behind develop. Consider rebasing: git rebase origin/develop".
Definition statusErrorIssue (message : jsstring) : jsstring :=
  str "Error checking status: " ++ message.

Definition initialStatus : WorkflowStatus :=
  {| readyForPR := true; issues := []; warnings := []; info := [] |}.

Section Readiness.

Variable World : Type.
Variable execSync : jsstring -> World -> Completion jsstring * World.

Definition Store : Type := World * WorkflowStatus.

Local Notation "x <- c ;; k" := (Git.bindIO c (fun x => k))
  (at level 61, c at next level, right associativity).

(** A command runs in the world and leaves the status object alone. *)
Definition exec (cmd : jsstring) : Git.IO Store jsstring :=
  fun s =>
    match execSync cmd (fst s) with
    | (r, w') => (r, (w', snd s))
    end.

Definition modify (f : WorkflowStatus -> WorkflowStatus) : Git.IO Store unit :=
  fun s => (Normal tt, (fst s, f (snd s))).

Definition pushIssue (x : jsstring) : Git.IO Store unit :=
  modify (fun st => {| readyForPR := readyForPR st; issues := issues st ++ [x];
                       warnings := warnings st; info := info st |}).

Definition pushWarning (x : jsstring) : Git.IO Store unit :=
  modify (fun st => {| readyForPR := readyForPR st; issues := issues st;
                       warnings := warnings st ++ [x]; info := info st |}).

Definition pushInfo (x : jsstring) : Git.IO Store unit :=
  modify (fun st => {| readyForPR := readyForPR st; issues := issues st;
                       warnings := warnings st; info := info st ++ [x] |}).

Definition setNotReady : Git.IO Store unit :=
  modify (fun st => {| readyForPR := false; issues := issues st;
                       warnings := warnings st; info := info st |}).

Definition when (b : bool) (c : Git.IO Store unit) : Git.IO Store unit :=
  if b then c else Git.ret tt.

(** [try { c } catch (error) { h error.message }] *)
Definition tryCatchError (A : Type) (c : Git.IO Store A) (h : jsstring -> Git.IO Store A)
    : Git.IO Store A :=
  fun s =>
    match c s with
    | (Normal a, s') => (Normal a, s')
    | (Throw message, s') => h message s'
    end.

(** Check if branch is up to date with remote *)
Definition checkTracking (currentBranch : jsstring) : Git.IO Store unit :=
  Git.tryCatch
    (out <- exec (str "git rev-parse --abbrev-ref --symbolic-full-name @{u}") ;;
     let tracking := trim out in
     _ <- exec (str "git fetch origin " ++ currentBranch) ;;
     out <- exec (str "git rev-parse HEAD") ;;
     let localCommit := trim out in
     out <- exec (str "git rev-parse " ++ tracking) ;;
     let remoteCommit := trim out in
     when (negb (strictEq localCommit remoteCommit)) (pushInfo differsInfo))
    (pushWarning noTrackingWarning).

(** Check commit messages *)
Definition checkCommits : Git.IO Store unit :=
  Git.tryCatch
    (commits <- exec (str "git log origin/develop..HEAD --oneline --no-merges") ;;
     if List.length (trim commits) =? 0 then pushWarning noCommitsWarning
     else
       let commitCount := List.length (split LF (trim commits)) in
       _ <- pushInfo (aheadInfo commitCount "develop") ;;
       when (0 <? List.length (invalidCommits commits)) (pushWarning formatWarning))
    (Git.tryCatch
       (commits <- exec (str "git log origin/main..HEAD --oneline --no-merges") ;;
        when (0 <? List.length (trim commits))
             (let commitCount := List.length (split LF (trim commits)) in
              pushInfo (aheadInfo commitCount "main")))
       (pushWarning unknownAheadWarning)).

(** Check if branch needs rebase *)
Definition checkRebase : Git.IO Store unit :=
  Git.tryCatch
    (_ <- exec (str "git fetch origin develop") ;;
     out <- exec (str "git merge-base HEAD origin/develop") ;;
     let mergeBase := trim out in
     out <- exec (str "git rev-parse origin/develop") ;;
     let developHead := trim out in
     when (negb (strictEq mergeBase developHead)) (pushWarning behindWarning))
    (Git.ret tt).

(** The second [try] block of the function. *)
Definition checkBranch : Git.IO Store unit :=
  tryCatchError
    (out <- exec (str "git rev-parse --abbrev-ref HEAD") ;;
     let currentBranch := trim out in
     _ <- pushInfo (currentBranchInfo currentBranch) ;;
     _ <- when (strictEq currentBranch (str "main") || strictEq currentBranch (str "develop"))
               (pushWarning (onMainlineWarning currentBranch)) ;;
     statusOutput <- exec (str "git status --porcelain") ;;
     _ <- when (0 <? List.length (trim statusOutput))
               (_ <- pushIssue uncommittedIssue ;; setNotReady) ;;
     _ <- checkTracking currentBranch ;;
     _ <- checkCommits ;;
     checkRebase)
    (fun message => _ <- pushIssue (statusErrorIssue message) ;; setNotReady).

Definition checkPRReadiness : Git.IO World WorkflowStatus :=
  fun w =>
    let run : Git.IO Store unit :=
      inRepository <- Git.tryCatch
                        (_ <- exec (str "git rev-parse --git-dir") ;; Git.ret true)
                        (Git.ret false) ;;
      if negb inRepository then
        (* the first [catch] returns the status at once *)
        _ <- setNotReady ;; pushIssue notARepositoryIssue
      else
        _ <- checkBranch ;;
        fun s => when (0 <? List.length (issues (snd s))) setNotReady s in
    match run (w, initialStatus) with
    | (Normal _, (w', status)) => (Normal status, w')
    | (Throw e, (w', _)) => (Throw e, w')
    end.

(** A step is advisory when it cannot throw and leaves the verdict and the
    issues as they are. *)
Definition advisory (c : Git.IO Store unit) : Prop :=
  forall s, exists s',
    c s = (Normal tt, s') /\
    readyForPR (snd s') = readyForPR (snd s) /\
    issues (snd s') = issues (snd s).

End Readiness.

End Status.

(** ** The commands and their effects

    The command functions print to the console, run [git] and end the
    process.  Their effects are kept in a trace beside the world: every
    command handed to [execSync], and every call of [console.log],
    [console.warn] and [console.error] with its arguments.  [process.exit]
    ends the run at once; no [catch] sees it.  A text passed through [chalk]
    is kept with the name of its style. *)

Module Cli.

Inductive Segment : Type :=
| Plain (text : jsstring)
| Styled (style : string) (text : jsstring).

Inductive Event : Type :=
| Ran (command : jsstring)
| Log (args : list Segment)
| Warn (args : list Segment)
| Error (args : list Segment).

(** What a child process comes to: its standard output, or the error
    [execSync] throws, with its [message] and [status]. *)
Inductive SpawnResult : Type :=
| Output (stdout : jsstring)
| Failure (message : jsstring) (status : option nat).

Record Thrown : Type := mkThrown {
  message : jsstring;
  status : option nat
}.

Inductive Outcome (A : Type) : Type :=
| Returned (a : A)
| Threw (e : Thrown)
| Exited (code : nat).
Arguments Returned {A} a.
Arguments Threw {A} e.
Arguments Exited {A} code.

(** An own property of an options object that may be missing, or present
    with the value [undefined]. *)
Inductive Property (A : Type) : Type :=
| Absent
| Present (value : option A).
Arguments Absent {A}.
Arguments Present {A} value.

Definition crossMark : jsstring := [0x274C]%N.
Definition checkMark : jsstring := [0x2705]%N.
Definition warningSign : jsstring := [0x26A0; 0xFE0F]%N.
Definition inboxTray : jsstring := [0xD83D; 0xDCE5]%N.
Definition openFolder : jsstring := [0xD83D; 0xDCC2]%N.
Definition herb : jsstring := [0xD83C; 0xDF3F]%N.
Definition roundPushpin : jsstring := [0xD83D; 0xDCCD]%N.
Definition outboxTray : jsstring := [0xD83D; 0xDCE4]%N.
Definition informationSign : jsstring := [0x2139; 0xFE0F]%N.
Definition memo : jsstring := [0xD83D; 0xDCDD]%N.
Definition bullet : jsstring := [0x2022]%N.
Definition counterclockwise : jsstring := [0xD83D; 0xDD04]%N.
Definition rocket : jsstring := [0xD83D; 0xDE80]%N.
Definition clipboard : jsstring := [0xD83D; 0xDCCB]%N.
Definition barChart : jsstring := [0xD83D; 0xDCCA]%N.
Definition keycap1 : jsstring := [0x0031; 0xFE0F; 0x20E3]%N.
Definition keycap2 : jsstring := [0x0032; 0xFE0F; 0x20E3]%N.
Definition keycap3 : jsstring := [0x0033; 0xFE0F; 0x20E3]%N.

(** [/^(main|master|develop)$/] *)
Definition mainlinePattern : regex :=
  seq [ AssertStart; Group 1 (alt [lit "main"; lit "master"; lit "develop"]); AssertEnd ].

Record BranchOptions : Type := mkBranchOptions {
  name : jsstring;
  from : option jsstring
}.

Record SyncOptions : Type := mkSyncOptions {
  syncBase : option jsstring;
  syncRebase : option bool
}.

Record RebaseOptions : Type := mkRebaseOptions {
  rebaseBase : Property jsstring;
  interactive : option bool
}.

(** The commands that rebase: [git rebase ...]. *)
Definition isRebaseCommand (command : jsstring) : bool :=
  startsWith (str "git rebase ") command.

Definition notRebase (e : Event) : Prop :=
  match e with
  | Ran command => isRebaseCommand command = false
  | _ => True
  end.

(** The commands of git.ts that ask about the repository: none of them
    touches the working tree or the local branches. *)
Definition repositoryQueries : list jsstring :=
  [ str "git rev-parse --git-dir"; str "git rev-parse --abbrev-ref HEAD";
    str "git status --porcelain"; Git.fetchCommand; Git.branchCommand;
    Git.symbolicRefCommand ].

(** One of these queries, and nothing printed. *)
Definition quietQuery (e : Event) : Prop :=
  match e with
  | Ran command => In command repositoryQueries
  | _ => False
  end.

(** What sync.ts and rebase.ts print first when the working tree is not
    clean. *)
Definition uncommittedError : Event :=
  Error [Styled "red" ((crossMark ++ str " Error:"));
         Plain (str "You have uncommitted changes. Commit or stash them first.")].

(** The command lines of status.ts and pr.ts and of the functions they
    call, as they are written there: the fixed ones, and the four into
    which a text that [git] has printed is pasted (the current branch into
    the fetch, the upstream into the others). *)
Definition checkCommands : list jsstring :=
  [ str "git rev-parse --git-dir";
    str "git rev-parse --abbrev-ref HEAD";
    str "git status --porcelain";
    str "git rev-parse --abbrev-ref --symbolic-full-name @{u}";
    str "git rev-parse HEAD";
    str "git log origin/develop..HEAD --oneline --no-merges";
    str "git log origin/main..HEAD --oneline --no-merges";
    str "git fetch origin develop";
    str "git merge-base HEAD origin/develop";
    str "git rev-parse origin/develop";
    str "git log -1 --pretty=%B" ].

Definition pastedCommand (command : jsstring) : Prop :=
  exists text,
    command = str "git fetch origin " ++ text \/
    command = str "git rev-parse " ++ text \/
    command = str "git rev-list --count " ++ text ++ str "..HEAD" \/
    command = str "git rev-list --count HEAD.." ++ text.

Definition ofCheck (command : jsstring) : Prop :=
  In command checkCommands \/ pastedCommand command.

Definition runsCheck (e : Event) : Prop :=
  match e with
  | Ran command => ofCheck command
  | _ => True
  end.

(** Lines of pr.ts and commit.ts: the heading of the summary, the line of
    one issue, and the heading of a failed commit validation. *)
Definition summaryHeader : Event :=
  Log [Styled "blue.bold" (([LF] ++ clipboard ++ str " Summary" ++ [LF]))].

Definition issueLine (issue : jsstring) : Event :=
  Log [Styled "red" (crossMark); Plain issue].

Definition commitFailed : Event :=
  Log [Styled "red" ((crossMark ++ str " Commit message validation failed:"))].

(** An event that is neither the heading of the summary nor the line of
    an issue. *)
Definition notVerdict (e : Event) : Prop :=
  e <> summaryHeader /\ forall issue, e <> issueLine issue.

(** The commands a trace holds. *)
Fixpoint commandsOf (trace : list Event) : list jsstring :=
  match trace with
  | [] => []
  | Ran command :: rest => command :: commandsOf rest
  | _ :: rest => commandsOf rest
  end.

(** A clean clone on [master], with no branch [develop] on the remote and
    [origin/HEAD] at [main]. *)
Definition masterClone (command : jsstring) (w : unit) : SpawnResult * unit :=
  if strictEq command (str "git rev-parse --abbrev-ref HEAD") then
    (Output (str "master" ++ [LF]), w)
  else if strictEq command Git.symbolicRefCommand then
    (Output (str "refs/remotes/origin/main" ++ [LF]), w)
  else if strictEq command (str "git rev-parse --abbrev-ref --symbolic-full-name @{u}") then
    (Output (str "origin/master" ++ [LF]), w)
  else if strictEq command (str "git branch -r") then
    (Output (str "  origin/HEAD -> origin/main" ++ [LF] ++
             str "  origin/main" ++ [LF] ++ str "  origin/master" ++ [LF]), w)
  else (Output [], w).

Section Process.

Variable World : Type.
Variable spawn : jsstring -> World -> SpawnResult * World.

Definition Machine : Type := World * list Event.

Definition Proc (A : Type) : Type := Machine -> Outcome A * Machine.

Definition ret (A : Type) (a : A) : Proc A := fun m => (Returned a, m).

Definition bind (A B : Type) (c : Proc A) (k : A -> Proc B) : Proc B :=
  fun m =>
    match c m with
    | (Returned a, m') => k a m'
    | (Threw e, m') => (Threw e, m')
    | (Exited code, m') => (Exited code, m')
    end.

Local Notation "x <- c ;; k" := (bind c (fun x => k))
  (at level 61, c at next level, right associativity).
Local Notation "c ;;; k" := (bind c (fun _ => k))
  (at level 61, right associativity).

(** [try { c } catch (error) { h error }] *)
Definition tryCatch (A : Type) (c : Proc A) (h : Thrown -> Proc A) : Proc A :=
  fun m =>
    match c m with
    | (Threw e, m') => h e m'
    | r => r
    end.

(** [process.exit(code)] *)
Definition exit {A : Type} (code : nat) : Proc A := fun m => (Exited code, m).

Definition emit (e : Event) : Proc unit :=
  fun m => (Returned tt, (fst m, snd m ++ [e])).

Definition consoleLog (args : list Segment) : Proc unit := emit (Log args).
Definition consoleWarn (args : list Segment) : Proc unit := emit (Warn args).
Definition consoleError (args : list Segment) : Proc unit := emit (Error args).

Definition execSync (command : jsstring) : Proc jsstring :=
  fun m =>
    match spawn command (fst m) with
    | (Output stdout, w') => (Returned stdout, (w', snd m ++ [Ran command]))
    | (Failure msg st, w') =>
        (Threw {| message := msg; status := st |}, (w', snd m ++ [Ran command]))
    end.

(** The same [execSync] as the functions of git.ts and status.ts take it:
    they look at nothing of an error but its message. *)
Definition execSyncIO (command : jsstring) (m : Machine) : Completion jsstring * Machine :=
  match spawn command (fst m) with
  | (Output stdout, w') => (Normal stdout, (w', snd m ++ [Ran command]))
  | (Failure msg _, w') => (Throw msg, (w', snd m ++ [Ran command]))
  end.

Definition liftIO (A : Type) (c : Git.IO Machine A) : Proc A :=
  fun m =>
    match c m with
    | (Normal a, m') => (Returned a, m')
    | (Throw e, m') => (Threw {| message := e; status := None |}, m')
    end.

Definition liftCompletion (A : Type) (c : Completion A) : Proc A :=
  fun m =>
    match c with
    | Normal a => (Returned a, m)
    | Throw e => (Threw {| message := e; status := None |}, m)
    end.

(** [a.forEach(f)] *)
Fixpoint forEach (A : Type) (a : list A) (f : A -> Proc unit) : Proc unit :=
  match a with
  | [] => ret tt
  | x :: rest => f x ;;; forEach rest f
  end.

Definition when (b : bool) (c : Proc unit) : Proc unit :=
  if b then c else ret tt.

(** *** src/commands/commit.ts *)

Definition validateLastCommit : Proc unit :=
  tryCatch
    (_ <- execSync (str "git rev-parse --git-dir") ;; ret tt)
    (fun _ =>
       consoleError [Styled "red" ((crossMark ++ str " Error:")); Plain (str "Not in a Git repository")] ;;;
       exit 1) ;;;
  tryCatch
    (message <- execSync (str "git log -1 --pretty=%B") ;;
     validation <- liftCompletion (Commit.validateCommitMessage message) ;;
     consoleLog [Styled "blue" ((memo ++ str " Last Commit Message:"))] ;;;
     consoleLog [Styled "gray" (trim message)] ;;;
     consoleLog [Plain []] ;;;
     if Commit.valid validation then
       consoleLog [Styled "green" ((checkMark ++ str " Commit message is valid"))] ;;;
       when (0 <? List.length (Commit.warnings validation))
         (consoleLog [Styled "yellow" (([LF] ++ warningSign ++ str "  Warnings:"))] ;;;
          forEach (Commit.warnings validation)
            (fun warning => consoleLog [Styled "yellow" ((str "   " ++ bullet ++ str " ") ++ warning)]))
     else
       consoleLog [Styled "red" ((crossMark ++ str " Commit message validation failed:"))] ;;;
       forEach (Commit.errors validation)
         (fun error => consoleLog [Styled "red" ((str "   " ++ bullet ++ str " ") ++ error)]) ;;;
       when (0 <? List.length (Commit.warnings validation))
         (consoleLog [Styled "yellow" (([LF] ++ warningSign ++ str "  Warnings:"))] ;;;
          forEach (Commit.warnings validation)
            (fun warning => consoleLog [Styled "yellow" ((str "   " ++ bullet ++ str " ") ++ warning)])) ;;;
       exit 1)
    (fun _ =>
       consoleError [Styled "red" ((crossMark ++ str " Error:")); Plain (str "Could not read last commit")] ;;;
       exit 1).

Definition validateStagedCommit (message : jsstring) : Proc unit :=
  validation <- liftCompletion (Commit.validateCommitMessage message) ;;
  if Commit.valid validation then
    consoleLog [Styled "green" ((checkMark ++ str " Commit message is valid"))] ;;;
    when (0 <? List.length (Commit.warnings validation))
      (consoleLog [Styled "yellow" (([LF] ++ warningSign ++ str "  Warnings:"))] ;;;
       forEach (Commit.warnings validation)
         (fun warning => consoleLog [Styled "yellow" ((str "   " ++ bullet ++ str " ") ++ warning)]))
  else
    consoleLog [Styled "red" ((crossMark ++ str " Commit message validation failed:"))] ;;;
    forEach (Commit.errors validation)
      (fun error => consoleLog [Styled "red" ((str "   " ++ bullet ++ str " ") ++ error)]) ;;;
    when (0 <? List.length (Commit.warnings validation))
      (consoleLog [Styled "yellow" (([LF] ++ warningSign ++ str "  Warnings:"))] ;;;
       forEach (Commit.warnings validation)
         (fun warning => consoleLog [Styled "yellow" ((str "   " ++ bullet ++ str " ") ++ warning)])) ;;;
    exit 1.

(** *** src/commands/branch.ts *)

Definition createBranch (options : BranchOptions) : Proc unit :=
  let name := name options in
  let from := match from options with Some f => f | None => str "develop" end in
  let validation := Branch.validateBranchName name in
  when (negb (Branch.valid validation))
    (consoleError [Styled "red" ((crossMark ++ str " Error:")); Plain (toString (Branch.error validation))] ;;;
     exit 1) ;;;
  tryCatch
    (_ <- execSync (str "git rev-parse --git-dir") ;; ret tt)
    (fun _ =>
       consoleError [Styled "red" ((crossMark ++ str " Error:")); Plain (str "Not in a Git repository")] ;;;
       exit 1) ;;;
  tryCatch
    (branches <- execSync (str "git branch --list") ;;
     remoteBranches <- execSync (str "git branch -r --list") ;;
     when (includes name branches || includes (str "origin/" ++ name) remoteBranches)
       (consoleError [Styled "red" ((crossMark ++ str " Error:"));
                      Plain ((str "Branch " ++ [DQUOTE]) ++ name ++ ([DQUOTE] ++ str " already exists"))] ;;;
        exit 1) ;;;
     consoleLog [Styled "blue" ((inboxTray ++ str " Fetching latest changes..."))] ;;;
     _ <- execSync (str "git fetch origin") ;;
     consoleLog [Styled "blue" ((openFolder ++ str " Switching to ") ++ from ++ str "...")] ;;;
     tryCatch
       (_ <- execSync (str "git checkout " ++ from) ;;
        _ <- execSync (str "git pull origin " ++ from) ;;
        ret tt)
       (fun _ =>
          consoleWarn [Styled "yellow"
            ((warningSign ++ str "  Warning: Could not checkout ") ++ from ++ str ", creating from current branch")]) ;;;
     consoleLog [Styled "blue" ((herb ++ str " Creating branch: ") ++ name ++ str "...")] ;;;
     _ <- execSync (str "git switch -c " ++ name) ;;
     consoleLog [Styled "green" ((checkMark ++ str " Successfully created and switched to branch: ") ++ name)] ;;;
     consoleLog [Styled "gray" (([LF] ++ str "Next steps:"))] ;;;
     consoleLog [Styled "gray" (str "  1. Make your changes")] ;;;
     consoleLog [Styled "gray" ((str "  2. Commit: git commit -m " ++ [DQUOTE] ++ str "feat: your message" ++ [DQUOTE]))] ;;;
     consoleLog [Styled "gray" (str "  3. Push: git push -u origin " ++ name)] ;;;
     consoleLog [Styled "gray" (str "  4. Create a Pull Request")])
    (fun error =>
       consoleError [Styled "red" ((crossMark ++ str " Error creating branch:")); Plain (message error)] ;;;
       exit 1).

Definition showBranchStatus : Proc unit :=
  tryCatch
    (out <- execSync (str "git rev-parse --abbrev-ref HEAD") ;;
     let currentBranch := trim out in
     let validation := Branch.validateBranchName currentBranch in
     consoleLog [Styled "blue" ((roundPushpin ++ str " Current Branch:")); Styled "bold" currentBranch] ;;;
     (if negb (Branch.valid validation)
         && negb (arrayIncludes [str "main"; str "develop"] (Some currentBranch))
      then consoleLog [Styled "yellow" ((warningSign ++ str "  Warning:"));
                       Plain (toString (Branch.error validation))]
      else consoleLog [Styled "green" ((checkMark ++ str " Branch name follows convention"))]) ;;;
     tryCatch
       (out <- execSync (str "git rev-parse --abbrev-ref --symbolic-full-name @{u}") ;;
        let tracking := trim out in
        out <- execSync (str "git rev-list --count " ++ tracking ++ str "..HEAD") ;;
        let ahead := trim out in
        out <- execSync (str "git rev-list --count HEAD.." ++ tracking) ;;
        let behind := trim out in
        when (negb (strictEq ahead (str "0")))
          (consoleLog [Styled "yellow"
             ((outboxTray ++ str " ") ++ ahead ++ str " commit(s) ahead of " ++ tracking)]) ;;;
        when (negb (strictEq behind (str "0")))
          (consoleLog [Styled "yellow"
             ((inboxTray ++ str " ") ++ behind ++ str " commit(s) behind " ++ tracking)]) ;;;
        when (strictEq ahead (str "0") && strictEq behind (str "0"))
          (consoleLog [Styled "green" ((checkMark ++ str " Branch is up to date"))]))
       (fun _ => consoleLog [Styled "gray" ((informationSign ++ str "  No remote tracking branch set"))]))
    (fun _ =>
       consoleError [Styled "red" ((crossMark ++ str " Error:")); Plain (str "Not in a Git repository")] ;;;
       exit 1).

(** *** src/commands/sync.ts *)

(** What the rebase [catch] blocks of sync.ts and rebase.ts print before
    they end the process. *)
Definition conflictHelp (headline : jsstring) : Proc unit :=
  consoleLog [Styled "yellow" headline] ;;;
  consoleLog [Styled "gray" (([LF] ++ str "To resolve conflicts:"))] ;;;
  consoleLog [Styled "gray" (str "  1. Fix conflicts in the files shown above")] ;;;
  consoleLog [Styled "gray" (str "  2. Stage resolved files: git add <file>")] ;;;
  consoleLog [Styled "gray" (str "  3. Continue rebase: git rebase --continue")] ;;;
  consoleLog [Styled "gray" (([LF] ++ str "To abort: git rebase --abort"))].

Definition uncommittedHelp : Proc unit :=
  consoleError [Styled "red" ((crossMark ++ str " Error:"));
                Plain (str "You have uncommitted changes. Commit or stash them first.")] ;;;
  consoleLog [Styled "gray" (str "   Stash: git stash")] ;;;
  consoleLog [Styled "gray" ((str "   Or commit: git commit -am " ++ [DQUOTE] ++ str "your message" ++ [DQUOTE]))].

Definition forcePushHelp (currentBranch : jsstring) : Proc unit :=
  consoleLog [Styled "gray" (([LF] ++ str "If you need to push, you may need to force push:"))] ;;;
  consoleLog [Styled "gray" (str "  git push --force-with-lease origin " ++ currentBranch)] ;;;
  consoleLog [Styled "yellow"
    (([LF] ++ warningSign ++ str "  Only force push if you're the only one working on this branch!"))].

Definition syncBranch (options : SyncOptions) : Proc unit :=
  inRepository <- liftIO (Repository.isGitRepository execSyncIO) ;;
  when (negb inRepository)
    (consoleError [Styled "red" ((crossMark ++ str " Error:")); Plain (str "Not in a Git repository")] ;;;
     exit 1) ;;;
  current <- liftIO (Repository.getCurrentBranch execSyncIO) ;;
  match current with
  | None | Some [] =>
      consoleError [Styled "red" ((crossMark ++ str " Error:"));
                    Plain (str "Could not determine current branch")] ;;;
      exit 1
  | Some currentBranch =>
      detectedBranch <- liftIO (Git.getIntegrationBranch execSyncIO) ;;
      let baseBranch :=
        match syncBase options with
        | Some (c :: b) => c :: b
        | Some [] | None => detectedBranch
        end in
      let shouldRebase :=
        match syncRebase options with Some b => b | None => true end in
      dirty <- liftIO (Repository.hasUncommittedChanges execSyncIO) ;;
      when dirty (uncommittedHelp ;;; exit 1) ;;;
      tryCatch
        (consoleLog [Styled "blue" ((inboxTray ++ str " Fetching latest changes from origin..."))] ;;;
         _ <- execSync (str "git fetch origin") ;;
         tryCatch
           (out <- execSync (str "git rev-parse --abbrev-ref --symbolic-full-name @{u}") ;;
            let tracking := trim out in
            consoleLog [Styled "blue"
              ((counterclockwise ++ str " Updating ") ++ currentBranch ++ str " from " ++ tracking ++ str "...")] ;;;
            _ <- execSync (str "git pull --rebase origin " ++ currentBranch) ;;
            ret tt)
           (fun _ =>
              consoleLog [Styled "yellow"
                ((warningSign ++ str "  No remote tracking branch set for ") ++ currentBranch)]) ;;;
         if shouldRebase && negb (strictEq currentBranch baseBranch)
            && negb (test mainlinePattern currentBranch)
         then
           tryCatch
             (_ <- execSync (str "git rev-parse origin/" ++ baseBranch) ;;
              consoleLog [Styled "blue"
                ((counterclockwise ++ str " Rebasing ") ++ currentBranch ++ str " onto origin/" ++ baseBranch ++ str "...")] ;;;
              _ <- execSync (str "git rebase origin/" ++ baseBranch) ;;
              consoleLog [Styled "green"
                ((checkMark ++ str " Successfully synced and rebased ") ++ currentBranch)] ;;;
              forcePushHelp currentBranch)
             (fun error =>
                match status error with
                | Some 1 =>
                    conflictHelp (([LF] ++ warningSign ++ str "  Rebase encountered conflicts.")) ;;;
                    exit 1
                | _ =>
                    consoleWarn [Styled "yellow"
                      ((warningSign ++ str "  Could not rebase onto ") ++ baseBranch ++ str " (branch may not exist)")]
                end)
         else
           consoleLog [Styled "green" ((checkMark ++ str " Successfully synced ") ++ currentBranch)])
        (fun error =>
           consoleError [Styled "red" ((crossMark ++ str " Error during sync:")); Plain (message error)] ;;;
           exit 1)
  end.

(** *** src/commands/rebase.ts *)

Definition rebaseBranch (options : RebaseOptions) : Proc unit :=
  inRepository <- liftIO (Repository.isGitRepository execSyncIO) ;;
  when (negb inRepository)
    (consoleError [Styled "red" ((crossMark ++ str " Error:")); Plain (str "Not in a Git repository")] ;;;
     exit 1) ;;;
  detectedBranch <- liftIO (Git.getIntegrationBranch execSyncIO) ;;
  (* [{ base: detectedBranch, ...options }], then [interactive = false] *)
  let base : option jsstring :=
    match rebaseBase options with
    | Absent => Some detectedBranch
    | Present v => v
    end in
  let interactive := match interactive options with Some b => b | None => false end in
  tryCatch
    (_ <- execSync (str "git rev-parse --git-dir") ;; ret tt)
    (fun _ =>
       consoleError [Styled "red" ((crossMark ++ str " Error:")); Plain (str "Not in a Git repository")] ;;;
       exit 1) ;;;
  tryCatch
    (out <- execSync (str "git rev-parse --abbrev-ref HEAD") ;;
     let currentBranch := trim out in
     dirty <- liftIO (Repository.hasUncommittedChanges execSyncIO) ;;
     when dirty (uncommittedHelp ;;; exit 1) ;;;
     consoleLog [Styled "blue" ((inboxTray ++ str " Fetching latest changes from origin..."))] ;;;
     _ <- execSync (str "git fetch origin " ++ toString base) ;;
     tryCatch
       (_ <- execSync (str "git rev-parse origin/" ++ toString base) ;; ret tt)
       (fun _ =>
          consoleError [Styled "red"
            ((crossMark ++ str " Error: Remote branch origin/") ++ toString base ++ str " not found")] ;;;
          exit 1) ;;;
     consoleLog [Styled "blue"
       ((counterclockwise ++ str " Rebasing ") ++ currentBranch ++ str " onto origin/" ++ toString base ++ str "...")] ;;;
     let rebaseCommand :=
       if interactive
       then str "git rebase -i origin/" ++ toString base
       else str "git rebase origin/" ++ toString base in
     _ <- execSync rebaseCommand ;;
     consoleLog [Styled "green"
       ((checkMark ++ str " Successfully rebased ") ++ currentBranch ++ str " onto origin/" ++ toString base)] ;;;
     when (negb interactive) (forcePushHelp currentBranch))
    (fun error =>
       match status error with
       | Some 1 =>
           conflictHelp (([LF] ++ warningSign ++ str "  Rebase encountered issues.")) ;;;
           exit 1
       | _ =>
           consoleError [Styled "red" ((crossMark ++ str " Error during rebase:")); Plain (message error)] ;;;
           exit 1
       end).

(** *** src/commands/status.ts *)

(** The three blocks in which status.ts and pr.ts display what
    [checkPRReadiness] found. *)
Definition displayFindings (report : Status.WorkflowStatus) : Proc unit :=
  when (0 <? List.length (Status.info report))
    (forEach (Status.info report)
       (fun msg => consoleLog [Styled "blue" ((informationSign ++ str " ")); Plain msg]) ;;;
     consoleLog [Plain []]) ;;;
  when (0 <? List.length (Status.issues report))
    (forEach (Status.issues report)
       (fun issue => consoleLog [Styled "red" (crossMark); Plain issue]) ;;;
     consoleLog [Plain []]) ;;;
  when (0 <? List.length (Status.warnings report))
    (forEach (Status.warnings report)
       (fun warning => consoleLog [Styled "yellow" ((warningSign ++ str " ")); Plain warning]) ;;;
     consoleLog [Plain []]).

Definition showWorkflowStatus : Proc unit :=
  report <- liftIO (Status.checkPRReadiness execSyncIO) ;;
  consoleLog [Styled "blue.bold" (([LF] ++ barChart ++ str " Git Workflow Status" ++ [LF]))] ;;;
  displayFindings report ;;;
  if Status.readyForPR report then
    consoleLog [Styled "green.bold" ((checkMark ++ str " Branch is ready for Pull Request!"))] ;;;
    consoleLog [Styled "gray" (([LF] ++ str "Next steps:"))] ;;;
    consoleLog [Styled "gray" (str "  1. Push your branch: git push origin <branch>")] ;;;
    consoleLog [Styled "gray" (str "  2. Create a Pull Request on GitHub/GitLab")]
  else
    consoleLog [Styled "red.bold" ((crossMark ++ str " Branch is NOT ready for Pull Request"))] ;;;
    consoleLog [Styled "gray" (([LF] ++ str "Please address the issues above before creating a PR."))].

(** *** src/commands/pr.ts *)

Definition preparePR : Proc unit :=
  inRepository <- liftIO (Repository.isGitRepository execSyncIO) ;;
  when (negb inRepository)
    (consoleError [Styled "red" ((crossMark ++ str " Error:")); Plain (str "Not in a Git repository")] ;;;
     exit 1) ;;;
  current <- liftIO (Repository.getCurrentBranch execSyncIO) ;;
  match current with
  | None | Some [] =>
      consoleError [Styled "red" ((crossMark ++ str " Error:"));
                    Plain (str "Could not determine current branch")] ;;;
      exit 1
  | Some currentBranch =>
      consoleLog [Styled "blue.bold" (([LF] ++ rocket ++ str " Preparing Pull Request Checklist" ++ [LF]))] ;;;
      consoleLog [Styled "gray" (str "Branch: " ++ currentBranch ++ [LF])] ;;;
      let hasErrors := false in
      let hasWarnings := false in
      consoleLog [Styled "blue" ((keycap1 ++ str "  Checking branch status..."))] ;;;
      hasErrors <- tryCatch
                     (showBranchStatus ;;;
                      consoleLog [Plain []] ;;;
                      ret hasErrors)
                     (fun _ => ret true) ;;
      consoleLog [Styled "blue" ((keycap2 ++ str "  Validating commit messages..."))] ;;;
      hasErrors <- tryCatch
                     (validateLastCommit ;;;
                      consoleLog [Plain []] ;;;
                      ret hasErrors)
                     (fun _ => consoleLog [Plain []] ;;; ret true) ;;
      consoleLog [Styled "blue" ((keycap3 ++ str "  Checking PR readiness..."))] ;;;
      report <- liftIO (Status.checkPRReadiness execSyncIO) ;;
      let hasErrors :=
        if 0 <? List.length (Status.issues report) then true else hasErrors in
      let hasWarnings :=
        if 0 <? List.length (Status.warnings report) then true else hasWarnings in
      displayFindings report ;;;
      consoleLog [Styled "blue.bold" (([LF] ++ clipboard ++ str " Summary" ++ [LF]))] ;;;
      if hasErrors then
        consoleLog [Styled "red.bold" ((crossMark ++ str " Branch is NOT ready for Pull Request"))] ;;;
        consoleLog [Styled "gray"
          (([LF] ++ str "Please address the errors above before creating a PR."))] ;;;
        consoleLog [Styled "gray" (([LF] ++ str "Suggested next steps:"))] ;;;
        consoleLog [Styled "gray" (str "  1. Fix the issues listed above")] ;;;
        consoleLog [Styled "gray" (str "  2. Run: git-workflow pr (again)")] ;;;
        consoleLog [Styled "gray" (str "  3. Once ready, push and create PR")] ;;;
        exit 1
      else if hasWarnings then
        consoleLog [Styled "yellow.bold" ((warningSign ++ str "  Branch is ready, but has warnings"))] ;;;
        consoleLog [Styled "gray"
          (([LF] ++ str "Consider addressing warnings for best practices."))] ;;;
        consoleLog [Styled "gray" (([LF] ++ str "You can proceed with:"))] ;;;
        consoleLog [Styled "gray" (str "  1. Push: git push origin " ++ currentBranch)] ;;;
        consoleLog [Styled "gray" (str "  2. Create a Pull Request on GitHub/GitLab")]
      else
        consoleLog [Styled "green.bold" ((checkMark ++ str " Branch is ready for Pull Request!"))] ;;;
        consoleLog [Styled "gray" (([LF] ++ str "Next steps:"))] ;;;
        consoleLog [Styled "gray" (str "  1. Push: git push origin " ++ currentBranch)] ;;;
        consoleLog [Styled "gray" (str "  2. Create a Pull Request on GitHub/GitLab")] ;;;
        consoleLog [Styled "gray" (([LF] ++ str "To sync before pushing:"))] ;;;
        consoleLog [Styled "gray" (str "  git-workflow sync")]
  end.

(** Ways a run can be bounded: it ends the process with code 1 only; it
    also never throws; the events it appends all satisfy [P]. *)
Definition exitsWithOne (A : Type) (c : Proc A) : Prop :=
  forall m, match fst (c m) with Exited code => code = 1 | _ => True end.

Definition settles (A : Type) (c : Proc A) : Prop :=
  forall m,
    match fst (c m) with
    | Returned _ => True
    | Threw _ => False
    | Exited code => code = 1
    end.

Definition emitsOnly (P : Event -> Prop) (A : Type) (c : Proc A) : Prop :=
  forall m, exists tr, snd (snd (c m)) = snd m ++ tr /\ Forall P tr.

Definition neverThrowsIO (A : Type) (c : Git.IO Machine A) : Prop :=
  forall m, exists a m', c m = (Normal a, m').

Definition emitsOnlyIO (P : Event -> Prop) (A : Type) (c : Git.IO Machine A) : Prop :=
  forall m, exists tr, snd (snd (c m)) = snd m ++ tr /\ Forall P tr.

(** The same for a step of status.ts, which runs on the machine and the
    status object. *)
Definition emitsOnlyStore (P : Event -> Prop) (A : Type)
    (c : Git.IO (Status.Store Machine) A) : Prop :=
  forall s, exists tr, snd (fst (snd (c s))) = snd (fst s) ++ tr /\ Forall P tr.

(** The events a run appends to an empty trace, and how it ends. *)
Definition traceOf (A : Type) (c : Proc A) (w : World) : list Event :=
  snd (snd (c (w, []))).

Definition outcomeOf (A : Type) (c : Proc A) (w : World) : Outcome A :=
  fst (c (w, [])).

End Process.

End Cli.

(** * Properties *)

(** ** The matcher against its relation *)

Section MatcherFacts.

Lemma update_length (A : Type) (i : nat) (v : A) (l : list A) :
  List.length (update i v l) = List.length l.
Proof.
  revert i; induction l as [|a l IH]; intros [|i]; simpl; auto.
Qed.

Lemma star_sound p s : forall i caps k z,
  star p i s caps k = Some z ->
  exists n, n <= List.length s /\ forallb p (firstn n s) = true /\
            k (mkState (i + n) (skipn n s) caps) = Some z.
Proof.
  induction s as [|c t IH]; intros i caps k z H; simpl in H.
  - exists 0. rewrite Nat.add_0_r. auto.
  - destruct (p c) eqn:Hc.
    + destruct (star p (S i) t caps k) eqn:Hs.
      * injection H as <-. apply IH in Hs as (n & Hn & Hall & Hk).
        exists (S n). simpl. rewrite Hc, Hall.
        rewrite Nat.add_succ_r. repeat split; auto. lia.
      * exists 0. rewrite Nat.add_0_r. simpl. repeat split; auto. lia.
    + exists 0. rewrite Nat.add_0_r. simpl. repeat split; auto. lia.
Qed.

Lemma star_complete p s : forall i caps (k : Continuation) n,
  n <= List.length s -> forallb p (firstn n s) = true ->
  k (mkState (i + n) (skipn n s) caps) <> None ->
  star p i s caps k <> None.
Proof.
  induction s as [|c t IH]; intros i caps k n Hn Hall Hk; simpl.
  - simpl in Hn. assert (n = 0) by lia. subst n.
    rewrite Nat.add_0_r in Hk. exact Hk.
  - destruct n as [|n].
    + rewrite Nat.add_0_r in Hk. simpl in Hk.
      destruct (p c); [destruct (star p (S i) t caps k)|]; auto; discriminate.
    + simpl in Hall, Hn, Hk. apply andb_true_iff in Hall as [Hc Hall].
      rewrite Hc. rewrite Nat.add_succ_r in Hk.
      specialize (IH (S i) caps k n ltac:(lia) Hall Hk).
      destruct (star p (S i) t caps k); [discriminate | contradiction].
Qed.

(** Whatever the matcher returns, it reached through a state the relation
    allows. *)
Lemma matcher_sound r : forall x k z,
  matcher r x k = Some z -> exists y, matches r x y /\ k y = Some z.
Proof.
  induction r as [|p|r1 IH1 r2 IH2|r1 IH1 r2 IH2|r1 IH1|p|i r1 IH1| |];
    intros x k z H; simpl in H |- *.
  - eauto.
  - destruct (rest x) as [|c t] eqn:Hr; [discriminate|].
    destruct (p c) eqn:Hc; [|discriminate]. eauto 8.
  - apply IH1 in H as (m & Hm & H). apply IH2 in H as (y & Hy & H). eauto.
  - destruct (matcher r1 x k) eqn:H1.
    + injection H as <-. apply IH1 in H1 as (y & Hy & H1). eauto.
    + apply IH2 in H as (y & Hy & H). eauto.
  - destruct (matcher r1 x _) eqn:H1.
    + injection H as <-. apply IH1 in H1 as (y & Hy & H1).
      destruct (endIndex y =? endIndex x) eqn:He; [discriminate|].
      apply Nat.eqb_neq in He. eauto.
    + eauto.
  - destruct (rest x) as [|c t] eqn:Hr; [discriminate|].
    destruct (p c) eqn:Hc; [|discriminate].
    apply star_sound in H as (n & Hn & Hall & H).
    exists (advance (S n) x). split; [exists (S n)|].
    + simpl. rewrite Hc, Hall. repeat split; auto; lia.
    + unfold advance. rewrite Hr. simpl.
      rewrite Nat.add_succ_r. rewrite Nat.add_succ_l in H. exact H.
  - apply IH1 in H as (m & Hm & H). eauto.
  - destruct (endIndex x =? 0) eqn:He; [|discriminate].
    apply Nat.eqb_eq in He. eauto.
  - destruct (rest x) eqn:Hr; [|discriminate]. eauto.
Qed.

(** Whenever the relation allows a state the continuation accepts, the
    matcher succeeds. *)
Lemma matcher_complete r : forall x y (k : Continuation),
  matches r x y -> k y <> None -> matcher r x k <> None.
Proof.
  induction r as [|p|r1 IH1 r2 IH2|r1 IH1 r2 IH2|r1 IH1|p|i r1 IH1| |];
    intros x y k Hm Hk; simpl in Hm |- *.
  - subst y. exact Hk.
  - destruct Hm as (c & t & Hr & Hc & ->). rewrite Hr, Hc. exact Hk.
  - destruct Hm as (m & H1 & H2). eapply IH1; [exact H1|]. eapply IH2; eauto.
  - destruct Hm as [H1|H2].
    + specialize (IH1 _ _ _ H1 Hk). destruct (matcher r1 x k); [discriminate|contradiction].
    + destruct (matcher r1 x k); [discriminate|]. eapply IH2; eauto.
  - destruct Hm as [[H1 Hne]| ->].
    + assert (Hm : matcher r1 x (fun y0 => if endIndex y0 =? endIndex x then None else k y0) <> None).
      { eapply IH1; [exact H1|]. simpl.
        apply Nat.eqb_neq in Hne. rewrite Hne. exact Hk. }
      destruct (matcher r1 x _); [discriminate|contradiction].
    + destruct (matcher r1 x _); [discriminate|exact Hk].
  - destruct Hm as (n & Hpos & Hn & Hall & ->).
    destruct (rest x) as [|c t] eqn:Hr; [simpl in Hn; lia|].
    destruct n as [|n]; [lia|]. simpl in Hall, Hn.
    apply andb_true_iff in Hall as [Hc Hall]. rewrite Hc.
    apply star_complete with (n := n); [lia|exact Hall|].
    unfold advance in Hk. rewrite Hr in Hk. simpl in Hk.
    rewrite Nat.add_succ_r in Hk. rewrite Nat.add_succ_l. exact Hk.
  - destruct Hm as (m & H1 & ->). eapply IH1; eauto.
  - destruct Hm as [He ->]. rewrite He. exact Hk.
  - destruct Hm as [Hr ->]. rewrite Hr. exact Hk.
Qed.

End MatcherFacts.

(** ** Anchored patterns and literals *)

Section ExecFacts.

(** A pattern that opens with [^] can only match at index 0. *)
Lemma execFrom_anchored r n s : forall i,
  execFrom (Seq AssertStart r) n (S i) s = None.
Proof.
  induction s as [|c t IH]; intros i; simpl; auto.
Qed.

Lemma exec_anchored_sound r n s m :
  execFrom (Seq AssertStart r) n 0 s = Some m ->
  exists y, matches r (mkState 0 s (repeat None (S n))) y /\
            m = update 0 (Some (firstn (endIndex y) s)) (captures y).
Proof.
  intros H.
  assert (Hm : exists y, matcher r (mkState 0 s (repeat None (S n))) Some = Some y /\
                         m = update 0 (Some (firstn (endIndex y - 0) s)) (captures y)).
  { destruct s as [|c t]; simpl in H;
      destruct (matcher r _ Some) as [y|] eqn:Hy.
    - injection H as <-. eauto.
    - discriminate.
    - injection H as <-. eauto.
    - rewrite execFrom_anchored in H. discriminate. }
  destruct Hm as (y & Hy & ->). rewrite Nat.sub_0_r.
  apply matcher_sound in Hy as (y' & Hy' & Heq). injection Heq as ->. eauto.
Qed.

Lemma exec_anchored_complete r n s y :
  matches r (mkState 0 s (repeat None (S n))) y ->
  execFrom (Seq AssertStart r) n 0 s <> None.
Proof.
  intros Hy.
  assert (Hm : matcher r (mkState 0 s (repeat None (S n))) Some <> None).
  { eapply matcher_complete; [exact Hy|discriminate]. }
  destruct s as [|c t]; simpl;
    destruct (matcher r _ Some); try discriminate; contradiction.
Qed.

Lemma test_true r s : test r s = true <-> exec r s <> None.
Proof.
  unfold test. destruct (exec r s); split; intros H; try discriminate; auto.
Qed.

Lemma literalOf_cons f a s x y :
  matches (literalOf f (String a s)) x y <->
  matches (Seq (CharSet (f a)) (literalOf f s)) x y.
Proof.
  destruct s as [|b s]; [|reflexivity]. simpl. split.
  - intros H. eauto.
  - intros (m & H & ->). exact H.
Qed.

Lemma isChar_true a c : isChar a c = true <-> c = N_of_ascii a.
Proof. unfold isChar, cu. apply N.eqb_eq. Qed.

(** A literal matches exactly its own characters, and captures nothing. *)
Lemma matches_lit s : forall x y,
  matches (lit s) x y <->
  rest x = str s ++ rest y /\ endIndex y = endIndex x + String.length s /\
  captures y = captures x.
Proof.
  unfold lit. induction s as [|a s IH]; intros x y.
  - simpl. rewrite Nat.add_0_r. split.
    + intros ->. auto.
    + intros (Hr & He & Hc). destruct x, y; simpl in *. congruence.
  - rewrite literalOf_cons. simpl. split.
    + intros (m & (c & t & Hr & Hc & ->) & Hm).
      apply IH in Hm as (Hr' & He & Hcap). simpl in *.
      apply isChar_true in Hc. subst c.
      rewrite Hr, Hr', He, Hcap. repeat split; auto; lia.
    + intros (Hr & He & Hc).
      exists (mkState (S (endIndex x)) (str s ++ rest y) (captures x)). split.
      * exists (N_of_ascii a), (str s ++ rest y). repeat split; auto.
        apply isChar_true. reflexivity.
      * apply IH. simpl. repeat split; auto; lia.
Qed.

End ExecFacts.

(** ** Branch names *)

Section BranchFacts.

Import Branch.

Lemma isSlug_spec slug :
  isSlug slug = true <-> 0 < List.length slug /\ forallb isSlugChar slug = true.
Proof.
  unfold isSlug. destruct slug as [|c t].
  - simpl. split; [discriminate|]. intros [H _]. lia.
  - split; [intros H; split; [simpl; lia|exact H] | intros [_ H]; exact H].
Qed.

(** [/^<prefix>[a-z0-9-]+$/] accepts the prefix followed by a slug, and
    nothing else. *)
Lemma test_prefixed p name :
  test (seq [AssertStart; lit p; Plus isSlugChar; AssertEnd]) name = true <->
  exists slug, isSlug slug = true /\ name = str p ++ slug.
Proof.
  change (seq [AssertStart; lit p; Plus isSlugChar; AssertEnd])
    with (Seq AssertStart (Seq (lit p) (Seq (Plus isSlugChar) AssertEnd))).
  rewrite test_true. unfold exec. split.
  - intros H. destruct (execFrom _ _ 0 name) as [m|] eqn:He; [|contradiction].
    apply exec_anchored_sound in He as (y & Hy & _).
    destruct Hy as (m1 & Hlit & m2 & (n & Hpos & Hn & Hall & ->) & Hend & ->).
    apply matches_lit in Hlit as (Hr & _ & _). simpl in Hr, Hend.
    assert (Hlen : n = List.length (rest m1)).
    { apply (f_equal (@List.length _)) in Hend. rewrite length_skipn in Hend.
      simpl in Hend. lia. }
    subst n. rewrite firstn_all in Hall.
    exists (rest m1). split; [apply isSlug_spec; auto | exact Hr].
  - intros (slug & Hslug & ->). apply isSlug_spec in Hslug as [Hpos Hall].
    match goal with |- execFrom _ ?n _ _ <> _ =>
      pose (caps := repeat (@None jsstring) (S n)) end.
    apply exec_anchored_complete with
      (y := advance (List.length slug) (mkState (String.length p) slug caps)).
    exists (mkState (String.length p) slug caps). split.
    + apply matches_lit. simpl. auto.
    + exists (advance (List.length slug) (mkState (String.length p) slug caps)).
      split.
      * exists (List.length slug). simpl. rewrite firstn_all. auto.
      * simpl. rewrite skipn_all. auto.
Qed.

(** [/^<word>$/] accepts the word alone. *)
Lemma test_exact p name :
  test (seq [AssertStart; lit p; AssertEnd]) name = true <-> name = str p.
Proof.
  change (seq [AssertStart; lit p; AssertEnd])
    with (Seq AssertStart (Seq (lit p) AssertEnd)).
  rewrite test_true. unfold exec. split.
  - intros H. destruct (execFrom _ _ 0 name) as [m|] eqn:He; [|contradiction].
    apply exec_anchored_sound in He as (y & Hy & _).
    destruct Hy as (m1 & Hlit & Hend & ->).
    apply matches_lit in Hlit as (Hr & _ & _). simpl in Hr.
    rewrite Hend, app_nil_r in Hr. exact Hr.
  - intros ->.
    match goal with |- execFrom _ ?n _ _ <> _ =>
      pose (caps := repeat (@None jsstring) (S n)) end.
    apply exec_anchored_complete with (y := mkState (String.length p) [] caps).
    exists (mkState (String.length p) [] caps). split.
    + apply matches_lit. simpl. rewrite app_nil_r. auto.
    + simpl. auto.
Qed.

Lemma valid_existsb name :
  valid (validateBranchName name) =
  existsb (fun pattern => test pattern name) patterns.
Proof.
  unfold validateBranchName.
  destruct (existsb _ patterns); reflexivity.
Qed.

(** C4. [validateBranchName name] is valid exactly when [name] is
    [feature/<slug>], [bugfix/<slug>], [hotfix/<slug>] or [release/<slug>]
    for a slug of one or more lowercase letters, digits and hyphens, or is
    [main] or [develop]; [feature/add-logging], [main] and [develop] are
    valid and [Feature/AddLogging] is not. *)
Theorem validateBranchName_valid_iff :
  (forall name, valid (validateBranchName name) = true <-> followsConvention name) /\
  valid (validateBranchName (str "feature/add-logging")) = true /\
  valid (validateBranchName (str "main")) = true /\
  valid (validateBranchName (str "develop")) = true /\
  valid (validateBranchName (str "Feature/AddLogging")) = false.
Proof.
  split; [|repeat split; reflexivity].
  intros name. rewrite valid_existsb. unfold patterns, followsConvention.
  cbn [existsb]. rewrite !orb_true_iff, !test_prefixed, !test_exact.
  split.
  - intros [H|[H|[H|[H|[H|[H|H]]]]]]; try discriminate; auto;
      destruct H as (slug & Hs & ->); left; exists slug; auto 6.
  - intros [(slug & Hs & [H|[H|[H|H]]])|[H|H]]; eauto 10.
Qed.

End BranchFacts.

(** ** The Conventional Commits pattern *)

Section PatternFacts.

Import Commit.

(** A header the pattern accepts starts with a word character, and its match
    array holds a type and a subject of at least one character. *)
Lemma conventional_sound h m :
  stringMatch h conventionalCommitPattern = Some m ->
  exists c t ty subj,
    h = c :: t /\ isWord c = true /\
    nth 1 m None = Some ty /\ nth 4 m None = Some subj /\ subj <> [].
Proof.
  unfold stringMatch, exec, conventionalCommitPattern. cbn [seq].
  match goal with |- execFrom _ ?n _ _ = _ -> _ => change n with 4 end.
  intros H. apply exec_anchored_sound in H as (y & Hy & ->).
  cbn [matches repeat] in Hy.
  destruct Hy as (m1 & (g1 & (n1 & Hn1pos & Hn1 & Hall1 & ->) & ->) &
                  m2 & Hopt2 & m3 & Hopt3 &
                  m4 & (c & t & Hr & Hc & ->) &
                  m5 & (n5 & Hn5pos & Hn5 & Hall5 & ->) &
                  m6 & (g4 & (n4 & Hn4pos & Hn4 & Hall4 & ->) & ->) & Hend & ->).
  cbn [rest endIndex captures advance capture] in *.
  assert (Hcap3 : exists a b, captures m3 = [None; Some (firstn n1 h); a; b; None]).
  { destruct Hopt3 as [[(g3 & (c3 & t3 & _ & _ & ->) & ->) _]| ->];
    destruct Hopt2 as [[(g2 & (ma & (ca & ta & _ & _ & ->) &
                               mb & (nb & _ & _ & _ & ->) &
                               (cc & tc & _ & _ & ->)) & ->) _]| ->];
    cbn; rewrite ?Nat.sub_0_r; eauto. }
  destruct Hcap3 as (a & b & Hcap3). rewrite Hcap3. cbn [update nth].
  destruct h as [|c0 t0]; [simpl in Hn1; lia|].
  destruct n1 as [|n1]; [lia|]. simpl in Hall1.
  apply andb_true_iff in Hall1 as [Hc0 _].
  replace (S (endIndex m3) + n5 + n4 - (S (endIndex m3) + n5)) with n4 by lia.
  destruct (skipn n5 t) as [|d u]; [simpl in Hn4; lia|].
  destruct n4 as [|n4]; [lia|].
  exists c0, t0. eexists. eexists. repeat split; eauto. simpl. discriminate.
Qed.

Lemma conventional_needs_type h :
  (forall c t, h = c :: t -> isWord c = false) ->
  stringMatch h conventionalCommitPattern = None.
Proof.
  intros Hh. destruct (stringMatch h conventionalCommitPattern) as [m|] eqn:Hm; auto.
  apply conventional_sound in Hm as (c & t & _ & _ & -> & Hc & _).
  rewrite (Hh c t eq_refl) in Hc. discriminate.
Qed.

End PatternFacts.

(** ** Commit messages *)

Section CommitFacts.

Import Commit.

Lemma split_nth_error sep s :
  nth_error (split sep s) 0 = Some (nth 0 (split sep s) []).
Proof.
  destruct s as [|c t]; simpl; auto.
  destruct (c =? sep)%N; simpl; auto.
  destruct (split sep t); reflexivity.
Qed.

(** The warnings of the type, subject and imperative-mood checks. *)
Lemma checkMatch_ok h m ws :
  stringMatch h conventionalCommitPattern = Some m ->
  exists ty subj,
    nth 1 m None = Some ty /\ nth 4 m None = Some subj /\ subj <> [] /\
    checkMatch m [] ws =
    Normal ([], ws ++
                (if arrayIncludes validTypes (Some ty) then [] else [typeWarning (Some ty)]) ++
                (if 50 <? List.length subj then [subjectLengthWarning] else []) ++
                (if test imperativePattern subj then [] else [imperativeWarning])).
Proof.
  intros Hm. apply conventional_sound in Hm as (_ & _ & ty & subj & _ & _ & Hty & Hsubj & Hne).
  exists ty, subj. repeat split; auto.
  unfold checkMatch. rewrite Hty, Hsubj. cbn [defined JS.bind].
  destruct subj as [|d u]; [contradiction|].
  change (List.length (d :: u) =? 0) with false. cbv iota.
  unfold push.
  destruct (arrayIncludes validTypes (Some ty)), (50 <? List.length (d :: u)),
    (test imperativePattern (d :: u)); cbn [negb app];
    rewrite <- ?app_assoc; cbn [app]; rewrite ?app_nil_r; reflexivity.
Qed.

(** A blank message stops at the first check. *)
Lemma validate_blank message :
  trim message = [] ->
  validateCommitMessage message =
  Normal {| valid := false; errors := [emptyMessageError]; warnings := [] |}.
Proof.
  intros H. unfold validateCommitMessage. rewrite H. simpl List.length.
  rewrite orb_true_r. reflexivity.
Qed.

Lemma body_check n : (0 <? n) && (1000 <? n) = (1000 <? n).
Proof.
  destruct (1000 <? n) eqn:H; [|apply andb_false_r].
  apply Nat.ltb_lt in H. rewrite andb_true_r. apply Nat.ltb_lt. lia.
Qed.

(** A message that is not blank goes through the length checks and the
    format check. *)
Lemma validate_not_blank message :
  trim message <> [] ->
  validateCommitMessage message =
  JS.bind
    (match stringMatch (headerOf message) conventionalCommitPattern with
     | None => Normal ([formatError],
                       if 72 <? List.length (headerOf message)
                       then [headerLengthWarning (List.length (headerOf message))] else [])
     | Some m => checkMatch m []
                   (if 72 <? List.length (headerOf message)
                    then [headerLengthWarning (List.length (headerOf message))] else [])
     end)
    (fun ew =>
       Normal {| valid := (List.length (fst ew) =? 0);
                 errors := fst ew;
                 warnings := snd ew ++
                   (if 1000 <? List.length (bodyOf message) then [bodyLengthWarning] else []) |}).
Proof.
  intros H. unfold validateCommitMessage.
  destruct message as [|c t]; [contradiction|].
  destruct (trim (c :: t)) as [|d u] eqn:Ht; [contradiction|]. rewrite <- Ht.
  replace (List.length (trim (c :: t)) =? 0) with false by (rewrite Ht; reflexivity).
  cbn [orb]. rewrite split_nth_error. cbn [defined JS.bind].
  fold (headerOf (c :: t)). fold (bodyOf (c :: t)). rewrite body_check.
  unfold push. cbn [app].
  destruct (stringMatch (headerOf (c :: t)) conventionalCommitPattern) as [m|];
    [destruct (checkMatch m _ _) as [[es ws]|e]|]; cbn [JS.bind fst snd];
    try reflexivity;
    destruct (1000 <? List.length (bodyOf (c :: t))); rewrite ?app_nil_r; reflexivity.
Qed.

End CommitFacts.

(** ** Concrete runs *)

Section Runs.

Import Commit.

Example run_scoped_feature :
  validateCommitMessage (str "feat(auth): add login functionality") =
  Normal {| valid := true; errors := []; warnings := [] |}.
Proof. vm_compute. reflexivity. Qed.

Example run_unknown_type :
  validateCommitMessage (str "foo: add x") =
  Normal {| valid := true; errors := [];
            warnings := [typeWarning (Some (str "foo"))] |}.
Proof. vm_compute. reflexivity. Qed.

Example run_breaking_match :
  stringMatch (str "feat(api)!: drop v1") conventionalCommitPattern =
  Some [ Some (str "feat(api)!: drop v1"); Some (str "feat");
         Some (str "(api)"); Some (str "!"); Some (str "drop v1") ].
Proof. vm_compute. reflexivity. Qed.

Example run_plain_match :
  stringMatch (str "fix: typo") conventionalCommitPattern =
  Some [ Some (str "fix: typo"); Some (str "fix"); None; None; Some (str "typo") ].
Proof. vm_compute. reflexivity. Qed.

Example run_body_is_kept_apart :
  headerOf (str "docs: update readme" ++ [LF; LF] ++ str "More words.") =
    str "docs: update readme" /\
  bodyOf (str "docs: update readme" ++ [LF; LF] ++ str "More words.") =
    [LF] ++ str "More words.".
Proof. split; vm_compute; reflexivity. Qed.

Example run_imperative_is_case_blind :
  test imperativePattern (str "Update docs") = true /\
  test imperativePattern (str "bump version") = false.
Proof. split; vm_compute; reflexivity. Qed.

End Runs.

(** ** What the commit validator returns *)

Section CommitClaims.

Import Commit.

Lemma blank_header message :
  trim message = [] -> headerOf message = [] /\ bodyOf message = [].
Proof.
  intros H. unfold headerOf, bodyOf. rewrite H. split; reflexivity.
Qed.

Lemma blank_lengthWarnings message :
  trim message = [] -> lengthWarnings message = [].
Proof.
  intros H. unfold lengthWarnings.
  destruct (@blank_header message H) as [-> ->]. reflexivity.
Qed.

(** The validator never throws: the result is one of three shapes. *)
Lemma validate_cases message :
  (trim message = [] /\
   validateCommitMessage message =
   Normal {| valid := false; errors := [emptyMessageError]; warnings := [] |}) \/
  (trim message <> [] /\
   stringMatch (headerOf message) conventionalCommitPattern = None /\
   validateCommitMessage message =
   Normal {| valid := false; errors := [formatError];
             warnings := lengthWarnings message |}) \/
  (trim message <> [] /\
   exists m ty subj,
     stringMatch (headerOf message) conventionalCommitPattern = Some m /\
     nth 1 m None = Some ty /\ nth 4 m None = Some subj /\ subj <> [] /\
     validateCommitMessage message =
     Normal {| valid := true; errors := [];
               warnings :=
                 ((if 72 <? List.length (headerOf message)
                   then [headerLengthWarning (List.length (headerOf message))] else []) ++
                  (if arrayIncludes validTypes (Some ty) then [] else [typeWarning (Some ty)]) ++
                  (if 50 <? List.length subj then [subjectLengthWarning] else []) ++
                  (if test imperativePattern subj then [] else [imperativeWarning])) ++
                 (if 1000 <? List.length (bodyOf message) then [bodyLengthWarning] else []) |}).
Proof.
  destruct (trim message) as [|d u] eqn:Ht.
  - left. split; auto. apply validate_blank; exact Ht.
  - right. assert (Hne : trim message <> []) by (rewrite Ht; discriminate).
    rewrite (@validate_not_blank message Hne).
    destruct (stringMatch (headerOf message) conventionalCommitPattern) as [m|] eqn:Hm.
    + right. split; [rewrite <- Ht; exact Hne|].
      destruct (@checkMatch_ok _ _ (if 72 <? List.length (headerOf message)
                  then [headerLengthWarning (List.length (headerOf message))] else []) Hm)
        as (ty & subj & Hty & Hsubj & Hs & Hck).
      exists m, ty, subj. rewrite Hck. repeat split; auto.
    + left. split; [rewrite <- Ht; exact Hne|]. split; reflexivity.
Qed.

(** C1, as the code behaves.  [validateCommitMessage("feat: added login")]
    is valid, but carries no warning at all: the imperative-mood pattern is
    anchored at the start of the subject only, so it accepts [added login]
    through its alternative [add], and the imperative-mood suggestion that
    the comment and the warning text promise for "added" is not produced. *)
Theorem added_login_has_no_warning :
  test imperativePattern (str "added login") = true /\
  validateCommitMessage (str "feat: added login") =
  Normal {| valid := true; errors := []; warnings := [] |}.
Proof.
  split; vm_compute; reflexivity.
Qed.

(** C2, the claim as stated fails: the header [: fix typo], which omits the
    type, does not match the pattern and yields the format error. *)
Lemma header_without_type_example :
  stringMatch (str ": fix typo") conventionalCommitPattern = None /\
  validateCommitMessage (str ": fix typo") =
  Normal {| valid := false; errors := [formatError]; warnings := [] |}.
Proof.
  split; vm_compute; reflexivity.
Qed.

(** C2, amended.  The leading type token is mandatory: when the header of a
    non-blank message does not begin with a word character, the header does
    not match the pattern and the result carries the format error. *)
Theorem header_without_type_rejected message :
  trim message <> [] ->
  (forall c t, headerOf message = c :: t -> isWord c = false) ->
  stringMatch (headerOf message) conventionalCommitPattern = None /\
  validateCommitMessage message =
  Normal {| valid := false; errors := [formatError];
            warnings := lengthWarnings message |}.
Proof.
  intros Hne Hhead. pose proof (@conventional_needs_type _ Hhead) as Hnone.
  split; [exact Hnone|].
  destruct (validate_cases message) as [[Hb _]|[(_ & _ & Hv)|(_ & m & ty & subj & Hm & _)]].
  - contradiction.
  - exact Hv.
  - rewrite Hnone in Hm. discriminate.
Qed.

Lemma header_without_type_rejected_witness :
  stringMatch (headerOf (str ": fix typo")) conventionalCommitPattern = None /\
  validateCommitMessage (str ": fix typo") =
  Normal {| valid := false; errors := [formatError];
            warnings := lengthWarnings (str ": fix typo") |}.
Proof.
  apply (@header_without_type_rejected (str ": fix typo")).
  - vm_compute. discriminate.
  - intros c t H. vm_compute in H. injection H as <- _. reflexivity.
Defined.

(** C3.  For a non-empty message whose header does not match the pattern,
    the result is invalid with exactly one error, and its warnings are those
    of the header-length and body-length checks alone. *)
Theorem unmatched_header_one_error message :
  message <> [] ->
  stringMatch (headerOf message) conventionalCommitPattern = None ->
  exists e,
    (e = emptyMessageError \/ e = formatError) /\
    validateCommitMessage message =
    Normal {| valid := false; errors := [e]; warnings := lengthWarnings message |}.
Proof.
  intros _ Hnone.
  destruct (validate_cases message) as [[Hb Hv]|[(_ & _ & Hv)|(_ & m & ty & subj & Hm & _)]].
  - exists emptyMessageError. rewrite (@blank_lengthWarnings _ Hb). auto.
  - exists formatError. auto.
  - rewrite Hnone in Hm. discriminate.
Qed.

Lemma unmatched_header_one_error_witness :
  exists e,
    (e = emptyMessageError \/ e = formatError) /\
    validateCommitMessage (str "fix typo") =
    Normal {| valid := false; errors := [e];
              warnings := lengthWarnings (str "fix typo") |}.
Proof.
  apply (@unmatched_header_one_error (str "fix typo")).
  - vm_compute. discriminate.
  - vm_compute. reflexivity.
Defined.

(** C6.  A message whose trimmed value is empty yields exactly
    [{valid: false, errors: ["Commit message cannot be empty"], warnings: []}]. *)
Theorem blank_message_rejected message :
  trim message = [] ->
  validateCommitMessage message =
  Normal {| valid := false;
            errors := [str "Commit message cannot be empty"];
            warnings := [] |}.
Proof.
  intros H. apply validate_blank. exact H.
Qed.

Lemma blank_message_rejected_witness :
  validateCommitMessage ([32; 10; 9; 32]%N) =
  Normal {| valid := false;
            errors := [str "Commit message cannot be empty"];
            warnings := [] |}.
Proof.
  apply (@blank_message_rejected ([32; 10; 9; 32]%N)). vm_compute. reflexivity.
Defined.

Lemma headerLengthWarning_text n :
  startsWith (str "Header should be 50 characters or less (currently ")
             (headerLengthWarning n) = true /\
  isHeaderLengthWarning (headerLengthWarning n) = true.
Proof. split; reflexivity. Qed.

(** None of the other warnings reads as a header-length warning. *)
Lemma other_warnings_not_header ty (b1 b2 b3 b4 : bool) :
  existsb isHeaderLengthWarning
    (((if b1 then [] else [typeWarning (Some ty)]) ++
      (if b2 then [subjectLengthWarning] else []) ++
      (if b3 then [] else [imperativeWarning])) ++
     (if b4 then [bodyLengthWarning] else [])) = false.
Proof.
  destruct b1, b2, b3, b4; reflexivity.
Qed.

Lemma header_check_iff n (ws : list jsstring) :
  existsb isHeaderLengthWarning ws = false ->
  (existsb isHeaderLengthWarning
     ((if 72 <? n then [headerLengthWarning n] else []) ++ ws) = true <-> 72 < n) /\
  (72 < n -> In (headerLengthWarning n) ((if 72 <? n then [headerLengthWarning n] else []) ++ ws)).
Proof.
  intros Hws. rewrite existsb_app, Hws, orb_false_r.
  destruct (72 <? n) eqn:Hn.
  - apply Nat.ltb_lt in Hn. split; [|intros _; left; reflexivity].
    split; [intros _; exact Hn|]. intros _. cbn [existsb].
    rewrite (proj2 (headerLengthWarning_text n)). reflexivity.
  - apply Nat.ltb_ge in Hn. split; [|lia]. simpl. split; [discriminate|lia].
Qed.

(** C7.  The result carries a header-length warning exactly when the header
    is longer than 72 code units; the warning is then
    [Header should be 50 characters or less (currently <length>)], whose text
    names 50, not 72. *)
Theorem header_length_warning_iff message :
  exists r,
    validateCommitMessage message = Normal r /\
    (existsb isHeaderLengthWarning (warnings r) = true <->
     72 < List.length (headerOf message)) /\
    (72 < List.length (headerOf message) ->
     In (headerLengthWarning (List.length (headerOf message))) (warnings r)) /\
    (forall n, startsWith (str "Header should be 50 characters or less (currently ")
                          (headerLengthWarning n) = true).
Proof.
  assert (Htext := fun n => proj1 (headerLengthWarning_text n)).
  destruct (validate_cases message)
    as [[Hb Hv]|[(_ & _ & Hv)|(_ & m & ty & subj & _ & _ & _ & _ & Hv)]];
    rewrite Hv; eexists; (split; [reflexivity|]); cbn [warnings].
  - destruct (@blank_header message Hb) as [-> _]. simpl.
    repeat split; auto; try discriminate; lia.
  - unfold lengthWarnings.
    destruct (@header_check_iff (List.length (headerOf message))
                (if 1000 <? List.length (bodyOf message) then [bodyLengthWarning] else []))
      as [H1 H2]; [destruct (1000 <? _); reflexivity|].
    repeat split; auto; apply H1.
  - rewrite <- !app_assoc.
    destruct (@header_check_iff (List.length (headerOf message))
                ((if arrayIncludes validTypes (Some ty) then [] else [typeWarning (Some ty)]) ++
                 (if 50 <? List.length subj then [subjectLengthWarning] else []) ++
                 (if test imperativePattern subj then [] else [imperativeWarning]) ++
                 (if 1000 <? List.length (bodyOf message) then [bodyLengthWarning] else [])))
      as [H1 H2].
    { pose proof (other_warnings_not_header ty (arrayIncludes validTypes (Some ty))
                    (50 <? List.length subj) (test imperativePattern subj)
                    (1000 <? List.length (bodyOf message))) as H.
      rewrite <- !app_assoc in H. exact H. }
    repeat split; auto; apply H1.
Qed.

(** C8.  In every result, [valid] is [errors.length === 0]; the warnings play
    no part in it. *)
Theorem valid_iff_no_errors message :
  exists r,
    validateCommitMessage message = Normal r /\
    valid r = (List.length (errors r) =? 0).
Proof.
  destruct (validate_cases message)
    as [[Hb Hv]|[(_ & _ & Hv)|(_ & m & ty & subj & _ & _ & _ & _ & Hv)]];
    rewrite Hv; eexists; split; reflexivity.
Qed.

(** C9.  Neither validator throws: every message has a result, and every
    branch name is either valid with no error text or invalid with the
    convention error. *)
Theorem validators_total :
  (forall message, exists r, validateCommitMessage message = Normal r) /\
  (forall name,
     Branch.validateBranchName name =
       {| Branch.valid := true; Branch.error := None |} \/
     Branch.validateBranchName name =
       {| Branch.valid := false; Branch.error := Some (Branch.conventionError name) |}).
Proof.
  split.
  - intros message.
    destruct (validate_cases message)
      as [[Hb Hv]|[(_ & _ & Hv)|(_ & m & ty & subj & _ & _ & _ & _ & Hv)]];
      rewrite Hv; eauto.
  - intros name. unfold Branch.validateBranchName.
    destruct (existsb _ Branch.patterns); cbn [negb]; auto.
Qed.

(** C10.  The errors of a result are none, the empty-message error alone or
    the format error alone, hence at most one, and never the empty-subject
    error: a header that matches the pattern binds a subject of at least one
    code unit. *)
Theorem at_most_one_error :
  (forall message, exists r,
     validateCommitMessage message = Normal r /\
     (errors r = [] \/ errors r = [emptyMessageError] \/ errors r = [formatError]) /\
     List.length (errors r) <= 1 /\
     ~ In emptySubjectError (errors r)) /\
  (forall header,
     match stringMatch header conventionalCommitPattern with
     | Some m => exists subject, nth 4 m None = Some subject /\ 1 <= List.length subject
     | None => True
     end).
Proof.
  split.
  - intros message.
    destruct (validate_cases message)
      as [[Hb Hv]|[(_ & _ & Hv)|(_ & m & ty & subj & _ & _ & _ & _ & Hv)]];
      rewrite Hv; eexists; (split; [reflexivity|]); cbn [errors];
      (split; [auto|split; [simpl; lia|]]).
    + intros [H|[]]. vm_compute in H. discriminate.
    + intros [H|[]]. vm_compute in H. discriminate.
    + intros [].
  - intros header.
    destruct (stringMatch header conventionalCommitPattern) as [m|] eqn:Hm; auto.
    apply conventional_sound in Hm as (_ & _ & _ & subj & _ & _ & _ & Hsubj & Hne).
    exists subj. split; auto. destruct subj; [contradiction|simpl; lia].
Qed.

End CommitClaims.

(** ** The integration branch *)

Section IntegrationBranch.

Import Git.

Variable World : Type.
Variable execSync : jsstring -> World -> Completion jsstring * World.

(** The ref of a remote branch without its prefix is the branch's name. *)
Lemma replace_origin_prefix branch :
  replace (str "refs/remotes/origin/") [] (str "refs/remotes/origin/" ++ branch) = branch.
Proof. reflexivity. Qed.

(** What [detectDefaultBranch] returns, from the queries it makes and the
    substring test it applies to the listing. *)
Lemma detectDefaultBranch_by_listing (w : World) :
  let '(symbolic, w1) := querySymbolicDefault execSync w in
  let '(listing, _) := queryRemoteBranches execSync w1 in
  fst (detectDefaultBranch execSync w) =
  Normal (integrationBranchPolicy false symbolic
            (listedOnRemote "main" listing) (listedOnRemote "master" listing)
            (listedOnRemote "develop" listing)).
Proof.
  unfold querySymbolicDefault, queryRemoteBranches, detectDefaultBranch,
    bindIO, tryCatch, ret.
  destruct (execSync symbolicRefCommand w) as [[out|e] w1];
    [destruct (truthy (trim out))|];
    (destruct (execSync fetchCommand w1) as [[o|e'] w2];
     [destruct (execSync branchCommand w2) as [[branches|e''] w3]|]);
    try reflexivity;
    cbn [listedOnRemote integrationBranchPolicy];
    change (str "origin/" ++ str "main") with (str "origin/main");
    change (str "origin/" ++ str "master") with (str "origin/master");
    change (str "origin/" ++ str "develop") with (str "origin/develop");
    destruct (includes (str "origin/main") branches),
      (includes (str "origin/master") branches),
      (includes (str "origin/develop") branches); reflexivity.
Qed.

(** [getIntegrationBranch] follows the order of the policy, with the
    substring test in the place of existence: [develop] when the first
    listing has [origin/develop] somewhere in it; otherwise the target of
    [origin/HEAD] when that query answers; otherwise [main], [master] or
    [develop], in this order, as a second listing has [origin/main],
    [origin/master] or [origin/develop] somewhere in it; and [main] when no
    query succeeds. *)
Lemma getIntegrationBranch_by_listing (w : World) :
  let '(listing1, w1) := queryRemoteBranches execSync w in
  let '(symbolic, w2) := querySymbolicDefault execSync w1 in
  let '(listing2, _) := queryRemoteBranches execSync w2 in
  fst (getIntegrationBranch execSync w) =
  Normal (integrationBranchPolicy (listedOnRemote "develop" listing1) symbolic
            (listedOnRemote "main" listing2) (listedOnRemote "master" listing2)
            (listedOnRemote "develop" listing2)).
Proof.
  assert (Hd := detectDefaultBranch_by_listing).
  unfold getIntegrationBranch, queryRemoteBranches at 1, bindIO, tryCatch, ret.
  destruct (execSync fetchCommand w) as [[o|e] w1].
  - destruct (execSync branchCommand w1) as [[branches|e] w2].
    + cbn [listedOnRemote].
      change (str "origin/" ++ str "develop") with (str "origin/develop").
      destruct (includes (str "origin/develop") branches) eqn:Hdev.
      * destruct (querySymbolicDefault execSync w2) as [symbolic w3].
        destruct (queryRemoteBranches execSync w3) as [listing2 w4].
        reflexivity.
      * specialize (Hd w2).
        destruct (querySymbolicDefault execSync w2) as [symbolic w3].
        destruct (queryRemoteBranches execSync w3) as [listing2 w4].
        destruct (detectDefaultBranch execSync w2) as [[b|e] w5];
          [exact Hd | simpl in Hd; discriminate].
    + specialize (Hd w2).
      destruct (querySymbolicDefault execSync w2) as [symbolic w3].
      destruct (queryRemoteBranches execSync w3) as [listing2 w4].
      exact Hd.
  - specialize (Hd w1).
    destruct (querySymbolicDefault execSync w1) as [symbolic w3].
    destruct (queryRemoteBranches execSync w3) as [listing2 w4].
    exact Hd.
Qed.

End IntegrationBranch.

Section IntegrationBranchRuns.

Import Git.

(** C5.  On a remote that has the branches [main] and [developer-docs] and
    no branch [develop], with [origin/HEAD] at [main], the policy gives
    [main]: [origin/develop] does not exist, and the symbolic default is
    [main].  [getIntegrationBranch] returns [develop]: it looks for the text
    [origin/develop] anywhere in the listing and finds it inside
    [origin/developer-docs]. *)
Theorem developer_docs_taken_for_develop :
  fst (getIntegrationBranch docsRemote tt) = Normal (str "develop") /\
  (let '(listing1, w1) := queryRemoteBranches docsRemote tt in
   let '(symbolic, w2) := querySymbolicDefault docsRemote w1 in
   let '(listing2, _) := queryRemoteBranches docsRemote w2 in
   existsOnRemote "develop" listing1 = false /\
   symbolic = Some (str "main") /\
   integrationBranchPolicy (existsOnRemote "develop" listing1) symbolic
     (existsOnRemote "main" listing2) (existsOnRemote "master" listing2)
     (existsOnRemote "develop" listing2) = str "main").
Proof. vm_compute. auto. Qed.

(** The same slip in the probe of [detectDefaultBranch]: on a remote with
    the branches [maintenance] and [master] and no [origin/HEAD], the policy
    gives [master], and the code returns [main], found inside
    [origin/maintenance]. *)
Example maintenance_taken_for_main :
  fst (getIntegrationBranch maintenanceRemote tt) = Normal (str "main") /\
  (let '(listing1, w1) := queryRemoteBranches maintenanceRemote tt in
   let '(symbolic, w2) := querySymbolicDefault maintenanceRemote w1 in
   let '(listing2, _) := queryRemoteBranches maintenanceRemote w2 in
   existsOnRemote "main" listing2 = false /\
   existsOnRemote "master" listing2 = true /\
   integrationBranchPolicy (existsOnRemote "develop" listing1) symbolic
     (existsOnRemote "main" listing2) (existsOnRemote "master" listing2)
     (existsOnRemote "develop" listing2) = str "master").
Proof. vm_compute. auto. Qed.

(** Where every listed branch is named in full, existence and the
    substring test agree, as on a remote with [develop] and [main]. *)
Example exists_on_plain_listing :
  let listing := Some (str "  origin/HEAD -> origin/main" ++ [LF] ++
                       str "  origin/develop" ++ [LF] ++ str "  origin/main" ++ [LF]) in
  existsOnRemote "develop" listing = true /\
  existsOnRemote "main" listing = true /\
  existsOnRemote "master" listing = false /\
  listedOnRemote "develop" listing = true /\
  listedOnRemote "master" listing = false.
Proof. vm_compute. auto 6. Qed.

End IntegrationBranchRuns.

(** * Further properties of the code *)

(** ** Single steps of the relation *)

Section StepFacts.

Lemma firstn_exact (A : Type) (a b : list A) : firstn (List.length a) (a ++ b) = a.
Proof.
  induction a as [|x a IH]; simpl; [destruct b; reflexivity|]. now rewrite IH.
Qed.

Lemma skipn_exact (A : Type) (a b : list A) : skipn (List.length a) (a ++ b) = b.
Proof.
  induction a as [|x a IH]; simpl; auto.
Qed.

(** The text a group captures is the text its body consumed. *)
Lemma capture_text (x y : State) pre :
  rest x = pre ++ rest y -> endIndex y = endIndex x + List.length pre ->
  firstn (endIndex y - endIndex x) (rest x) = pre.
Proof.
  intros Hr He. rewrite Hr, He.
  replace (endIndex x + List.length pre - endIndex x) with (List.length pre) by lia.
  apply firstn_exact.
Qed.

Lemma char_inv p x y :
  matches (CharSet p) x y ->
  exists c, p c = true /\ rest x = c :: rest y /\
            endIndex y = S (endIndex x) /\ captures y = captures x.
Proof.
  intros (c & t & Hr & Hc & ->). exists c. simpl. auto.
Qed.

Lemma plus_inv p x y :
  matches (Plus p) x y ->
  exists pre, pre <> [] /\ forallb p pre = true /\ rest x = pre ++ rest y /\
              endIndex y = endIndex x + List.length pre /\ captures y = captures x.
Proof.
  intros (n & Hpos & Hn & Hall & ->). exists (firstn n (rest x)). simpl.
  rewrite firstn_skipn, length_firstn. repeat split; auto; [|lia].
  destruct (rest x); [simpl in Hn; lia|]. destruct n; [lia|]. simpl. discriminate.
Qed.

Lemma step_char (p : codeunit -> bool) c tail i caps :
  p c = true ->
  matches (CharSet p) (mkState i (c :: tail) caps) (mkState (S i) tail caps).
Proof.
  intros Hc. exists c, tail. auto.
Qed.

Lemma step_plus (p : codeunit -> bool) pre tail i caps :
  pre <> [] -> forallb p pre = true ->
  matches (Plus p) (mkState i (pre ++ tail) caps)
                   (mkState (i + List.length pre) tail caps).
Proof.
  intros Hne Hall. exists (List.length pre). simpl.
  rewrite firstn_exact, length_app. repeat split; auto; try lia.
  - destruct pre; [contradiction|simpl; lia].
  - unfold advance. simpl. now rewrite skipn_exact.
Qed.

Lemma step_group k r i s caps j t caps' :
  matches r (mkState i s caps) (mkState j t caps') ->
  matches (Group k r) (mkState i s caps)
          (mkState j t (update k (Some (firstn (j - i) s)) caps')).
Proof.
  intros H. exists (mkState j t caps'). split; auto.
Qed.

End StepFacts.

(** ** The header pattern, part by part *)

Section ShapeFacts.

Import Commit Conventional.

Lemma isChar_eq a c : isChar a c = true -> c = cu a.
Proof. unfold isChar. apply N.eqb_eq. Qed.

Lemma opt_scope_inv x y :
  matches (Opt (Group 2 (Seq (CharSet (isChar "("))
                             (Seq (Plus (isNotChar ")")) (CharSet (isChar ")")))))) x y ->
  exists sc,
    match sc with
    | Some inner => inner <> [] /\ forallb (isNotChar ")") inner = true
    | None => True
    end /\
    rest x = scopeText sc ++ rest y /\
    endIndex y = endIndex x + List.length (scopeText sc) /\
    captures y = match sc with
                 | Some _ => update 2 (Some (scopeText sc)) (captures x)
                 | None => captures x
                 end.
Proof.
  cbn [matches].
  intros [[(g & (a & Hopen & b & Hin & Hclose) & ->) _]| ->].
  - apply char_inv in Hopen as (c1 & Hc1 & Hr1 & He1 & Hcap1).
    apply plus_inv in Hin as (inner & Hne & Hall & Hr2 & He2 & Hcap2).
    apply char_inv in Hclose as (c2 & Hc2 & Hr3 & He3 & Hcap3).
    apply isChar_eq in Hc1, Hc2. subst c1 c2.
    exists (Some inner).
    assert (Hr : rest x = scopeText (Some inner) ++ rest g).
    { rewrite Hr1, Hr2, Hr3. simpl. rewrite <- app_assoc. reflexivity. }
    assert (He : endIndex g = endIndex x + List.length (scopeText (Some inner))).
    { rewrite He3, He2, He1. simpl. rewrite length_app. simpl. lia. }
    cbn [capture rest endIndex captures]. repeat split; auto.
    rewrite (@capture_text x g _ Hr He), Hcap3, Hcap2, Hcap1. reflexivity.
  - exists None. simpl. repeat split; auto.
Qed.

Lemma opt_breaking_inv x y :
  matches (Opt (Group 3 (CharSet (isChar "!")))) x y ->
  exists b : bool,
    rest x = breakingText b ++ rest y /\
    endIndex y = endIndex x + List.length (breakingText b) /\
    captures y = if b then update 3 (Some [cu "!"]) (captures x) else captures x.
Proof.
  cbn [matches].
  intros [[(g & Hbang & ->) _]| ->].
  - apply char_inv in Hbang as (c & Hc & Hr & He & Hcap).
    apply isChar_eq in Hc. subst c. exists true.
    assert (Hr' : rest x = breakingText true ++ rest g) by (rewrite Hr; reflexivity).
    assert (He' : endIndex g = endIndex x + List.length (breakingText true))
      by (rewrite He; simpl; lia).
    cbn [capture rest endIndex captures]. repeat split; auto.
    rewrite (@capture_text x g _ Hr' He'), Hcap. reflexivity.
  - exists false. simpl. repeat split; auto.
Qed.

Lemma conventional_parts h m :
  stringMatch h conventionalCommitPattern = Some m ->
  exists p, wellFormed p = true /\ h = render p /\ m = matchArray p.
Proof.
  unfold stringMatch, exec, conventionalCommitPattern. cbn [seq].
  match goal with |- execFrom _ ?n _ _ = _ -> _ => change n with 4 end.
  intros H. apply exec_anchored_sound in H as (y & Hy & ->).
  cbn [repeat] in Hy.
  destruct Hy as (m1 & (g1 & Hty & ->) & m2 & Hopt2 & m3 & Hopt3 &
                  m4 & Hcolon & m5 & Hsp & m6 & (g4 & Hsubj & ->) & Hend & ->).
  apply plus_inv in Hty as (ty & Hty0 & Hty1 & Hr1 & He1 & Hc1).
  apply opt_scope_inv in Hopt2 as (sc & Hsc & Hr2 & He2 & Hc2).
  apply opt_breaking_inv in Hopt3 as (b & Hr3 & He3 & Hc3).
  apply char_inv in Hcolon as (c & Hc & Hr4 & He4 & Hc4).
  apply plus_inv in Hsp as (sp & Hsp0 & Hsp1 & Hr5 & He5 & Hc5).
  apply plus_inv in Hsubj as (subj & Hsubj0 & Hsubj1 & Hr6 & He6 & Hc6).
  apply isChar_eq in Hc. subst c.
  cbn [capture rest endIndex captures] in *.
  rewrite Hend, app_nil_r in Hr6.
  exists (mkParts ty sc b sp subj).
  assert (Hh : h = render (mkParts ty sc b sp subj)).
  { unfold render. cbn [type scope breaking spaces subject].
    rewrite Hr1, Hr2, Hr3, Hr4, Hr5, Hr6. reflexivity. }
  split; [|split; [exact Hh|]].
  - unfold wellFormed. cbn [type scope breaking spaces subject].
    rewrite Hty1, Hsp1, Hsubj1.
    destruct ty; [contradiction|]. destruct sp; [contradiction|].
    destruct subj; [contradiction|].
    destruct sc as [inner|]; [destruct Hsc as [Hi0 Hi1]; rewrite Hi1;
                              destruct inner; [contradiction|]|]; reflexivity.
  - assert (A1 : firstn (endIndex g1 - 0) h = ty).
    { rewrite Nat.sub_0_r, He1. simpl. rewrite Hr1. apply firstn_exact. }
    assert (A2 : firstn (endIndex g4 - endIndex m5) (rest m5) = subj).
    { rewrite He6, Hr6.
      replace (endIndex m5 + List.length subj - endIndex m5) with (List.length subj) by lia.
      apply firstn_all. }
    assert (A3 : firstn (endIndex g4) h = h).
    { apply firstn_all2. rewrite Hh at 1. unfold render.
      cbn [type scope breaking spaces subject]. rewrite !length_app. simpl List.length.
      lia. }
    rewrite A2, A3, Hc6, Hc5, Hc4, Hc3, Hc2, A1, Hc1. unfold matchArray.
    cbn [type scope breaking spaces subject]. rewrite <- Hh.
    destruct sc, b; reflexivity.
Qed.


Lemma opt_scope_intro sc tail i caps :
  match sc with
  | Some inner => inner <> [] /\ forallb (isNotChar ")") inner = true
  | None => True
  end ->
  exists caps',
    matches (Opt (Group 2 (Seq (CharSet (isChar "("))
                               (Seq (Plus (isNotChar ")")) (CharSet (isChar ")"))))))
            (mkState i (scopeText sc ++ tail) caps)
            (mkState (i + List.length (scopeText sc)) tail caps').
Proof.
  destruct sc as [inner|]; intros Hsc.
  - destruct Hsc as [Hne Hall]. eexists. left. split; [|simpl; lia].
    replace (i + List.length (scopeText (Some inner)))
      with (S (S i + List.length inner))
      by (simpl; rewrite length_app; simpl; lia).
    replace (scopeText (Some inner) ++ tail)
      with (cu "(" :: inner ++ cu ")" :: tail)
      by (simpl; rewrite <- app_assoc; reflexivity).
    apply step_group.
    exists (mkState (S i) (inner ++ cu ")" :: tail) caps). split.
    + apply step_char. reflexivity.
    + exists (mkState (S i + List.length inner) (cu ")" :: tail) caps). split.
      * apply step_plus; auto.
      * apply step_char. reflexivity.
  - exists caps. right. simpl. now rewrite Nat.add_0_r.
Qed.

Lemma opt_breaking_intro (b : bool) tail i caps :
  exists caps',
    matches (Opt (Group 3 (CharSet (isChar "!"))))
            (mkState i (breakingText b ++ tail) caps)
            (mkState (i + List.length (breakingText b)) tail caps').
Proof.
  destruct b.
  - eexists. left. split; [|simpl; lia].
    replace (i + List.length (breakingText true)) with (S i) by (simpl; lia).
    apply step_group. apply step_char. reflexivity.
  - exists caps. right. simpl. now rewrite Nat.add_0_r.
Qed.

Lemma wellFormed_inv p :
  wellFormed p = true ->
  type p <> [] /\ forallb isWord (type p) = true /\
  match scope p with
  | Some inner => inner <> [] /\ forallb (isNotChar ")") inner = true
  | None => True
  end /\
  spaces p <> [] /\ forallb isSpace (spaces p) = true /\
  subject p <> [] /\ forallb isDot (subject p) = true.
Proof.
  unfold wellFormed. rewrite !andb_true_iff.
  intros ((((((H1 & H2) & H3) & H4) & H5) & H6) & H7).
  assert (Hne : forall s, nonEmpty s = true -> s <> [])
    by (intros [|? ?]; simpl; congruence).
  repeat split; auto.
  destruct (scope p) as [inner|]; auto.
  apply andb_true_iff in H3 as [Ha Hb]. auto.
Qed.

Lemma conventional_accepts p :
  wellFormed p = true ->
  stringMatch (render p) conventionalCommitPattern <> None.
Proof.
  intros Hwf. apply wellFormed_inv in Hwf as (Hty0 & Hty1 & Hsc & Hsp0 & Hsp1 & Hsu0 & Hsu1).
  unfold stringMatch, exec, conventionalCommitPattern. cbn [seq].
  match goal with |- execFrom _ ?n _ _ <> _ => change n with 4 end.
  unfold render.
  set (caps0 := repeat (@None jsstring) 5).
  set (t1 := scopeText (scope p) ++ breakingText (breaking p) ++ [cu ":"] ++ spaces p ++ subject p).
  set (t2 := breakingText (breaking p) ++ [cu ":"] ++ spaces p ++ subject p).
  destruct (@opt_scope_intro (scope p) t2 (0 + List.length (type p))
              (update 1 (Some (firstn (0 + List.length (type p) - 0) (type p ++ t1))) caps0) Hsc)
    as (caps2 & Hopt2).
  destruct (opt_breaking_intro (breaking p) ([cu ":"] ++ spaces p ++ subject p)
              (0 + List.length (type p) + List.length (scopeText (scope p))) caps2)
    as (caps3 & Hopt3).
  eapply exec_anchored_complete.
  eexists. split; [apply step_group; apply step_plus; eassumption|].
  eexists. split; [exact Hopt2|].
  eexists. split; [exact Hopt3|].
  eexists. split; [apply step_char; reflexivity|].
  eexists. split; [apply step_plus; eassumption|].
  eexists. split.
  - apply step_group. rewrite <- (app_nil_r (subject p)) at 1.
    apply step_plus; eassumption.
  - simpl. auto.
Qed.

End ShapeFacts.

(** ** Greedy repetition *)

Section GreedyFacts.

Import Commit Conventional.

(** The greedy repetition hands over at the longest run its continuation
    accepts. *)
Lemma star_greedy p s : forall i caps (k : Continuation) z,
  star p i s caps k = Some z ->
  exists n, n <= List.length s /\ forallb p (firstn n s) = true /\
            k (mkState (i + n) (skipn n s) caps) = Some z /\
            forall n', n < n' -> n' <= List.length s ->
                       forallb p (firstn n' s) = true ->
                       k (mkState (i + n') (skipn n' s) caps) = None.
Proof.
  induction s as [|c t IH]; intros i caps k z H; simpl in H.
  - exists 0. rewrite Nat.add_0_r. simpl. repeat split; auto. intros; lia.
  - destruct (p c) eqn:Hc.
    + destruct (star p (S i) t caps k) eqn:Hs.
      * injection H as <-. apply IH in Hs as (n & Hn & Hall & Hk & Hmax).
        exists (S n). simpl. rewrite Hc, Hall, Nat.add_succ_r.
        repeat split; auto; [lia|].
        intros [|n'] Hlt Hle Hp; [lia|]. simpl in Hp, Hle.
        rewrite Hc in Hp. simpl in Hp. rewrite Nat.add_succ_r. simpl.
        apply Hmax; auto; lia.
      * exists 0. rewrite Nat.add_0_r. simpl. repeat split; auto; [lia|].
        intros [|n'] Hlt Hle Hp; [lia|]. simpl in Hp, Hle.
        rewrite Hc in Hp. simpl in Hp. rewrite Nat.add_succ_r. simpl.
        destruct (k (mkState (S (i + n')) (skipn n' t) caps)) eqn:Hk; auto.
        exfalso. apply (@star_complete p t (S i) caps k n'); auto; [lia|].
        simpl. rewrite Hk. discriminate.
    + exists 0. rewrite Nat.add_0_r. simpl. repeat split; auto; [lia|].
      intros [|n'] Hlt Hle Hp; [lia|]. simpl in Hp. rewrite Hc in Hp. discriminate.
Qed.

Lemma matches_captures_length r : forall x y,
  matches r x y -> List.length (captures y) = List.length (captures x).
Proof.
  induction r as [|p|r1 IH1 r2 IH2|r1 IH1 r2 IH2|r1 IH1|p|i r1 IH1| |];
    intros x y H; simpl in H.
  - now subst.
  - destruct H as (c & t & _ & _ & ->). reflexivity.
  - destruct H as (m & H1 & H2). rewrite (IH2 _ _ H2). eauto.
  - destruct H as [H|H]; eauto.
  - destruct H as [[H _]| ->]; eauto.
  - destruct H as (n & _ & _ & _ & ->). reflexivity.
  - destruct H as (m & H & ->). simpl. rewrite update_length. eauto.
  - destruct H as [_ ->]. reflexivity.
  - destruct H as [_ ->]. reflexivity.
Qed.

Lemma nth_update_same (A : Type) i (v d : A) l :
  i < List.length l -> nth i (update i v l) d = v.
Proof.
  revert i; induction l as [|a l IH]; intros [|i] H; simpl in *; try lia; auto.
  apply IH. lia.
Qed.

Lemma nth_update_other (A : Type) i j (v d : A) l :
  i <> j -> nth i (update j v l) d = nth i l d.
Proof.
  revert i j; induction l as [|a l IH]; intros [|i] [|j] H; simpl; auto; try lia.
Qed.

Lemma matcher_seq r1 r2 x k :
  matcher (Seq r1 r2) x k = matcher r1 x (fun y => matcher r2 y k).
Proof. reflexivity. Qed.

Lemma exec_anchored_matcher r n s m :
  execFrom (Seq AssertStart r) n 0 s = Some m ->
  exists z, matcher r (mkState 0 s (repeat None (S n))) Some = Some z /\
            m = update 0 (Some (firstn (endIndex z) s)) (captures z).
Proof.
  intros H.
  destruct s as [|c t]; simpl in H;
    destruct (matcher r _ Some) as [y|] eqn:Hy.
  - injection H as <-. rewrite Nat.sub_0_r. eauto.
  - discriminate.
  - injection H as <-. rewrite Nat.sub_0_r. eauto.
  - rewrite execFrom_anchored in H. discriminate.
Qed.

Lemma subject_tail_sound x z :
  matcher (Seq (Group 4 (Plus isDot)) AssertEnd) x Some = Some z ->
  rest x <> [] /\ forallb isDot (rest x) = true /\
  captures z = update 4 (Some (rest x)) (captures x).
Proof.
  intros H. apply matcher_sound in H as (y & Hy & Heq). injection Heq as ->.
  destruct Hy as (m & (g & Hplus & ->) & Hend & ->).
  apply plus_inv in Hplus as (subj & Hne & Hall & Hr & He & Hc).
  cbn [capture rest endIndex captures] in *.
  rewrite Hend, app_nil_r in Hr.
  rewrite (@capture_text x g subj) by (rewrite ?Hend, ?app_nil_r; auto).
  rewrite Hr, Hc. auto.
Qed.

Lemma subject_tail_complete x :
  rest x <> [] -> forallb isDot (rest x) = true ->
  matcher (Seq (Group 4 (Plus isDot)) AssertEnd) x Some <> None.
Proof.
  intros Hne Hall. destruct x as [i s caps]. simpl in Hne, Hall.
  eapply matcher_complete; [|discriminate].
  eexists. split.
  - apply step_group. rewrite <- (app_nil_r s) at 1. apply step_plus; eassumption.
  - simpl. auto.
Qed.

Lemma skipn_cons_step (A : Type) n : forall (l : list A) c t,
  skipn n l = c :: t ->
  firstn (S n) l = firstn n l ++ [c] /\ skipn (S n) l = t /\ S n <= List.length l.
Proof.
  induction n as [|n IH]; intros [|a l] c t H; simpl in H; try discriminate.
  - injection H as -> ->. simpl. repeat split; auto. lia.
  - destruct (IH l c t H) as (H1 & H2 & H3).
    change (firstn (S (S n)) (a :: l)) with (a :: firstn (S n) l).
    change (skipn (S (S n)) (a :: l)) with (skipn (S n) l).
    rewrite H1. simpl List.length. repeat split; auto. lia.
Qed.

(** The subject is what follows the white space after the colon, taken as
    long as it can be: a subject of two or more code units does not begin
    with white space. *)
Lemma subject_is_stripped h m :
  stringMatch h conventionalCommitPattern = Some m ->
  exists subj, nth 4 m None = Some subj /\
    forall c t, subj = c :: t -> isSpace c = true -> t = [].
Proof.
  unfold stringMatch, exec, conventionalCommitPattern. cbn [seq].
  match goal with |- execFrom _ ?n _ _ = _ -> _ => change n with 4 end.
  intros H. apply exec_anchored_matcher in H as (z & Hz & ->).
  cbn [repeat] in Hz.
  rewrite matcher_seq in Hz. apply matcher_sound in Hz as (y1 & Hy1 & Hz).
  rewrite matcher_seq in Hz. apply matcher_sound in Hz as (y2 & Hy2 & Hz).
  rewrite matcher_seq in Hz. apply matcher_sound in Hz as (y3 & Hy3 & Hz).
  rewrite matcher_seq in Hz. apply matcher_sound in Hz as (y4 & Hy4 & Hz).
  rewrite matcher_seq in Hz.
  pose proof (@matches_captures_length _ _ _ Hy1) as L1.
  pose proof (@matches_captures_length _ _ _ Hy2) as L2.
  pose proof (@matches_captures_length _ _ _ Hy3) as L3.
  pose proof (@matches_captures_length _ _ _ Hy4) as L4.
  simpl in L1.
  assert (L : List.length (captures y4) = 5) by congruence.
  clear Hy1 Hy2 Hy3 Hy4 L1 L2 L3 L4.
  set (K := fun y => matcher (Seq (Group 4 (Plus isDot)) AssertEnd) y Some) in Hz.
  cbn [matcher] in Hz.
  destruct (rest y4) as [|c4 t4] eqn:Hr4; [discriminate|].
  destruct (isSpace c4) eqn:Hc4; [|discriminate].
  apply star_greedy in Hz as (n & Hn & Hall & Hk & Hmax).
  unfold K in Hk, Hmax.
  apply subject_tail_sound in Hk as (Hne & Hdot & Hcap).
  cbn [rest captures] in Hne, Hdot, Hcap.
  exists (skipn n t4). split.
  - rewrite Hcap, nth_update_other by lia.
    apply nth_update_same. lia.
  - intros c t Hs Hc. destruct t as [|d u]; auto. exfalso.
    destruct (@skipn_cons_step _ n t4 _ _ Hs) as (Hf & Hsk & Hlen).
    apply (@subject_tail_complete
             (mkState (S (endIndex y4) + S n) (skipn (S n) t4) (captures y4))).
    + cbn [rest]. rewrite Hsk. discriminate.
    + cbn [rest]. rewrite Hsk. rewrite Hs in Hdot. simpl in Hdot.
      apply andb_true_iff in Hdot as [_ Hdot]. exact Hdot.
    + apply Hmax; auto. rewrite Hf, forallb_app, Hall. simpl. now rewrite Hc.
Qed.


End GreedyFacts.

(** ** Trimming and splitting *)

Section TrimFacts.

Import Commit Conventional.

Lemma trimStart_spaces pre s :
  forallb isSpace pre = true -> trimStart (pre ++ s) = trimStart s.
Proof.
  induction pre as [|c pre IH]; simpl; auto.
  intros H. apply andb_true_iff in H as [Hc H]. rewrite Hc. auto.
Qed.

Lemma trimStart_keep l c r :
  isSpace c = false -> trimStart (l ++ c :: r) = trimStart l ++ c :: r.
Proof.
  intros Hc. induction l as [|d l IH]; simpl.
  - now rewrite Hc.
  - destruct (isSpace d); auto.
Qed.

Lemma trimStart_head s :
  match trimStart s with [] => True | c :: _ => isSpace c = false end.
Proof.
  induction s as [|c s IH]; simpl; auto.
  destruct (isSpace c) eqn:Hc; auto.
Qed.

Lemma trimStart_nil s : trimStart s = [] <-> forallb isSpace s = true.
Proof.
  induction s as [|c s IH]; simpl; [tauto|].
  destruct (isSpace c); simpl; [exact IH|]. split; discriminate.
Qed.

Lemma trimStart_suffix s : exists sp, forallb isSpace sp = true /\ s = sp ++ trimStart s.
Proof.
  induction s as [|c s (sp & Hsp & IH)]; simpl.
  - exists []. auto.
  - destruct (isSpace c) eqn:Hc.
    + exists (c :: sp). simpl. rewrite Hc, Hsp. split; auto. now rewrite <- IH.
    + exists []. auto.
Qed.

Lemma forallb_rev (A : Type) (p : A -> bool) l : forallb p (rev l) = forallb p l.
Proof.
  induction l as [|a l IH]; simpl; auto.
  rewrite forallb_app, IH. simpl. rewrite andb_true_r. apply andb_comm.
Qed.

Lemma trimEnd_spaces s post :
  forallb isSpace post = true -> trimEnd (s ++ post) = trimEnd s.
Proof.
  intros H. unfold trimEnd. rewrite rev_app_distr, trimStart_spaces; auto.
  now rewrite forallb_rev.
Qed.

Lemma trimEnd_keep c r : isSpace c = false -> trimEnd (c :: r) = c :: trimEnd r.
Proof.
  intros Hc. unfold trimEnd. simpl rev. rewrite trimStart_keep by exact Hc.
  rewrite rev_app_distr. reflexivity.
Qed.

(** The trimmed text is empty or begins with a code unit that is not white
    space. *)
Lemma trim_head s :
  trim s = [] \/ exists c t, trim s = c :: t /\ isSpace c = false.
Proof.
  unfold trim. pose proof (trimStart_head s) as H.
  destruct (trimStart s) as [|c r]; [left; reflexivity|].
  right. exists c, (trimEnd r). split; auto. apply trimEnd_keep; exact H.
Qed.

Lemma trim_spaces pre s post :
  forallb isSpace pre = true -> forallb isSpace post = true ->
  trim (pre ++ s ++ post) = trim s.
Proof.
  intros Hpre Hpost. unfold trim. rewrite trimStart_spaces by exact Hpre.
  destruct (trimStart_suffix s) as (sp & Hsp & Hs).
  pose proof (trimStart_head s) as Hhead.
  destruct (trimStart s) as [|c r] eqn:Ht.
  - rewrite app_nil_r in Hs. subst sp.
    rewrite trimStart_spaces by exact Hsp.
    apply trimStart_nil in Hpost. rewrite Hpost. reflexivity.
  - rewrite Hs at 1. rewrite <- app_assoc, trimStart_spaces by exact Hsp.
    simpl. rewrite Hhead. change (c :: r ++ post) with ((c :: r) ++ post).
    apply trimEnd_spaces; exact Hpost.
Qed.

Lemma validate_by_trim m1 m2 :
  trim m1 = trim m2 -> validateCommitMessage m1 = validateCommitMessage m2.
Proof.
  intros H. destruct (trim m1) as [|c t] eqn:H1.
  - rewrite (@validate_blank m1 H1), (@validate_blank m2 (eq_sym H)). reflexivity.
  - assert (N1 : trim m1 <> []) by (rewrite H1; discriminate).
    assert (N2 : trim m2 <> []) by (rewrite <- H; discriminate).
    rewrite (@validate_not_blank m1 N1), (@validate_not_blank m2 N2).
    unfold headerOf, bodyOf. rewrite H1, <- H. reflexivity.
Qed.

(** X5.  White space and line breaks around a message never change the
    result. *)
Theorem surrounding_space_ignored pre message post :
  forallb isSpace pre = true -> forallb isSpace post = true ->
  validateCommitMessage (pre ++ message ++ post) = validateCommitMessage message.
Proof.
  intros Hpre Hpost. apply validate_by_trim. apply trim_spaces; assumption.
Qed.

Lemma surrounding_space_ignored_witness :
  validateCommitMessage ([32; 9]%N ++ str "feat: add x" ++ [32; 10]%N) =
  validateCommitMessage (str "feat: add x").
Proof.
  apply (@surrounding_space_ignored [32; 9]%N (str "feat: add x") [32; 10]%N);
    reflexivity.
Defined.

Lemma join_split sep s : join [sep] (split sep s) = s.
Proof.
  induction s as [|c t IH]; simpl; auto.
  destruct (c =? sep)%N eqn:Hc.
  - apply N.eqb_eq in Hc. subst c.
    destruct (split sep t) as [|l ls] eqn:Hs; simpl in *; [now subst|].
    now rewrite IH.
  - destruct (split sep t) as [|l ls] eqn:Hs; simpl in *; [now subst|].
    destruct ls; simpl in *; now rewrite <- IH.
Qed.

Lemma split_head_clean sep s : ~ In sep (nth 0 (split sep s) []).
Proof.
  induction s as [|c t IH]; simpl; auto.
  destruct (c =? sep)%N eqn:Hc; simpl; auto.
  destruct (split sep t) as [|l ls]; simpl in *.
  - intros [H|[]]. subst. rewrite N.eqb_refl in Hc. discriminate.
  - intros [H|H]; auto. subst. rewrite N.eqb_refl in Hc. discriminate.
Qed.

(** X6.  The header holds no line feed; the trimmed message is the header
    alone when it has no line feed, and otherwise the header, a line feed and
    the body; the header of a message that is not blank begins with a code
    unit that is not white space. *)
Theorem header_body_partition message :
  ~ In LF (headerOf message) /\
  (In LF (trim message) -> trim message = headerOf message ++ [LF] ++ bodyOf message) /\
  (~ In LF (trim message) -> trim message = headerOf message /\ bodyOf message = []) /\
  (trim message <> [] ->
   exists c t, headerOf message = c :: t /\ isSpace c = false).
Proof.
  unfold headerOf, bodyOf, slice1.
  pose proof (join_split LF (trim message)) as Hj.
  pose proof (@split_head_clean LF (trim message)) as Hc.
  destruct (split LF (trim message)) as [|h ls] eqn:Hs; simpl in *.
  - pose proof (split_nth_error LF (trim message)) as Hn.
    rewrite Hs in Hn. discriminate.
  - split; [exact Hc|]. destruct ls as [|l ls'].
    + subst h. repeat split; auto; try contradiction.
      intros Hne. destruct (trim_head message) as [H|(c & t & H & Hsp)];
        [contradiction|eauto].
    + change (join [LF] (l :: ls')) with (join [LF] (l :: ls')) in *.
      assert (Hj' : trim message = h ++ [LF] ++ join [LF] (l :: ls')) by (symmetry; exact Hj).
      split; [intros _; exact Hj'|]. split.
      * intros Hno. exfalso. apply Hno. rewrite Hj'. apply in_or_app. right. left. reflexivity.
      * intros Hne. destruct (trim_head message) as [H|(c & t & H & Hsp)];
          [contradiction|].
        rewrite Hj' in H. destruct h as [|d h'].
        -- simpl in H. injection H as <- _. discriminate.
        -- simpl in H. injection H as -> _. eauto.
Qed.

End TrimFacts.

(** ** Accepted headers *)

Section HeaderClaims.

Import Commit Conventional.

(** X1.  The header pattern accepts exactly the headers made of a type of
    word characters, an optional scope in parentheses that holds no closing
    parenthesis, an optional [!], a colon, white space and a subject free of
    line terminators, each of at least one code unit; the match array of an
    accepted header holds the header, the type, the scope with its
    parentheses, the [!] and the subject. *)
Theorem conventional_header_shape header :
  match stringMatch header conventionalCommitPattern with
  | Some m => exists p, wellFormed p = true /\ header = render p /\ m = matchArray p
  | None => forall p, wellFormed p = true -> header <> render p
  end.
Proof.
  destruct (stringMatch header conventionalCommitPattern) as [m|] eqn:Hm.
  - apply conventional_parts. exact Hm.
  - intros p Hwf ->. apply (@conventional_accepts p Hwf). exact Hm.
Qed.

(** X2.  A message is valid exactly when it is not blank and its header has
    the conventional shape: the type allow-list, the lengths, the mood and
    the body decide warnings only. *)
Theorem valid_iff_conventional_header message :
  exists r,
    validateCommitMessage message = Normal r /\
    (valid r = true <->
     trim message <> [] /\
     exists p, wellFormed p = true /\ headerOf message = render p).
Proof.
  destruct (validate_cases message)
    as [[Hb Hv]|[(Hne & Hnone & Hv)|(Hne & m & ty & subj & Hm & _ & _ & _ & Hv)]];
    rewrite Hv; eexists; (split; [reflexivity|]); cbn [valid].
  - split; [discriminate|]. intros [H _]. contradiction.
  - split; [discriminate|].
    intros [_ (p & Hwf & Hp)]. exfalso.
    apply (@conventional_accepts p Hwf). rewrite <- Hp. exact Hnone.
  - apply conventional_parts in Hm as (p & Hwf & Hp & _).
    split; auto. intros _. split; eauto.
Qed.

Lemma render_last p pre c :
  wellFormed p = true -> render p = pre ++ [c] -> isDot c = true.
Proof.
  intros Hwf Hr. apply wellFormed_inv in Hwf as (_ & _ & _ & _ & _ & Hs0 & Hs1).
  destruct (@exists_last _ _ Hs0) as (s' & d & Hs). unfold render in Hr.
  rewrite Hs in Hr, Hs1. rewrite !app_assoc in Hr.
  apply app_inj_tail in Hr as [_ ->].
  rewrite forallb_app in Hs1. apply andb_true_iff in Hs1 as [_ Hd].
  simpl in Hd. now rewrite andb_true_r in Hd.
Qed.

(** X7.  A header that ends in a line terminator, such as the carriage
    return a CRLF line ending leaves on the first line when a body follows,
    is rejected with the format error. *)
Theorem line_terminator_ends_header_rejected message pre c :
  headerOf message = pre ++ [c] -> isLineTerminator c = true ->
  validateCommitMessage message =
  Normal {| valid := false; errors := [formatError];
            warnings := lengthWarnings message |}.
Proof.
  intros Hh Hc.
  destruct (validate_cases message)
    as [[Hb Hv]|[(Hne & Hnone & Hv)|(Hne & m & ty & subj & Hm & _)]].
  - destruct (@blank_header message Hb) as [H _]. rewrite H in Hh.
    destruct pre; discriminate.
  - exact Hv.
  - apply conventional_parts in Hm as (p & Hwf & Hp & _).
    rewrite Hp in Hh. pose proof (@render_last p pre c Hwf Hh) as Hd.
    unfold isDot in Hd. rewrite Hc in Hd. discriminate.
Qed.

Lemma line_terminator_ends_header_rejected_witness :
  validateCommitMessage (str "feat: add x" ++ [13; 10]%N ++ str "body") =
  Normal {| valid := false; errors := [formatError];
            warnings := lengthWarnings (str "feat: add x" ++ [13; 10]%N ++ str "body") |}.
Proof.
  apply (@line_terminator_ends_header_rejected
           (str "feat: add x" ++ [13; 10]%N ++ str "body") (str "feat: add x") 13%N);
    vm_compute; reflexivity.
Defined.

(** X3.  The subject of an accepted header is the text after the colon with
    its leading white space taken away, as far as that leaves one code unit:
    a subject of two or more code units never begins with white space. *)
Theorem subject_leading_space_stripped header :
  match stringMatch header conventionalCommitPattern with
  | Some m =>
      exists p, wellFormed p = true /\ header = render p /\ m = matchArray p /\
                forall c t, subject p = c :: t -> isSpace c = true -> t = []
  | None => True
  end.
Proof.
  destruct (stringMatch header conventionalCommitPattern) as [m|] eqn:Hm; auto.
  destruct (@subject_is_stripped header m Hm) as (subj & Hsubj & Hstrip).
  apply conventional_parts in Hm as (p & Hwf & Hp & ->).
  exists p. repeat split; auto.
  simpl in Hsubj. injection Hsubj as <-. exact Hstrip.
Qed.

(** A literal under the [i] flag can be matched exactly when the input ahead
    begins with its letters, in either case. *)
Lemma litI_exists s : forall x,
  (exists y, matches (litI s) x y) <-> startsWithIgnoreCase (str s) (rest x) = true.
Proof.
  unfold litI. induction s as [|a s IH]; intros x.
  - simpl. split; eauto.
  - split.
    + intros (y & Hy). apply literalOf_cons in Hy.
      destruct Hy as (m & (c & t & Hr & Hc & ->) & Hm).
      rewrite Hr. change (str (String a s)) with (N_of_ascii a :: str s).
      cbn [startsWithIgnoreCase]. unfold isIgnoreCase, cu in Hc. rewrite Hc.
      apply (IH (mkState (S (endIndex x)) t (captures x))). eauto.
    + change (str (String a s)) with (N_of_ascii a :: str s).
      destruct (rest x) as [|c t] eqn:Hr; cbn [startsWithIgnoreCase]; [discriminate|].
      intros H. apply andb_true_iff in H as [Hc Ht].
      destruct (proj2 (IH (mkState (S (endIndex x)) t (captures x))) Ht) as (y & Hy).
      exists y. apply literalOf_cons.
      exists (mkState (S (endIndex x)) t (captures x)). split; auto.
      exists c, t. repeat split; auto.
Qed.

(** X4.  The imperative-mood check is a prefix test: a subject passes
    exactly when it begins with one of the ten verbs, in any mix of upper and
    lower case, whatever follows the verb. *)
Theorem imperative_check_is_prefix_test subject :
  test imperativePattern subject =
  existsb (fun verb => startsWithIgnoreCase (str verb) subject) imperativeVerbs.
Proof.
  apply eq_true_iff_eq. rewrite test_true.
  unfold exec, imperativePattern, imperativeVerbs. cbn [seq alt existsb].
  match goal with |- context [execFrom _ ?n _ _] =>
    pose (x0 := mkState 0 subject (repeat (@None jsstring) (S n))) end.
  assert (Hlit : forall s, (exists y, matches (litI s) x0 y) <->
                           startsWithIgnoreCase (str s) subject = true)
    by (intros s; apply (litI_exists s x0)).
  rewrite !orb_true_iff. rewrite <- !Hlit. split.
  - intros H. destruct (execFrom _ _ 0 subject) as [m|] eqn:He; [|contradiction].
    apply exec_anchored_sound in He as (y & (m' & Hy & _) & _). fold x0 in Hy.
    cbn [matches] in Hy.
    repeat (destruct Hy as [Hy|Hy]; [eauto 12|]); eauto 12.
  - intros H. 
    assert (Hm : exists m, matches
      (Alt (litI "add") (Alt (litI "update") (Alt (litI "fix") (Alt (litI "remove")
        (Alt (litI "create") (Alt (litI "delete") (Alt (litI "implement")
          (Alt (litI "refactor") (Alt (litI "improve") (litI "change")))))))))) x0 m).
    { cbn [matches].
      repeat (destruct H as [(y & Hy)|H]; [exists y; tauto|]).
      discriminate. }
    destruct Hm as (m & Hm).
    apply exec_anchored_complete with (y := capture 1 x0 m).
    exists m. split; auto.
Qed.

End HeaderClaims.

(** ** Accepted branch names *)

Section BranchNameFacts.

Import Commit Conventional.

Lemma valid_convention name :
  Branch.valid (Branch.validateBranchName name) = true <-> Branch.followsConvention name.
Proof.
  rewrite valid_existsb. unfold Branch.patterns, Branch.followsConvention.
  cbn [existsb]. rewrite !orb_true_iff, !test_prefixed, !test_exact.
  split.
  - intros [H|[H|[H|[H|[H|[H|H]]]]]]; try discriminate; auto;
      destruct H as (slug & Hs & ->); left; exists slug; auto 6.
  - intros [(slug & Hs & [H|[H|[H|H]]])|[H|H]]; eauto 10.
Qed.

Lemma slug_branch_chars slug :
  Branch.isSlug slug = true -> forallb isBranchChar slug = true.
Proof.
  intros H. apply isSlug_spec in H as [_ H].
  rewrite forallb_forall in *. intros c Hc. unfold isBranchChar.
  rewrite (H c Hc). reflexivity.
Qed.

(** X8.  A branch name the validator accepts is made of lowercase letters,
    digits, hyphens and slashes only, and begins with a lowercase letter. *)
Theorem valid_branch_name_is_shell_safe name :
  Branch.valid (Branch.validateBranchName name) = true ->
  forallb isBranchChar name = true /\
  exists c t, name = c :: t /\ between (cu "a") (cu "z") c = true.
Proof.
  intros H. apply valid_convention in H.
  destruct H as [(slug & Hs & [H|[H|[H|H]]])|[H|H]]; subst name;
    try (split; [reflexivity|eexists; eexists; split; reflexivity]);
    (split; [rewrite forallb_app, (@slug_branch_chars slug Hs); reflexivity
            |eexists; eexists; split; reflexivity]).
Qed.

Lemma valid_branch_name_is_shell_safe_witness :
  forallb isBranchChar (str "feature/add-logging") = true /\
  exists c t, str "feature/add-logging" = c :: t /\ between (cu "a") (cu "z") c = true.
Proof.
  apply (@valid_branch_name_is_shell_safe (str "feature/add-logging")). reflexivity.
Defined.

End BranchNameFacts.

(** ** Branches in the listings *)

Section RepositoryFacts.

Import Repository.

Lemma startsWith_spec p : forall s, startsWith p s = true <-> exists b, s = p ++ b.
Proof.
  induction p as [|c p IH]; intros s; simpl.
  - split; eauto.
  - destruct s as [|d s]; [split; [discriminate|intros (b & H); discriminate]|].
    rewrite andb_true_iff, N.eqb_eq, IH. split.
    + intros [-> (b & ->)]. eauto.
    + intros (b & H). injection H as -> ->. eauto.
Qed.

Lemma includes_spec p : forall s, includes p s = true <-> occursIn p s.
Proof.
  unfold occursIn. induction s as [|c t IH].
  - simpl. rewrite orb_false_r, startsWith_spec. split.
    + intros (b & H). exists [], b. exact H.
    + intros (a & b & H). destruct a; [eauto|discriminate].
  - change (includes p (c :: t)) with (startsWith p (c :: t) || includes p t).
    rewrite orb_true_iff, startsWith_spec, IH. split.
    + intros [(b & H)|(a & b & H)].
      * exists [], b. exact H.
      * exists (c :: a), b. rewrite H. reflexivity.
    + intros (a & b & H). destruct a as [|d a].
      * left. eauto.
      * right. injection H as -> ->. eauto.
Qed.

Variable World : Type.
Variable execSync : jsstring -> World -> Completion jsstring * World.

(** X9.  [branchExists] never throws.  When both listings answer, a branch
    counts as local when its name occurs anywhere in the local listing, and
    as remote when [origin/<name>] occurs anywhere in the remote listing, so
    that part of the name of another branch is enough; when a listing fails,
    the branch counts as absent on both sides. *)
Theorem branchExists_is_substring_test (branchName : jsstring) (w : World) :
  match execSync (str "git branch --list") w with
  | (Normal localBranches, w1) =>
      match execSync (str "git branch -r --list") w1 with
      | (Normal remoteBranches, w2) =>
          exists r,
            branchExists execSync branchName w = (Normal r, w2) /\
            (local r = true <-> occursIn branchName localBranches) /\
            (remote r = true <-> occursIn (str "origin/" ++ branchName) remoteBranches)
      | (Throw _, w2) =>
          branchExists execSync branchName w =
          (Normal {| local := false; remote := false |}, w2)
      end
  | (Throw _, w1) =>
      branchExists execSync branchName w =
      (Normal {| local := false; remote := false |}, w1)
  end.
Proof.
  unfold branchExists, Git.tryCatch, Git.bindIO, Git.ret.
  destruct (execSync (str "git branch --list") w) as [[l1|e] w1]; [|reflexivity].
  destruct (execSync (str "git branch -r --list") w1) as [[l2|e] w2]; [|reflexivity].
  eexists. split; [reflexivity|]. simpl. split; apply includes_spec.
Qed.

End RepositoryFacts.

(** ** The commit-format check of the status command *)

Section LogLineFacts.

Import Status Conventional.

Lemma split_trailing sep s :
  exists init, init <> [] /\ split sep (s ++ [sep]) = init ++ [[]].
Proof.
  induction s as [|c t (init & Hne & IH)]; simpl.
  - rewrite N.eqb_refl. exists [[]]. split; [discriminate|reflexivity].
  - rewrite IH. destruct (c =? sep)%N.
    + exists ([] :: init). split; [discriminate|reflexivity].
    + destruct init as [|l init']; [contradiction|].
      exists ((c :: l) :: init'). split; [discriminate|reflexivity].
Qed.

Lemma invalidCommits_trailing commits : invalidCommits (commits ++ [LF]) <> [].
Proof.
  unfold invalidCommits.
  destruct (split_trailing LF commits) as (init & _ & ->).
  rewrite filter_app. simpl filter.
  replace (stringMatch [] logLinePattern) with (@None (list (option jsstring)))
    by (vm_compute; reflexivity).
  intros H. apply app_eq_nil in H as [_ H]. discriminate.
Qed.

Ltac charclass :=
  unfold isSpace, isWhiteSpace, isLineTerminator, isHexLower, isWord, isDot,
    isChar, isNotChar, between, cu in *;
  cbn [N_of_ascii N_of_digits] in *;
  repeat rewrite ?orb_true_iff, ?andb_true_iff, ?negb_true_iff, ?N.eqb_eq, ?N.leb_le in *;
  repeat rewrite ?orb_false_iff, ?andb_false_iff, ?negb_false_iff, ?N.eqb_neq, ?N.leb_gt in *;
  lia.

Lemma hex_not_space c : isHexLower c = true -> isSpace c = false.
Proof. intros H. charclass. Qed.

Lemma word_not_space c : isWord c = true -> isSpace c = false.
Proof. intros H. charclass. Qed.

(** Two ways of cutting a text after a run of one class, each followed by a
    code unit outside the class, are the same. *)
Lemma span_unique (P : codeunit -> bool) : forall a b x y,
  forallb P a = true -> forallb P b = true ->
  match x with [] => True | c :: _ => P c = false end ->
  match y with [] => True | c :: _ => P c = false end ->
  a ++ x = b ++ y -> a = b /\ x = y.
Proof.
  induction a as [|c a IH]; intros [|d b] x y Ha Hb Hx Hy H; simpl in *.
  - auto.
  - subst x. apply andb_true_iff in Hb as [Hd _]. congruence.
  - subst y. apply andb_true_iff in Ha as [Hc _]. congruence.
  - injection H as -> H. apply andb_true_iff in Ha as [_ Ha].
    apply andb_true_iff in Hb as [_ Hb].
    destruct (IH b x y Ha Hb Hx Hy H) as [-> ->]. auto.
Qed.

Lemma scopeText_head sc tail c :
  isWord c = false ->
  match scopeText sc ++ c :: tail with [] => True | d :: _ => isWord d = false end.
Proof.
  intros Hc. destruct sc; simpl; auto.
Qed.

Lemma log_line_accepts hash p :
  hash <> [] -> forallb isHexLower hash = true -> wellFormed p = true ->
  breaking p = false ->
  stringMatch (hash ++ [cu " "] ++ render p) logLinePattern <> None.
Proof.
  intros Hh0 Hh1 Hwf Hb.
  apply wellFormed_inv in Hwf as (Hty0 & Hty1 & Hsc & Hsp0 & Hsp1 & _ & _).
  unfold stringMatch, RegExp.exec, logLinePattern. cbn [seq].
  match goal with |- execFrom _ ?n _ _ <> _ => change n with 2 end.
  unfold render. rewrite Hb. cbn [breakingText app].
  set (caps0 := repeat (@None jsstring) 3).
  set (t3 := cu ":" :: spaces p ++ subject p).
  set (t2 := scopeText (scope p) ++ t3).
  set (i2 := 0 + List.length hash + 1).
  destruct (@opt_scope_intro (scope p) t3 (i2 + List.length (type p))
              (update 1 (Some (firstn (i2 + List.length (type p) - i2) (type p ++ t2))) caps0) Hsc)
    as (caps2 & Hopt2).
  eapply exec_anchored_complete.
  eexists. split; [apply step_plus; eassumption|].
  eexists. split; [apply (@step_plus isSpace [cu " "]); [discriminate|reflexivity]|].
  eexists. split; [apply step_group; apply step_plus; eassumption|].
  eexists. split; [exact Hopt2|].
  eexists. split; [apply step_char; reflexivity|].
  apply step_plus; eassumption.
Qed.

Lemma log_line_rejects_breaking hash p :
  hash <> [] -> forallb isHexLower hash = true -> wellFormed p = true ->
  breaking p = true ->
  stringMatch (hash ++ [cu " "] ++ render p) logLinePattern = None.
Proof.
  intros Hh0 Hh1 Hwf Hb.
  apply wellFormed_inv in Hwf as (Hty0 & Hty1 & Hsc & Hsp0 & Hsp1 & _ & _).
  destruct (stringMatch _ logLinePattern) as [m|] eqn:Hm; auto. exfalso.
  unfold stringMatch, RegExp.exec, logLinePattern in Hm. cbn [seq] in Hm.
  apply exec_anchored_sound in Hm as (y & Hy & _).
  destruct Hy as (m1 & Hhex & m2 & Hsp & m3 & (g1 & Hty & ->) & m4 & Hopt & m5 & Hcolon & _).
  apply plus_inv in Hhex as (hx & Hhx0 & Hhx1 & Hr1 & _).
  apply plus_inv in Hsp as (sp & Hs0 & Hs1 & Hr2 & _).
  apply plus_inv in Hty as (ty & Ht0 & Ht1 & Hr3 & _).
  apply opt_scope_inv in Hopt as (sc & Hsc' & Hr4 & _).
  apply char_inv in Hcolon as (c & Hc & Hr5 & _).
  apply isChar_eq in Hc. subst c.
  cbn [rest capture] in *. unfold render in Hr1. rewrite Hb in Hr1.
  rewrite Hr2, Hr3, Hr4, Hr5 in Hr1. clear Hr2 Hr3 Hr4 Hr5.
  (* the hash *)
  destruct sp as [|s0 sp]; [contradiction|]. simpl in Hs1.
  apply andb_true_iff in Hs1 as [Hs0' Hs1].
  apply (@span_unique isHexLower) in Hr1 as [<- Hr1]; auto;
    [|simpl; destruct (isHexLower (cu " ")) eqn:E; [discriminate E|reflexivity]
     |simpl; destruct (isHexLower s0) eqn:E; auto;
      apply hex_not_space in E; congruence].
  (* the white space *)
  destruct ty as [|t0 ty]; [contradiction|]. simpl in Ht1.
  apply andb_true_iff in Ht1 as [Ht0' Ht1].
  destruct (type p) as [|u0 ty'] eqn:Etype; [contradiction|]. simpl in Hty1.
  apply andb_true_iff in Hty1 as [Hu0 Hty1].
  change (cu " " :: (u0 :: ty') ++ ?r) with ([cu " "] ++ (u0 :: ty') ++ r) in Hr1.
  change ((s0 :: sp) ++ ?r) with ((s0 :: sp) ++ r) in Hr1.
  apply (@span_unique isSpace) in Hr1 as [_ Hr1];
    [| reflexivity | simpl; now rewrite Hs0', Hs1
     | simpl; apply word_not_space; exact Hu0
     | simpl; apply word_not_space; exact Ht0'].
  (* the type *)
  apply (@span_unique isWord) in Hr1 as [_ Hr1];
    [| simpl; now rewrite Hu0, Hty1 | simpl; now rewrite Ht0', Ht1
     | apply scopeText_head; reflexivity
     | apply scopeText_head; reflexivity ].
  (* the scope, then [!] against [:] *)
  destruct (scope p) as [inner|], sc as [inner'|]; simpl in Hr1; try discriminate.
  injection Hr1 as Hr1. destruct Hsc as [_ Hi], Hsc' as [_ Hi'].
  rewrite <- !app_assoc in Hr1. cbn [app] in Hr1.
  apply (@span_unique (isNotChar ")")) in Hr1 as [_ Hr1]; auto; try reflexivity.
  discriminate.
Qed.

(** X13.  The commit-format check of [checkPRReadiness] and the commit
    validator disagree on the breaking-change mark: for a log line made of a
    hash, a space and a header the validator accepts, the line is flagged
    exactly when the header carries [!]. *)
Theorem log_check_flags_breaking hash p :
  hash <> [] -> forallb isHexLower hash = true -> wellFormed p = true ->
  match stringMatch (hash ++ [cu " "] ++ render p) logLinePattern with
  | Some _ => false
  | None => true
  end = breaking p.
Proof.
  intros Hh0 Hh1 Hwf. destruct (breaking p) eqn:Hb.
  - now rewrite log_line_rejects_breaking.
  - pose proof (@log_line_accepts hash p Hh0 Hh1 Hwf Hb) as H.
    destruct (stringMatch _ logLinePattern); [reflexivity|contradiction].
Qed.

Lemma log_check_flags_breaking_witness :
  match stringMatch (str "abc1234" ++ [cu " "] ++ str "feat!: drop v1") logLinePattern with
  | Some _ => false
  | None => true
  end = true.
Proof.
  apply (@log_check_flags_breaking (str "abc1234")
           (mkParts (str "feat") None true (str " ") (str "drop v1")));
    [vm_compute; discriminate | reflexivity | reflexivity].
Defined.

End LogLineFacts.

(** ** Readiness for a pull request *)

Section ReadinessFacts.

Import Status Conventional.

Variable World : Type.
Variable execSync : jsstring -> World -> Completion jsstring * World.

Ltac run_git :=
  repeat match goal with
         | |- context [execSync ?c ?w] =>
             destruct (execSync c w) as [[?|?] ?]; cbn
         end.

Lemma checkTracking_advisory b : advisory (checkTracking execSync b).
Proof.
  intros [w st].
  unfold checkTracking, Git.tryCatch, Git.bindIO, exec, when, pushInfo, pushWarning,
    modify, Git.ret. cbn.
  run_git; eauto.
  match goal with |- context [strictEq ?a ?b] => destruct (strictEq a b) end; cbn; eauto.
Qed.

Lemma checkCommits_advisory : advisory (checkCommits execSync).
Proof.
  intros [w st].
  unfold checkCommits, Git.tryCatch, Git.bindIO, exec, when, pushInfo, pushWarning,
    modify, Git.ret. cbn.
  run_git; eauto;
    repeat match goal with
           | |- context [if ?b then _ else _] => destruct b; cbn
           end; eauto.
Qed.

Lemma checkRebase_advisory : advisory (checkRebase execSync).
Proof.
  intros [w st].
  unfold checkRebase, Git.tryCatch, Git.bindIO, exec, when, pushInfo, pushWarning,
    modify, Git.ret. cbn.
  run_git; eauto.
  match goal with |- context [strictEq ?a ?b] => destruct (strictEq a b) end; cbn; eauto.
Qed.

Lemma advisory_seq (c1 c2 : Git.IO (Store World) unit) :
  advisory c1 -> advisory c2 -> advisory (Git.bindIO c1 (fun _ => c2)).
Proof.
  intros H1 H2 s. unfold Git.bindIO.
  destruct (H1 s) as (s1 & -> & R1 & I1).
  destruct (H2 s1) as (s2 & -> & R2 & I2).
  exists s2. repeat split; congruence.
Qed.


Lemma advisory_tail b s :
  exists s',
    Git.bindIO (checkTracking execSync b)
      (fun _ => Git.bindIO (checkCommits execSync) (fun _ => checkRebase execSync)) s =
    (Normal tt, s') /\
    readyForPR (snd s') = readyForPR (snd s) /\
    issues (snd s') = issues (snd s).
Proof.
  apply (@advisory_seq _ _ (checkTracking_advisory b)
           (@advisory_seq _ _ checkCommits_advisory checkRebase_advisory)).
Qed.

Lemma bind_run (A B : Type) (c : Git.IO (Store World) A) (k : A -> Git.IO (Store World) B) s :
  Git.bindIO c k s =
  match c s with
  | (Normal a, s') => k a s'
  | (Throw e, s') => (Throw e, s')
  end.
Proof. reflexivity. Qed.

Lemma exec_run cmd (w : World) (st : WorkflowStatus) :
  exec execSync cmd (w, st) =
  match execSync cmd w with (r, w') => (r, (w', st)) end.
Proof. reflexivity. Qed.

Lemma checkBranch_outcome (w : World) (st : WorkflowStatus) :
  match execSync (str "git rev-parse --abbrev-ref HEAD") w with
  | (Throw e, w1) =>
      checkBranch execSync (w, st) =
      (Normal tt, (w1, {| readyForPR := false;
                          issues := issues st ++ [statusErrorIssue e];
                          warnings := warnings st; info := info st |}))
  | (Normal out, w1) =>
      match execSync (str "git status --porcelain") w1 with
      | (Throw e, w2) =>
          exists st',
            checkBranch execSync (w, st) = (Normal tt, (w2, st')) /\
            readyForPR st' = false /\
            issues st' = issues st ++ [statusErrorIssue e]
      | (Normal statusOutput, w2) =>
          exists s',
            checkBranch execSync (w, st) = (Normal tt, s') /\
            issues (snd s') =
              issues st ++
              (if 0 <? List.length (trim statusOutput) then [uncommittedIssue] else []) /\
            readyForPR (snd s') =
              (if 0 <? List.length (trim statusOutput) then false else readyForPR st)
      end
  end.
Proof.
  destruct (execSync (str "git rev-parse --abbrev-ref HEAD") w) as [[out|e] w1] eqn:E1.
  - assert (Hw : forall b c, exists st1,
               when (World:=World) b (pushWarning c) (w1,
                 {| readyForPR := readyForPR st; issues := issues st;
                    warnings := warnings st;
                    info := info st ++ [currentBranchInfo (trim out)] |}) =
               (Normal tt, (w1, st1)) /\
               readyForPR st1 = readyForPR st /\ issues st1 = issues st)
      by (intros b c; unfold when, pushWarning, modify, Git.ret; destruct b; cbn; eauto).
    destruct (execSync (str "git status --porcelain") w1) as [[statusOutput|e] w2] eqn:E2.
    + unfold checkBranch, tryCatchError.
      rewrite bind_run, exec_run, E1. cbv beta iota.
      rewrite bind_run. unfold pushInfo at 1, modify at 1. cbn [fst snd]. cbv beta iota.
      rewrite bind_run.
      match goal with |- context [when ?b (pushWarning ?c) _] =>
        destruct (Hw b c) as (st1 & -> & R1 & I1) end.
      cbv beta iota. rewrite bind_run, exec_run, E2. cbv beta iota.
      rewrite bind_run.
      match goal with |- context [when ?b ?c ?s] =>
        assert (Hu : exists st2, when b c s = (Normal tt, (w2, st2)) /\
                 readyForPR st2 = (if b then false else readyForPR st1) /\
                 issues st2 = issues st1 ++ (if b then [uncommittedIssue] else []))
          by (unfold when, Git.bindIO, pushIssue, setNotReady, modify, Git.ret;
              destruct b; cbn; rewrite ?app_nil_r; eauto)
      end.
      destruct Hu as (st2 & -> & R2 & I2). cbv beta iota.
      destruct (advisory_tail (trim out) (w2, st2)) as (s' & -> & R & I).
      exists s'. cbn [snd] in R, I. rewrite R, I, R2, I2, R1, I1. auto.
    + unfold checkBranch, tryCatchError.
      rewrite bind_run, exec_run, E1. cbv beta iota.
      rewrite bind_run. unfold pushInfo at 1, modify at 1. cbn [fst snd]. cbv beta iota.
      rewrite bind_run.
      match goal with |- context [when ?b (pushWarning ?c) _] =>
        destruct (Hw b c) as (st1 & -> & R1 & I1) end.
      cbv beta iota. rewrite bind_run, exec_run, E2. cbv beta iota.
      unfold Git.bindIO, pushIssue, setNotReady, modify. cbn.
      eexists. split; [reflexivity|]. cbn. rewrite I1. auto.
  - unfold checkBranch, tryCatchError.
    rewrite bind_run, exec_run, E1. reflexivity.
Qed.


Lemma checkPRReadiness_run (w : World) :
  checkPRReadiness execSync w =
  match execSync (str "git rev-parse --git-dir") w with
  | (Throw _, w0) =>
      (Normal {| readyForPR := false; issues := [notARepositoryIssue];
                 warnings := []; info := [] |}, w0)
  | (Normal _, w0) =>
      match checkBranch execSync (w0, initialStatus) with
      | (Normal _, (w', st)) =>
          (Normal (if 0 <? List.length (issues st)
                   then {| readyForPR := false; issues := issues st;
                           warnings := warnings st; info := info st |}
                   else st), w')
      | (Throw e, (w', _)) => (Throw e, w')
      end
  end.
Proof.
  unfold checkPRReadiness. rewrite bind_run. unfold Git.tryCatch at 1.
  rewrite bind_run, exec_run.
  destruct (execSync (str "git rev-parse --git-dir") w) as [[o|e] w0]; [|reflexivity].
  cbv beta iota. unfold Git.ret at 1. cbv beta iota. cbn [negb].
  rewrite bind_run.
  destruct (checkBranch execSync (w0, initialStatus)) as [[[]|e] [w' st]]; [|reflexivity].
  unfold when, setNotReady, modify, Git.ret. cbn [fst snd].
  destruct (0 <? List.length (issues st)); reflexivity.
Qed.

(** [checkPRReadiness] returns a status whose flag says whether there is
    an issue. *)
Lemma checkPRReadiness_result (w : World) :
  exists st w',
    checkPRReadiness execSync w = (Normal st, w') /\
    readyForPR st = (List.length (issues st) =? 0).
Proof.
  rewrite checkPRReadiness_run.
  destruct (execSync (str "git rev-parse --git-dir") w) as [[o|e] w0];
    [|eexists; eexists; split; reflexivity].
  pose proof (checkBranch_outcome w0 initialStatus) as H.
  destruct (execSync (str "git rev-parse --abbrev-ref HEAD") w0) as [[out|e] w1].
  - destruct (execSync (str "git status --porcelain") w1) as [[statusOutput|e] w2].
    + destruct H as ([w' st] & -> & I & R). cbn [snd] in I, R.
      eexists; eexists; split; [reflexivity|]. cbn [issues initialStatus app] in *.
      destruct (0 <? List.length (trim statusOutput));
        rewrite I in *; cbn; rewrite ?I; cbn; auto.
    + destruct H as (st & -> & R & I). cbn in I. rewrite I. cbn.
      eexists; eexists; split; [reflexivity|]. cbn. auto.
  - rewrite H. cbn. eexists; eexists; split; [reflexivity|]. cbn. auto.
Qed.

(** X10.  What [checkPRReadiness] decides: outside a repository the one
    issue is [Not in a Git repository] and nothing else is recorded; when the
    current branch or the working-tree status cannot be read, the one issue
    is the error; otherwise the branch is ready exactly when the porcelain
    status is blank, and the one possible issue is the uncommitted changes.
    Tracking, commit-format and rebase findings never block. *)
Theorem readiness_verdict (w : World) :
  match execSync (str "git rev-parse --git-dir") w with
  | (Throw _, w0) =>
      checkPRReadiness execSync w =
      (Normal {| readyForPR := false; issues := [notARepositoryIssue];
                 warnings := []; info := [] |}, w0)
  | (Normal _, w0) =>
      match execSync (str "git rev-parse --abbrev-ref HEAD") w0 with
      | (Throw e, w1) =>
          checkPRReadiness execSync w =
          (Normal {| readyForPR := false; issues := [statusErrorIssue e];
                     warnings := []; info := [] |}, w1)
      | (Normal _, w1) =>
          match execSync (str "git status --porcelain") w1 with
          | (Throw e, w2) =>
              exists st,
                checkPRReadiness execSync w = (Normal st, w2) /\
                readyForPR st = false /\ issues st = [statusErrorIssue e]
          | (Normal statusOutput, _) =>
              exists st w',
                checkPRReadiness execSync w = (Normal st, w') /\
                readyForPR st = (List.length (trim statusOutput) =? 0) /\
                issues st = (if List.length (trim statusOutput) =? 0
                             then [] else [uncommittedIssue])
          end
      end
  end.
Proof.
  rewrite checkPRReadiness_run.
  destruct (execSync (str "git rev-parse --git-dir") w) as [[o|e] w0]; [|reflexivity].
  pose proof (checkBranch_outcome w0 initialStatus) as H.
  destruct (execSync (str "git rev-parse --abbrev-ref HEAD") w0) as [[out|e] w1].
  - destruct (execSync (str "git status --porcelain") w1) as [[statusOutput|e] w2].
    + destruct H as ([w' st] & -> & I & R). cbn [snd] in I, R.
      exists (if 0 <? List.length (issues st)
              then {| readyForPR := false; issues := issues st;
                      warnings := warnings st; info := info st |}
              else st), w'.
      split; [reflexivity|]. rewrite I. cbn [issues initialStatus app] in *.
      destruct (trim statusOutput) as [|c t]; cbn in *; rewrite ?I; cbn; auto.
    + destruct H as (st & -> & R & I). cbn in I. rewrite I. cbn.
      eexists. split; [reflexivity|]. auto.
  - rewrite H. reflexivity.
Qed.

(** X11.  [checkPRReadiness] never throws; in its result [readyForPR] holds
    exactly when there is no issue, and there is at most one issue. *)
Theorem readiness_invariant (w : World) :
  exists st w',
    checkPRReadiness execSync w = (Normal st, w') /\
    readyForPR st = (List.length (issues st) =? 0) /\
    List.length (issues st) <= 1.
Proof.
  rewrite checkPRReadiness_run.
  destruct (execSync (str "git rev-parse --git-dir") w) as [[o|e] w0];
    [|eexists; eexists; split; [reflexivity|cbn; auto]].
  pose proof (checkBranch_outcome w0 initialStatus) as H.
  destruct (execSync (str "git rev-parse --abbrev-ref HEAD") w0) as [[out|e] w1].
  - destruct (execSync (str "git status --porcelain") w1) as [[statusOutput|e] w2].
    + destruct H as ([w' st] & -> & I & R). cbn [snd] in I, R.
      eexists; eexists; split; [reflexivity|]. cbn [issues initialStatus app] in *.
      destruct (0 <? List.length (trim statusOutput));
        rewrite I in *; cbn; rewrite ?I; cbn; auto.
    + destruct H as (st & -> & R & I). cbn in I. rewrite I. cbn.
      eexists; eexists; split; [reflexivity|]. cbn. auto.
  - rewrite H. cbn. eexists; eexists; split; [reflexivity|]. cbn. auto.
Qed.


(** X12.  [git log --oneline] ends its output with a line feed, and the
    format check splits the output as it is: the empty last line never
    matches, so whenever there are commits ahead of develop the commit-format
    warning is recorded, whatever the commits look like. *)
Theorem format_warning_on_trailing_newline (w w' : World) (st : WorkflowStatus) commits :
  execSync (str "git log origin/develop..HEAD --oneline --no-merges") w =
    (Normal (commits ++ [LF]), w') ->
  trim (commits ++ [LF]) <> [] ->
  checkCommits execSync (w, st) =
  (Normal tt,
   (w', {| readyForPR := readyForPR st;
           issues := issues st;
           warnings := warnings st ++ [formatWarning];
           info := info st ++
                   [aheadInfo (List.length (split LF (trim (commits ++ [LF])))) "develop"] |})).
Proof.
  intros Hlog Hne. unfold checkCommits, Git.tryCatch.
  rewrite bind_run, exec_run, Hlog. cbv beta iota.
  destruct (trim (commits ++ [LF])) as [|c t] eqn:Ht; [contradiction|].
  change (List.length (c :: t) =? 0) with false. cbv iota.
  rewrite bind_run. unfold pushInfo at 1, modify at 1. cbv beta iota. cbn [fst snd].
  pose proof (invalidCommits_trailing commits) as Hinv.
  destruct (invalidCommits (commits ++ [LF])) as [|l ls]; [contradiction|].
  reflexivity.
Qed.


End ReadinessFacts.

Section ReadinessRuns.

Import Status.

Lemma format_warning_on_trailing_newline_witness :
  checkCommits (fun _ (_ : unit) => (Normal (str "abc1234 feat: add login" ++ [LF]), tt))
               (tt, initialStatus) =
  (Normal tt,
   (tt, {| readyForPR := true; issues := [];
           warnings := [formatWarning];
           info := [aheadInfo 1 "develop"] |})).
Proof.
  apply (@format_warning_on_trailing_newline unit
           (fun _ _ => (Normal (str "abc1234 feat: add login" ++ [LF]), tt))
           tt tt initialStatus (str "abc1234 feat: add login")).
  - reflexivity.
  - vm_compute. discriminate.
Defined.

End ReadinessRuns.

(** ** The commands

    What the command functions do to the process and to the repository:
    how a run ends, which [git] commands it hands to [execSync], and what
    it prints.  [settles], [exitsWithOne] and [emitsOnly] are closed under
    the constructs the commands are written with, so that a bound on a
    command follows its text. *)

Section CommandFacts.

Import Cli.

Variable World : Type.
Variable spawn : jsstring -> World -> SpawnResult * World.

(** *** Ending with code 1 *)

Lemma exits_ret (A : Type) (a : A) : exitsWithOne (ret (World:=World) a).
Proof. intros m. exact I. Qed.

Lemma exits_emit e : exitsWithOne (emit (World:=World) e).
Proof. intros m. exact I. Qed.

Lemma exits_exit (A : Type) : exitsWithOne (@exit World A 1).
Proof. intros m. reflexivity. Qed.

Lemma exits_exec cmd : exitsWithOne (execSync spawn cmd).
Proof.
  intros [w tr]. unfold execSync. simpl. destruct (spawn cmd w) as [[o|msg st] w']; exact I.
Qed.

Lemma exits_liftIO (A : Type) (c : Git.IO (Machine World) A) : exitsWithOne (liftIO c).
Proof.
  intros m. unfold liftIO. destruct (c m) as [[a|e] m']; exact I.
Qed.

Lemma exits_liftCompletion (A : Type) (c : Completion A) :
  exitsWithOne (liftCompletion (World:=World) c).
Proof. intros m. unfold liftCompletion. destruct c; exact I. Qed.

Lemma exits_bind (A B : Type) (c : Proc World A) (k : A -> Proc World B) :
  exitsWithOne c -> (forall a, exitsWithOne (k a)) -> exitsWithOne (bind c k).
Proof.
  intros Hc Hk m. unfold bind. specialize (Hc m).
  destruct (c m) as [[a|e|code] m']; simpl in *; auto. apply Hk.
Qed.

Lemma exits_tryCatch (A : Type) (c : Proc World A) (h : Thrown -> Proc World A) :
  exitsWithOne c -> (forall e, exitsWithOne (h e)) -> exitsWithOne (tryCatch c h).
Proof.
  intros Hc Hh m. unfold tryCatch. specialize (Hc m).
  destruct (c m) as [[a|e|code] m']; simpl in *; auto. apply Hh.
Qed.

Lemma exits_when b (c : Proc World unit) : exitsWithOne c -> exitsWithOne (when b c).
Proof. intros H. destruct b; simpl; auto. apply exits_ret. Qed.

Lemma exits_forEach (A : Type) (l : list A) (f : A -> Proc World unit) :
  (forall x, exitsWithOne (f x)) -> exitsWithOne (forEach l f).
Proof.
  intros H. induction l as [|x l IH]; simpl; [apply exits_ret|].
  apply exits_bind; auto.
Qed.

(** *** Never throwing *)

Lemma settles_exits (A : Type) (c : Proc World A) : settles c -> exitsWithOne c.
Proof.
  intros H m. specialize (H m). destruct (fst (c m)); auto.
Qed.

Lemma settles_ret (A : Type) (a : A) : settles (ret (World:=World) a).
Proof. intros m. exact I. Qed.

Lemma settles_emit e : settles (emit (World:=World) e).
Proof. intros m. exact I. Qed.

Lemma settles_exit (A : Type) : settles (@exit World A 1).
Proof. intros m. reflexivity. Qed.

Lemma settles_liftIO (A : Type) (c : Git.IO (Machine World) A) :
  neverThrowsIO c -> settles (liftIO c).
Proof.
  intros H m. unfold liftIO. destruct (H m) as (a & m' & ->). exact I.
Qed.

Lemma settles_bind (A B : Type) (c : Proc World A) (k : A -> Proc World B) :
  settles c -> (forall a, settles (k a)) -> settles (bind c k).
Proof.
  intros Hc Hk m. unfold bind. specialize (Hc m).
  destruct (c m) as [[a|e|code] m']; simpl in *; auto. apply Hk.
Qed.

Lemma settles_tryCatch (A : Type) (c : Proc World A) (h : Thrown -> Proc World A) :
  exitsWithOne c -> (forall e, settles (h e)) -> settles (tryCatch c h).
Proof.
  intros Hc Hh m. unfold tryCatch. specialize (Hc m).
  destruct (c m) as [[a|e|code] m']; simpl in *; auto. apply Hh.
Qed.

Lemma settles_when b (c : Proc World unit) : settles c -> settles (when b c).
Proof. intros H. destruct b; simpl; auto. apply settles_ret. Qed.

Lemma settles_forEach (A : Type) (l : list A) (f : A -> Proc World unit) :
  (forall x, settles (f x)) -> settles (forEach l f).
Proof.
  intros H. induction l as [|x l IH]; simpl; [apply settles_ret|].
  apply settles_bind; auto.
Qed.

(** *** What a run appends to the trace *)

Section Emits.
Variable P : Event -> Prop.

Lemma emits_ret (A : Type) (a : A) : emitsOnly P (ret (World:=World) a).
Proof. intros m. exists []. simpl. rewrite app_nil_r. auto. Qed.

Lemma emits_exit (A : Type) n : emitsOnly P (@exit World A n).
Proof. intros m. exists []. simpl. rewrite app_nil_r. auto. Qed.

Lemma emits_emit e : P e -> emitsOnly P (emit (World:=World) e).
Proof. intros H m. exists [e]. simpl. auto. Qed.

Lemma emits_exec cmd : P (Ran cmd) -> emitsOnly P (execSync spawn cmd).
Proof.
  intros H [w tr]. exists [Ran cmd]. unfold execSync. simpl.
  destruct (spawn cmd w) as [[o|msg st] w']; simpl; auto.
Qed.

Lemma emits_liftCompletion (A : Type) (c : Completion A) :
  emitsOnly P (liftCompletion (World:=World) c).
Proof.
  intros m. exists []. unfold liftCompletion. destruct c; simpl; rewrite app_nil_r; auto.
Qed.

Lemma emits_bind (A B : Type) (c : Proc World A) (k : A -> Proc World B) :
  emitsOnly P c -> (forall a, emitsOnly P (k a)) -> emitsOnly P (bind c k).
Proof.
  intros Hc Hk m. unfold bind. destruct (Hc m) as (tr1 & E1 & F1).
  destruct (c m) as [[a|e|code] m']; simpl in *; try (exists tr1; auto; fail).
  destruct (Hk a m') as (tr2 & E2 & F2). exists (tr1 ++ tr2).
  rewrite E2, E1, app_assoc. split; auto. apply Forall_app; auto.
Qed.

Lemma emits_tryCatch (A : Type) (c : Proc World A) (h : Thrown -> Proc World A) :
  emitsOnly P c -> (forall e, emitsOnly P (h e)) -> emitsOnly P (tryCatch c h).
Proof.
  intros Hc Hh m. unfold tryCatch. destruct (Hc m) as (tr1 & E1 & F1).
  destruct (c m) as [[a|e|code] m']; simpl in *; try (exists tr1; auto; fail).
  destruct (Hh e m') as (tr2 & E2 & F2). exists (tr1 ++ tr2).
  rewrite E2, E1, app_assoc. split; auto. apply Forall_app; auto.
Qed.

Lemma emits_when b (c : Proc World unit) : emitsOnly P c -> emitsOnly P (when b c).
Proof. intros H. destruct b; simpl; auto. apply emits_ret. Qed.

Lemma emits_forEach (A : Type) (l : list A) (f : A -> Proc World unit) :
  (forall x, emitsOnly P (f x)) -> emitsOnly P (forEach l f).
Proof.
  intros H. induction l as [|x l IH]; simpl; [apply emits_ret|].
  apply emits_bind; auto.
Qed.

Lemma emits_liftIO (A : Type) (c : Git.IO (Machine World) A) :
  emitsOnlyIO P c -> emitsOnly P (liftIO c).
Proof.
  intros H m. unfold liftIO. destruct (H m) as (tr & E & F).
  exists tr. destruct (c m) as [[a|e] m']; simpl in *; auto.
Qed.

Lemma emitsIO_ret (A : Type) (a : A) : emitsOnlyIO P (Git.ret (World:=Machine World) a).
Proof. intros m. exists []. simpl. rewrite app_nil_r. auto. Qed.

Lemma emitsIO_exec cmd : P (Ran cmd) -> emitsOnlyIO P (execSyncIO spawn cmd).
Proof.
  intros H [w tr]. exists [Ran cmd]. unfold execSyncIO. simpl.
  destruct (spawn cmd w) as [[o|msg st] w']; simpl; auto.
Qed.

Lemma emitsIO_bind (A B : Type) (c : Git.IO (Machine World) A) (k : A -> Git.IO (Machine World) B) :
  emitsOnlyIO P c -> (forall a, emitsOnlyIO P (k a)) -> emitsOnlyIO P (Git.bindIO c k).
Proof.
  intros Hc Hk m. unfold Git.bindIO. destruct (Hc m) as (tr1 & E1 & F1).
  destruct (c m) as [[a|e] m']; simpl in *; try (exists tr1; auto; fail).
  destruct (Hk a m') as (tr2 & E2 & F2). exists (tr1 ++ tr2).
  rewrite E2, E1, app_assoc. split; auto. apply Forall_app; auto.
Qed.

Lemma emitsIO_tryCatch (A : Type) (c h : Git.IO (Machine World) A) :
  emitsOnlyIO P c -> emitsOnlyIO P h -> emitsOnlyIO P (Git.tryCatch c h).
Proof.
  intros Hc Hh m. unfold Git.tryCatch. destruct (Hc m) as (tr1 & E1 & F1).
  destruct (c m) as [[a|e] m']; simpl in *; try (exists tr1; auto; fail).
  destruct (Hh m') as (tr2 & E2 & F2). exists (tr1 ++ tr2).
  rewrite E2, E1, app_assoc. split; auto. apply Forall_app; auto.
Qed.

End Emits.

Lemma settles_liftCompletion (A : Type) (c : Completion A) a :
  c = Normal a -> settles (liftCompletion (World:=World) c).
Proof. intros -> m. exact I. Qed.

(** *** The queries of git.ts under the trace *)

Lemma getIntegrationBranch_total (W : Type)
    (run : jsstring -> W -> Completion jsstring * W) (w : W) :
  exists b w', Git.getIntegrationBranch run w = (Normal b, w').
Proof.
  unfold Git.getIntegrationBranch, Git.detectDefaultBranch, Git.tryCatch, Git.bindIO, Git.ret.
  repeat match goal with
         | |- context [run ?c ?x] => destruct (run c x) as [[?|?] ?]
         | |- context [if ?b then _ else _] => destruct b
         end; eauto.
Qed.

Lemma queries_never_throw :
  neverThrowsIO (Repository.isGitRepository (execSyncIO spawn)) /\
  neverThrowsIO (Repository.getCurrentBranch (execSyncIO spawn)) /\
  neverThrowsIO (Repository.hasUncommittedChanges (execSyncIO spawn)) /\
  neverThrowsIO (Git.getIntegrationBranch (execSyncIO spawn)).
Proof.
  repeat split; intros m; try apply getIntegrationBranch_total;
    unfold Repository.isGitRepository, Repository.getCurrentBranch,
      Repository.hasUncommittedChanges, Git.tryCatch, Git.bindIO, Git.ret;
    match goal with |- context [execSyncIO spawn ?c m] =>
      destruct (execSyncIO spawn c m) as [[?|?] ?] end; eauto.
Qed.

Ltac emitsIO :=
  repeat first
    [ apply emitsIO_tryCatch
    | apply emitsIO_bind
    | apply emitsIO_ret
    | apply emitsIO_exec
    | match goal with
      | |- emitsOnlyIO _ (if ?b then _ else _) => destruct b
      | |- emitsOnlyIO _ (match ?x with Some _ => _ | None => _ end) => destruct x
      | |- forall _, emitsOnlyIO _ _ => intro
      end ].

Lemma queries_emit (P : Event -> Prop) :
  (forall c, In c repositoryQueries -> P (Ran c)) ->
  emitsOnlyIO P (Repository.isGitRepository (execSyncIO spawn)) /\
  emitsOnlyIO P (Repository.getCurrentBranch (execSyncIO spawn)) /\
  emitsOnlyIO P (Repository.hasUncommittedChanges (execSyncIO spawn)) /\
  emitsOnlyIO P (Git.getIntegrationBranch (execSyncIO spawn)).
Proof.
  intros H.
  repeat split;
    unfold Repository.isGitRepository, Repository.getCurrentBranch,
      Repository.hasUncommittedChanges, Git.getIntegrationBranch, Git.detectDefaultBranch;
    emitsIO; apply H; simpl; auto 10.
Qed.

Lemma isGitRepository_run (w : World) tr :
  liftIO (Repository.isGitRepository (execSyncIO spawn)) (w, tr) =
  match spawn (str "git rev-parse --git-dir") w with
  | (Output _, w') => (Returned true, (w', tr ++ [Ran (str "git rev-parse --git-dir")]))
  | (Failure _ _, w') => (Returned false, (w', tr ++ [Ran (str "git rev-parse --git-dir")]))
  end.
Proof.
  unfold liftIO, Repository.isGitRepository, Git.tryCatch, Git.bindIO, Git.ret, execSyncIO.
  cbn [fst snd]. destruct (spawn _ w) as [[o|msg st] w']; reflexivity.
Qed.

Lemma getCurrentBranch_run (w : World) tr :
  liftIO (Repository.getCurrentBranch (execSyncIO spawn)) (w, tr) =
  match spawn (str "git rev-parse --abbrev-ref HEAD") w with
  | (Output out, w') =>
      (Returned (Some (trim out)), (w', tr ++ [Ran (str "git rev-parse --abbrev-ref HEAD")]))
  | (Failure _ _, w') =>
      (Returned None, (w', tr ++ [Ran (str "git rev-parse --abbrev-ref HEAD")]))
  end.
Proof.
  unfold liftIO, Repository.getCurrentBranch, Git.tryCatch, Git.bindIO, Git.ret, execSyncIO.
  cbn [fst snd]. destruct (spawn _ w) as [[o|msg st] w']; reflexivity.
Qed.

Lemma hasUncommittedChanges_run (w : World) tr :
  liftIO (Repository.hasUncommittedChanges (execSyncIO spawn)) (w, tr) =
  match spawn (str "git status --porcelain") w with
  | (Output out, w') =>
      (Returned (0 <? List.length (trim out)), (w', tr ++ [Ran (str "git status --porcelain")]))
  | (Failure _ _, w') =>
      (Returned false, (w', tr ++ [Ran (str "git status --porcelain")]))
  end.
Proof.
  unfold liftIO, Repository.hasUncommittedChanges, Git.tryCatch, Git.bindIO, Git.ret, execSyncIO.
  cbn [fst snd]. destruct (spawn _ w) as [[o|msg st] w']; reflexivity.
Qed.

(** [getIntegrationBranch] returns a name, having run queries only. *)
Lemma getIntegrationBranch_run (m : Machine World) :
  exists b w' tr,
    liftIO (Git.getIntegrationBranch (execSyncIO spawn)) m = (Returned b, (w', snd m ++ tr)) /\
    Forall quietQuery tr.
Proof.
  destruct queries_never_throw as (_ & _ & _ & Hn).
  destruct (@queries_emit quietQuery) as (_ & _ & _ & He); [intros c Hc; exact Hc|].
  destruct (Hn m) as (b & m' & E). destruct (He m) as (tr & Etr & Htr).
  rewrite E in Etr. cbn [snd] in Etr.
  exists b, (fst m'), tr. split; [|exact Htr].
  unfold liftIO. rewrite E. destruct m' as [w' t']. cbn [fst snd] in *. now subst.
Qed.

Lemma query_not_rebase c : In c repositoryQueries -> isRebaseCommand c = false.
Proof.
  intros Hc. simpl in Hc.
  repeat (destruct Hc as [<-|Hc]; [reflexivity|]). contradiction.
Qed.

Lemma queries_not_rebase :
  emitsOnlyIO notRebase (Repository.hasUncommittedChanges (execSyncIO spawn)) /\
  emitsOnlyIO notRebase (Git.getIntegrationBranch (execSyncIO spawn)).
Proof.
  destruct (@queries_emit notRebase) as (_ & _ & H3 & H4); auto.
  intros c Hc. apply query_not_rebase, Hc.
Qed.

Lemma commands_not_rebase tr :
  Forall notRebase tr -> Forall (fun c => isRebaseCommand c = false) (commandsOf tr).
Proof.
  induction 1 as [|e tr He _ IH]; simpl; auto.
  destruct e; auto.
Qed.

Lemma quiet_queries tr :
  Forall quietQuery tr -> Forall (fun c => In c repositoryQueries) (commandsOf tr).
Proof.
  induction 1 as [|e tr He _ IH]; simpl; auto.
  destruct e; auto; contradiction.
Qed.

Lemma quiet_prints_nothing tr args : Forall quietQuery tr -> ~ In (Error args) tr.
Proof.
  intros H Hin. rewrite Forall_forall in H. exact (H _ Hin).
Qed.

Lemma commandsOf_app a b : commandsOf (a ++ b) = commandsOf a ++ commandsOf b.
Proof.
  induction a as [|[c|x|x|x] a IH]; simpl; auto. now rewrite IH.
Qed.

Lemma commandsOf_logs (A : Type) (g : A -> list Segment) l :
  commandsOf (map (fun x => Log (g x)) l) = [].
Proof. induction l; simpl; auto. Qed.

(** *** One step of a run *)

Lemma bind_eq (A B : Type) (c : Proc World A) (k : A -> Proc World B) m :
  bind c k m =
  match c m with
  | (Returned a, m') => k a m'
  | (Threw e, m') => (Threw e, m')
  | (Exited code, m') => (Exited code, m')
  end.
Proof. reflexivity. Qed.

Lemma log_eq args (w : World) tr :
  consoleLog args (w, tr) = (Returned tt, (w, tr ++ [Log args])).
Proof. reflexivity. Qed.

Lemma exec_eq cmd (w : World) tr :
  execSync spawn cmd (w, tr) =
  match spawn cmd w with
  | (Output stdout, w') => (Returned stdout, (w', tr ++ [Ran cmd]))
  | (Failure msg st, w') =>
      (Threw {| message := msg; status := st |}, (w', tr ++ [Ran cmd]))
  end.
Proof. reflexivity. Qed.

Lemma forEach_log (A : Type) (g : A -> list Segment) (l : list A) : forall (w : World) tr,
  forEach l (fun x => consoleLog (g x)) (w, tr) =
  (Returned tt, (w, tr ++ map (fun x => Log (g x)) l)).
Proof.
  induction l as [|x l IH]; intros w tr; simpl.
  - unfold ret. now rewrite app_nil_r.
  - unfold bind, consoleLog, emit. simpl. rewrite IH, <- app_assoc. reflexivity.
Qed.

(** A heading and one line for each entry, when there is an entry. *)
Lemma log_block (A : Type) (l : list A) hdr (g : A -> list Segment) (w : World) tr :
  when (0 <? List.length l)
    (bind (consoleLog hdr) (fun _ => forEach l (fun x => consoleLog (g x)))) (w, tr) =
  (Returned tt,
   (w, tr ++ (if 0 <? List.length l then [Log hdr] else []) ++ map (fun x => Log (g x)) l)).
Proof.
  destruct l as [|x l].
  - unfold when, ret. simpl. now rewrite app_nil_r.
  - change (0 <? List.length (x :: l)) with true. unfold when.
    unfold bind at 1. unfold consoleLog at 1, emit at 1. cbn [fst snd].
    rewrite forEach_log, <- app_assoc. reflexivity.
Qed.

Lemma validate_total message :
  exists r, Commit.validateCommitMessage message = Normal r.
Proof.
  destruct (validate_cases message)
    as [[_ Hv]|[(_ & _ & Hv)|(_ & m & ty & subj & _ & _ & _ & _ & Hv)]];
    rewrite Hv; eauto.
Qed.

Lemma strictEq_true s : forall t, strictEq s t = true -> s = t.
Proof.
  induction s as [|c s IH]; intros [|d t] H; simpl in H; try discriminate; auto.
  apply andb_true_iff in H as [Hc Hs]. apply N.eqb_eq in Hc. f_equal; auto.
Qed.

Lemma mainline_names b :
  In b [str "main"; str "master"; str "develop"] -> test mainlinePattern b = true.
Proof.
  intros [<-|[<-|[<-|[]]]]; vm_compute; reflexivity.
Qed.

(** *** Tactics that follow the text of a command *)

Ltac exits :=
  unfold consoleLog, consoleWarn, consoleError, conflictHelp, uncommittedHelp, forcePushHelp;
  repeat first
    [ apply exits_bind | apply exits_tryCatch | apply exits_when | apply exits_ret
    | apply exits_emit | apply exits_exit | apply exits_exec | apply exits_forEach
    | apply exits_liftIO | apply exits_liftCompletion
    | match goal with
      | |- exitsWithOne (if ?b then _ else _) => destruct b
      | |- exitsWithOne (match ?x with _ => _ end) => destruct x
      | |- forall _, exitsWithOne _ => intro
      end ].

Ltac settle :=
  unfold consoleLog, consoleWarn, consoleError, conflictHelp, uncommittedHelp, forcePushHelp;
  repeat first
    [ apply settles_bind | apply settles_when | apply settles_ret
    | apply settles_emit | apply settles_exit | apply settles_forEach
    | apply settles_liftIO
    | apply settles_tryCatch; [exits|]
    | match goal with
      | |- settles (if ?b then _ else _) => destruct b
      | |- settles (match ?x with _ => _ end) => destruct x
      | |- forall _, settles _ => intro
      end ].

Ltac emits :=
  unfold consoleLog, consoleWarn, consoleError, conflictHelp, uncommittedHelp, forcePushHelp;
  repeat first
    [ apply emits_bind | apply emits_tryCatch | apply emits_when | apply emits_ret
    | apply emits_exit | apply emits_emit | apply emits_exec | apply emits_forEach
    | apply emits_liftIO | apply emits_liftCompletion
    | match goal with
      | |- emitsOnly _ (if ?b then _ else _) => destruct b eqn:?
      | |- emitsOnly _ (match ?x with _ => _ end) => destruct x eqn:?
      | |- forall _, emitsOnly _ _ => intro
      end ].

Ltac unfold_proc :=
  repeat progress
    (unfold bind, tryCatch, ret, exit, emit, consoleLog, consoleWarn, consoleError,
       execSync, when; cbv beta iota; cbn [fst snd status message]).

Ltac unfold_proc_in E :=
  repeat progress
    (unfold bind, tryCatch, ret, exit, emit, consoleLog, consoleWarn, consoleError,
       execSync, when in E; cbv beta iota in E; cbn [fst snd status message] in E).

(** The uncommitted-changes error is not in a trace of other events. *)
Ltac no_error :=
  rewrite <- ?app_assoc; cbn [app];
  repeat first
    [ rewrite in_app_iff
    | match goal with
      | |- _ \/ _ -> _ => let H := fresh in intros [H|H]; revert H
      | |- In _ (_ :: _) -> _ =>
          let H := fresh in intros [H|H]; [cbv in H; discriminate H|revert H]
      | |- In _ [] -> _ => intros []
      | Htr : Forall quietQuery ?tr |- In _ ?tr -> _ =>
          let H := fresh in intros H; exact (@quiet_prints_nothing _ _ Htr H)
      end ].

(** The commands of a trace that ends in queries. *)
Ltac only_queries :=
  rewrite <- ?app_assoc; cbn [app commandsOf]; rewrite ?commandsOf_app; cbn [app commandsOf];
  repeat first [ apply Forall_app; split | apply quiet_queries; assumption
               | constructor; [simpl; auto 10; fail|] | apply Forall_nil ].

(** The last command of a trace. *)
Ltac last_command :=
  rewrite <- ?app_assoc; cbn [app commandsOf]; rewrite ?commandsOf_app; cbn [app commandsOf];
  match goal with
  | |- exists before command, ?h :: ?t ++ ?l = _ /\ _ =>
      exists (h :: t ++ removelast l), (last l []);
      split; [cbn [app]; rewrite <- app_assoc; reflexivity | reflexivity]
  end.

(** *** No command throws *)

Lemma validateStagedCommit_settles message :
  settles (validateStagedCommit (World:=World) message).
Proof.
  destruct (validate_total message) as (r & Hr).
  unfold validateStagedCommit. settle. eapply settles_liftCompletion, Hr.
Qed.

Lemma createBranch_settles options : settles (createBranch spawn options).
Proof. unfold createBranch. settle. Qed.

Lemma showBranchStatus_settles : settles (showBranchStatus spawn).
Proof. unfold showBranchStatus. settle. Qed.

Lemma validateLastCommit_settles : settles (validateLastCommit spawn).
Proof. unfold validateLastCommit. settle. Qed.

Lemma syncBranch_settles options : settles (syncBranch spawn options).
Proof.
  destruct queries_never_throw as (H1 & H2 & H3 & H4).
  unfold syncBranch. settle; auto.
Qed.

Lemma rebaseBranch_settles options : settles (rebaseBranch spawn options).
Proof.
  destruct queries_never_throw as (H1 & H2 & H3 & H4).
  unfold rebaseBranch. settle; auto.
Qed.

(** *** commit.ts: the two commands *)

(** X14. [validateStagedCommit] runs no [git] command and ends as the
    validator decides: it returns when the message is valid and ends the
    process with exit code 1 when it is not; in both cases every warning
    of the validation is printed as a yellow bullet line and every error
    as a red one. *)
Theorem validateStagedCommit_exits_iff_invalid message (w : World) :
  exists r,
    Commit.validateCommitMessage message = Normal r /\
    outcomeOf (validateStagedCommit message) w =
      (if Commit.valid r then Returned tt else Exited 1) /\
    commandsOf (traceOf (validateStagedCommit message) w) = [] /\
    (forall warning, In warning (Commit.warnings r) ->
       In (Log [Styled "yellow" ((str "   " ++ bullet ++ str " ") ++ warning)])
          (traceOf (validateStagedCommit message) w)) /\
    (forall error, In error (Commit.errors r) ->
       In (Log [Styled "red" ((str "   " ++ bullet ++ str " ") ++ error)])
          (traceOf (validateStagedCommit message) w)).
Proof.
  destruct (validate_total message) as (r & Hr). exists r. split; [exact Hr|].
  unfold outcomeOf, traceOf, validateStagedCommit. rewrite Hr.
  rewrite bind_eq. unfold liftCompletion. cbv beta iota.
  destruct (Commit.valid r) eqn:Hvalid.
  - rewrite bind_eq, log_eq. cbv beta iota. rewrite log_block. cbn [fst snd].
    rewrite !commandsOf_app, commandsOf_logs.
    repeat split.
    + destruct (0 <? _); reflexivity.
    + intros x Hx. apply in_or_app. right. apply in_or_app. right.
      apply (in_map (fun x => Log [Styled "yellow" ((str "   " ++ bullet ++ str " ") ++ x)])).
      exact Hx.
    + intros x Hx. exfalso.
      destruct (validate_cases message)
        as [[_ Hv]|[(_ & _ & Hv)|(_ & m & ty & subj & _ & _ & _ & _ & Hv)]];
        rewrite Hv in Hr; injection Hr as <-; simpl in *; try discriminate; auto.
  - rewrite bind_eq, log_eq. cbv beta iota.
    rewrite bind_eq, forEach_log. cbv beta iota.
    rewrite bind_eq, log_block. cbv beta iota. cbn [fst snd exit].
    rewrite !commandsOf_app, !commandsOf_logs.
    repeat split.
    + destruct (0 <? _); reflexivity.
    + intros x Hx. apply in_or_app. right. apply in_or_app. right.
      apply (in_map (fun x => Log [Styled "yellow" ((str "   " ++ bullet ++ str " ") ++ x)])).
      exact Hx.
    + intros x Hx. apply in_or_app. left. apply in_or_app. right.
      apply (in_map (fun x => Log [Styled "red" ((str "   " ++ bullet ++ str " ") ++ x)])).
      exact Hx.
Qed.

(** X15. [validateLastCommit] runs [git rev-parse --git-dir] and, when that
    succeeds, [git log -1 --pretty=%B], and nothing else.  It ends the
    process with exit code 1 when either command fails; otherwise it
    validates the output of [git log] and returns when that message is
    valid, and ends the process with exit code 1 when it is not. *)
Theorem validateLastCommit_outcome (w : World) :
  match spawn (str "git rev-parse --git-dir") w with
  | (Failure _ _, _) =>
      outcomeOf (validateLastCommit spawn) w = Exited 1 /\
      commandsOf (traceOf (validateLastCommit spawn) w) = [str "git rev-parse --git-dir"]
  | (Output _, w0) =>
      commandsOf (traceOf (validateLastCommit spawn) w) =
        [str "git rev-parse --git-dir"; str "git log -1 --pretty=%B"] /\
      match spawn (str "git log -1 --pretty=%B") w0 with
      | (Failure _ _, _) => outcomeOf (validateLastCommit spawn) w = Exited 1
      | (Output message, _) =>
          exists r,
            Commit.validateCommitMessage message = Normal r /\
            outcomeOf (validateLastCommit spawn) w =
              (if Commit.valid r then Returned tt else Exited 1)
      end
  end.
Proof.
  unfold outcomeOf, traceOf.
  remember (validateLastCommit spawn (w, [])) as run eqn:E.
  unfold validateLastCommit in E.
  rewrite bind_eq in E. unfold tryCatch at 1 in E. rewrite bind_eq, exec_eq in E.
  destruct (spawn (str "git rev-parse --git-dir") w) as [[o|msg st] w0].
  - cbv beta iota in E. unfold ret at 1 in E. cbv beta iota in E.
    unfold tryCatch in E. rewrite bind_eq, exec_eq in E.
    destruct (spawn (str "git log -1 --pretty=%B") w0) as [[message|msg st] w1].
    + cbv beta iota in E. destruct (validate_total message) as (r & Hr).
      rewrite Hr. rewrite bind_eq in E. unfold liftCompletion in E. rewrite Hr in E.
      cbv beta iota in E.
      rewrite bind_eq, log_eq in E. cbv beta iota in E.
      rewrite bind_eq, log_eq in E. cbv beta iota in E.
      rewrite bind_eq, log_eq in E. cbv beta iota in E.
      destruct (Commit.valid r) eqn:Hvalid.
      * rewrite bind_eq, log_eq in E. cbv beta iota in E. rewrite log_block in E.
        subst run. cbn [fst snd].
        rewrite !commandsOf_app, commandsOf_logs.
        split; [|exists r; rewrite Hvalid; auto].
        destruct (0 <? _); reflexivity.
      * rewrite bind_eq, log_eq in E. cbv beta iota in E.
        rewrite bind_eq, forEach_log in E. cbv beta iota in E.
        rewrite bind_eq, log_block in E. cbv beta iota in E.
        subst run. cbn [fst snd exit].
        rewrite !commandsOf_app, !commandsOf_logs.
        split; [|exists r; rewrite Hvalid; auto].
        destruct (0 <? _); reflexivity.
    + cbv beta iota in E. subst run. split; reflexivity.
  - cbv beta iota in E. subst run. split; reflexivity.
Qed.

(** *** branch.ts: the two commands *)

(** X16. [createBranch] runs nothing for a name the convention rejects: it
    prints the validator's error and ends the process with exit code 1
    before any [git] command. *)
Theorem createBranch_rejects_invalid_name options (w : World) :
  Branch.valid (Branch.validateBranchName (name options)) = false ->
  outcomeOf (createBranch spawn options) w = Exited 1 /\
  traceOf (createBranch spawn options) w =
    [Error [Styled "red" (crossMark ++ str " Error:");
            Plain (toString (Branch.error (Branch.validateBranchName (name options))))]].
Proof.
  intros Hvalid. unfold outcomeOf, traceOf, createBranch.
  rewrite Hvalid. cbn [negb]. unfold_proc. cbn [app]. split; reflexivity.
Qed.

(** X17. How [createBranch] ends, by what [git] answers.  It returns
    exactly when the name follows the convention, the repository check,
    the two listings, the fetch and the switch succeed, and neither listing
    has the name in it; whether the checkout and the pull of the base
    succeed makes no difference.  In every other case the process ends
    with exit code 1.  The last command of a run that returns is
    [git switch -c <name>]. *)
Theorem createBranch_outcome options (w : World) :
  let base := match from options with Some f => f | None => str "develop" end in
  if Branch.valid (Branch.validateBranchName (name options)) then
    match spawn (str "git rev-parse --git-dir") w with
    | (Failure _ _, _) => outcomeOf (createBranch spawn options) w = Exited 1
    | (Output _, w0) =>
    match spawn (str "git branch --list") w0 with
    | (Failure _ _, _) => outcomeOf (createBranch spawn options) w = Exited 1
    | (Output branches, w1) =>
    match spawn (str "git branch -r --list") w1 with
    | (Failure _ _, _) => outcomeOf (createBranch spawn options) w = Exited 1
    | (Output remoteBranches, w2) =>
    if includes (name options) branches
       || includes (str "origin/" ++ name options) remoteBranches
    then outcomeOf (createBranch spawn options) w = Exited 1
    else
    match spawn (str "git fetch origin") w2 with
    | (Failure _ _, _) => outcomeOf (createBranch spawn options) w = Exited 1
    | (Output _, w3) =>
    let w5 :=
      match spawn (str "git checkout " ++ base) w3 with
      | (Output _, w4) => snd (spawn (str "git pull origin " ++ base) w4)
      | (Failure _ _, w4) => w4
      end in
    match spawn (str "git switch -c " ++ name options) w5 with
    | (Failure _ _, _) => outcomeOf (createBranch spawn options) w = Exited 1
    | (Output _, _) =>
        outcomeOf (createBranch spawn options) w = Returned tt /\
        exists before,
          commandsOf (traceOf (createBranch spawn options) w) =
          before ++ [str "git switch -c " ++ name options]
    end end end end end
  else outcomeOf (createBranch spawn options) w = Exited 1.
Proof.
  cbv zeta. unfold outcomeOf, traceOf, createBranch.
  destruct (Branch.valid (Branch.validateBranchName (name options))) eqn:Hvalid;
    cbn [negb]; unfold_proc; [|reflexivity].
  destruct (spawn (str "git rev-parse --git-dir") w) as [[o0|m0 s0] w0];
    cbv beta iota; cbn [fst snd]; [|reflexivity].
  destruct (spawn (str "git branch --list") w0) as [[o1|m1 s1] w1];
    cbv beta iota; cbn [fst snd]; [|reflexivity].
  destruct (spawn (str "git branch -r --list") w1) as [[o2|m2 s2] w2];
    cbv beta iota; cbn [fst snd]; [|reflexivity].
  destruct (includes (name options) o1 || includes (str "origin/" ++ name options) o2);
    cbv beta iota; cbn [fst snd]; [reflexivity|].
  destruct (spawn (str "git fetch origin") w2) as [[o3|m3 s3] w3];
    cbv beta iota; cbn [fst snd]; [|reflexivity].
  repeat match goal with
         | |- context [spawn ?c ?x] =>
             is_var x; destruct (spawn c x) as [[?|? ?] ?]; cbv beta iota; cbn [fst snd]
         end; try reflexivity.
  all: split; [reflexivity|]; cbn [commandsOf app];
    match goal with |- exists b, ?l = _ => exists (removelast l); reflexivity end.
Qed.

(** X18. [showBranchStatus] ends the process, with exit code 1, exactly
    when the current branch cannot be read.  Otherwise it returns; it
    prints the branch first, and its next line is decided by
    [validateBranchName] alone: the convention line for a valid name and
    the warning with the validator's error for any other.  The test
    against [main] and [develop] changes nothing. *)
Theorem showBranchStatus_outcome (w : World) :
  match spawn (str "git rev-parse --abbrev-ref HEAD") w with
  | (Failure _ _, _) =>
      outcomeOf (showBranchStatus spawn) w = Exited 1 /\
      traceOf (showBranchStatus spawn) w =
        [Ran (str "git rev-parse --abbrev-ref HEAD");
         Error [Styled "red" (crossMark ++ str " Error:");
                Plain (str "Not in a Git repository")]]
  | (Output out, _) =>
      let validation := Branch.validateBranchName (trim out) in
      outcomeOf (showBranchStatus spawn) w = Returned tt /\
      exists rest,
        traceOf (showBranchStatus spawn) w =
          Ran (str "git rev-parse --abbrev-ref HEAD")
          :: Log [Styled "blue" (roundPushpin ++ str " Current Branch:");
                  Styled "bold" (trim out)]
          :: (if Branch.valid validation
              then Log [Styled "green" (checkMark ++ str " Branch name follows convention")]
              else Log [Styled "yellow" (warningSign ++ str "  Warning:");
                        Plain (toString (Branch.error validation))])
          :: rest
  end.
Proof.
  unfold outcomeOf, traceOf, showBranchStatus.
  unfold_proc.
  destruct (spawn (str "git rev-parse --abbrev-ref HEAD") w) as [[out|m0 s0] w0];
    cbv beta iota; cbn [fst snd app]; [|split; reflexivity].
  assert (Hsame :
    negb (Branch.valid (Branch.validateBranchName (trim out)))
    && negb (arrayIncludes [str "main"; str "develop"] (Some (trim out)))
    = negb (Branch.valid (Branch.validateBranchName (trim out)))).
  { destruct (arrayIncludes _ _) eqn:Hin; [|apply andb_true_r].
    cbn [arrayIncludes existsb] in Hin.
    apply orb_true_iff in Hin as [Hin|Hin];
      [|apply orb_true_iff in Hin as [Hin|Hin]; [|discriminate Hin]];
      apply strictEq_true in Hin; rewrite Hin; reflexivity. }
  rewrite Hsame.
  destruct (Branch.valid (Branch.validateBranchName (trim out)));
    cbn [negb]; cbv beta iota; cbn [fst snd];
    repeat match goal with
           | |- context [spawn ?c ?x] =>
               destruct (spawn c x) as [[?|? ?] ?]; cbv beta iota; cbn [fst snd]
           | |- context [if ?b then _ else _] => destruct b; cbv beta iota; cbn [fst snd]
           end;
    (split; [reflexivity|]); rewrite <- ?app_assoc; cbn [app]; eexists; reflexivity.
Qed.

(** *** sync.ts *)

(** X19. On [main], [master] or [develop], or with the option
    [rebase: false], [syncBranch] starts no [git rebase ...] command,
    whatever the base branch is.  ([git pull --rebase] may still run.) *)
Theorem syncBranch_keeps_mainline options (w w0 w1 : World) o0 out :
  spawn (str "git rev-parse --git-dir") w = (Output o0, w0) ->
  spawn (str "git rev-parse --abbrev-ref HEAD") w0 = (Output out, w1) ->
  In (trim out) [str "main"; str "master"; str "develop"] \/ syncRebase options = Some false ->
  Forall (fun c => isRebaseCommand c = false)
         (commandsOf (traceOf (syncBranch spawn options) w)).
Proof.
  intros H0 H1 Hguard.
  destruct queries_not_rebase as [Hq1 Hq2].
  assert (Hoff : forall base,
            (match syncRebase options with Some b => b | None => true end)
            && negb (strictEq (trim out) base)
            && negb (test mainlinePattern (trim out)) = false).
  { intros base. destruct Hguard as [Hm| ->]; [|reflexivity].
    rewrite (@mainline_names _ Hm). simpl. apply andb_false_r. }
  unfold traceOf, syncBranch.
  rewrite bind_eq, isGitRepository_run, H0. cbv beta iota. cbn [negb when].
  rewrite bind_eq. unfold ret at 1. cbv beta iota.
  rewrite bind_eq, getCurrentBranch_run, H1. cbv beta iota.
  match goal with |- Forall _ (commandsOf (snd (snd (?k ?m)))) =>
    assert (He : emitsOnly notRebase k); [|destruct (He m) as (tr & -> & Htr)]
  end.
  - destruct (trim out) as [|c t] eqn:Hcur; emits; try exact I; try reflexivity; auto.
    all: try (exfalso; match goal with H : _ && _ && _ = true |- _ =>
                rewrite Hoff in H; discriminate H end).
  - cbn [snd app commandsOf].
    constructor; [reflexivity|]. constructor; [reflexivity|].
    apply commands_not_rebase. exact Htr.
Qed.

(** X20. When [syncBranch] reports uncommitted changes, it ends the
    process with exit code 1 and every command it has run is one of the
    repository queries of git.ts: nothing was pulled or rebased. *)
Theorem syncBranch_stops_on_uncommitted options (w : World) :
  In uncommittedError (traceOf (syncBranch spawn options) w) ->
  outcomeOf (syncBranch spawn options) w = Exited 1 /\
  Forall (fun c => In c repositoryQueries)
         (commandsOf (traceOf (syncBranch spawn options) w)).
Proof.
  unfold outcomeOf, traceOf.
  remember (syncBranch spawn options (w, [])) as run eqn:E.
  unfold syncBranch in E.
  rewrite bind_eq, isGitRepository_run in E.
  destruct (spawn (str "git rev-parse --git-dir") w) as [[o0|m0 s0] w0];
    cbv beta iota in E; cbn [negb app] in E.
  2:{ unfold_proc_in E. subst run. cbn [fst snd app].
      intros H; exfalso; revert H; no_error. }
  rewrite bind_eq in E. unfold when at 1, ret at 1 in E. cbv beta iota in E.
  rewrite bind_eq, getCurrentBranch_run in E.
  destruct (spawn (str "git rev-parse --abbrev-ref HEAD") w0) as [[out|m1 s1] w1];
    cbv beta iota in E; cbn [app] in E.
  2:{ unfold_proc_in E. subst run. cbn [fst snd app].
      intros H; exfalso; revert H; no_error. }
  destruct (trim out) as [|c current].
  { unfold_proc_in E. subst run. cbn [fst snd app].
    intros H; exfalso; revert H; no_error. }
  rewrite bind_eq in E.
  destruct (getIntegrationBranch_run
              (w1, [Ran (str "git rev-parse --git-dir");
                    Ran (str "git rev-parse --abbrev-ref HEAD")]))
    as (b & w2 & tr & E1 & Htr).
  rewrite E1 in E. cbv beta iota in E. cbn [snd] in E.
  rewrite bind_eq, hasUncommittedChanges_run in E.
  assert (Hclean : forall (k : Proc World unit) (m : Machine World),
    emitsOnly (fun e => e <> uncommittedError) k ->
    (In uncommittedError (snd m) -> False) ->
    In uncommittedError (snd (snd (k m))) -> False).
  { intros k m He Hpre. destruct (He m) as (tr' & -> & Htr').
    rewrite in_app_iff. intros [H|H]; [exact (Hpre H)|].
    rewrite Forall_forall in Htr'. exact (Htr' _ H eq_refl). }
  destruct (spawn (str "git status --porcelain") w2) as [[o4|m4 s4] w4];
    cbv beta iota in E.
  1: destruct (0 <? List.length (trim o4)).
  1:{ unfold uncommittedHelp in E. unfold_proc_in E. subst run. cbn [fst snd].
      intros _. split; [reflexivity|]. only_queries. }
  all: rewrite bind_eq in E; unfold when at 1, ret at 1 in E; cbv beta iota in E.
  all: subst run; intros H; exfalso; revert H; apply Hclean; [|cbn [snd]; no_error].
  all: emits; intros H; cbv in H; discriminate H.
Qed.
(** *** rebase.ts *)

(** Every run of [rebaseBranch], by the commands that fail on its way. *)
Lemma rebaseBranch_runs options (w : World) :
  (outcomeOf (rebaseBranch spawn options) w = Returned tt ->
   exists before command,
     commandsOf (traceOf (rebaseBranch spawn options) w) = before ++ [command] /\
     isRebaseCommand command = true) /\
  (In uncommittedError (traceOf (rebaseBranch spawn options) w) ->
   outcomeOf (rebaseBranch spawn options) w = Exited 1 /\
   Forall (fun c => In c repositoryQueries)
          (commandsOf (traceOf (rebaseBranch spawn options) w))).
Proof.
  unfold outcomeOf, traceOf.
  remember (rebaseBranch spawn options (w, [])) as run eqn:E.
  unfold rebaseBranch, uncommittedHelp, forcePushHelp, conflictHelp in E.
  rewrite bind_eq, isGitRepository_run in E.
  destruct (spawn (str "git rev-parse --git-dir") w) as [[o0|m0 s0] w0];
    cbv beta iota in E; cbn [negb app] in E.
  2:{ unfold_proc_in E. subst run. cbn [fst snd app]. split; [intros H; discriminate H|].
      intros H; exfalso; revert H; no_error. }
  unfold_proc_in E.
  destruct (getIntegrationBranch_run (w0, [Ran (str "git rev-parse --git-dir")]))
    as (b & w1 & tr & E1 & Htr).
  rewrite E1 in E. cbv beta iota in E. cbn [fst snd] in E.
  remember (match rebaseBase options with Absent => Some b | Present v => v end)
    as base eqn:Hbase in E.
  remember (match interactive options with Some b0 => b0 | None => false end)
    as inter eqn:Hinter in E.
  clear Hbase Hinter.
  destruct (spawn (str "git rev-parse --git-dir") w1) as [[o2|m2 s2] w2];
    cbv beta iota in E; cbn [fst snd] in E.
  2:{ subst run. cbn [fst snd app]. split; [intros H; discriminate H|].
      intros H; exfalso; revert H; no_error. }
  destruct (spawn (str "git rev-parse --abbrev-ref HEAD") w2) as [[o3|m3 s3] w3];
    cbv beta iota in E; cbn [fst snd] in E.
  2:{ destruct s3 as [[|[|?]]|]; unfold_proc_in E; subst run;
        cbn [fst snd]; (split; [intros H; discriminate H|]);
        intros H; exfalso; revert H; no_error. }
  rewrite hasUncommittedChanges_run in E.
  assert (Hleaf : forall r : Outcome unit * Machine World, r = run ->
    (fst r = Returned tt ->
     exists before command,
       commandsOf (snd (snd r)) = before ++ [command] /\ isRebaseCommand command = true) /\
    (In uncommittedError (snd (snd r)) ->
     fst r = Exited 1 /\
     Forall (fun c => In c repositoryQueries) (commandsOf (snd (snd r)))));
    [|now apply Hleaf].
  intros r Hr. rewrite E in Hr. clear E run.
  destruct (spawn (str "git status --porcelain") w3) as [[o4|m4 s4] w4];
    cbv beta iota in Hr; cbn [fst snd] in Hr.
  1: destruct (0 <? List.length (trim o4)); cbv beta iota in Hr.
  1:{ unfold_proc_in Hr. subst r. cbn [fst snd].
      split; [intros H; discriminate H|]. intros _. split; [reflexivity|]. only_queries. }
  all: destruct inter; cbv beta iota in Hr; cbn [negb] in Hr.
  all: repeat match type of Hr with
       | context [spawn ?c ?x] =>
           destruct (spawn c x) as [[?|? [[|[|?]]|]] ?];
           cbv beta iota in Hr; cbn [fst snd status message] in Hr
       end.
  all: subst r; cbn [fst snd].
  all: split; [| intros H; exfalso; revert H; no_error].
  all: try (intros H; discriminate H).
  all: intros _; last_command.
Qed.

Lemma liftIO_eq (A : Type) (c : Git.IO (Machine World) A) m :
  liftIO c m =
  match c m with
  | (Normal a, m') => (Returned a, m')
  | (Throw e, m') => (Threw {| message := e; status := None |}, m')
  end.
Proof. reflexivity. Qed.

(** X21. How [rebaseBranch] ends, by what [git] answers.  It returns
    exactly when the repository checks and the reading of the current
    branch succeed, [git status --porcelain] fails or prints nothing but
    white space, and the fetch of the base, the check of [origin/<base>]
    and the rebase succeed.  In every other case the process ends with
    exit code 1.  The base is the option when it is given and the result
    of [getIntegrationBranch] otherwise, and the last command of a run
    that returns is the rebase. *)
Theorem rebaseBranch_outcome options (w : World) :
  match spawn (str "git rev-parse --git-dir") w with
  | (Failure _ _, _) => outcomeOf (rebaseBranch spawn options) w = Exited 1
  | (Output _, w0) =>
  exists detected w1 tr,
    Git.getIntegrationBranch (execSyncIO spawn)
      (w0, [Ran (str "git rev-parse --git-dir")]) = (Normal detected, (w1, tr)) /\
    let base :=
      toString match rebaseBase options with
               | Absent => Some detected
               | Present v => v
               end in
    let rebaseCommand :=
      if match interactive options with Some b => b | None => false end
      then str "git rebase -i origin/" ++ base
      else str "git rebase origin/" ++ base in
    match spawn (str "git rev-parse --git-dir") w1 with
    | (Failure _ _, _) => outcomeOf (rebaseBranch spawn options) w = Exited 1
    | (Output _, w2) =>
    match spawn (str "git rev-parse --abbrev-ref HEAD") w2 with
    | (Failure _ _, _) => outcomeOf (rebaseBranch spawn options) w = Exited 1
    | (Output _, w3) =>
    let (dirty, w4) :=
      match spawn (str "git status --porcelain") w3 with
      | (Output out, w4) => (0 <? List.length (trim out), w4)
      | (Failure _ _, w4) => (false, w4)
      end in
    if dirty then outcomeOf (rebaseBranch spawn options) w = Exited 1
    else
    match spawn (str "git fetch origin " ++ base) w4 with
    | (Failure _ _, _) => outcomeOf (rebaseBranch spawn options) w = Exited 1
    | (Output _, w5) =>
    match spawn (str "git rev-parse origin/" ++ base) w5 with
    | (Failure _ _, _) => outcomeOf (rebaseBranch spawn options) w = Exited 1
    | (Output _, w6) =>
    match spawn rebaseCommand w6 with
    | (Failure _ _, _) => outcomeOf (rebaseBranch spawn options) w = Exited 1
    | (Output _, _) =>
        outcomeOf (rebaseBranch spawn options) w = Returned tt /\
        exists before,
          commandsOf (traceOf (rebaseBranch spawn options) w) = before ++ [rebaseCommand]
    end end end end end
  end.
Proof.
  unfold outcomeOf, traceOf, rebaseBranch, uncommittedHelp, forcePushHelp, conflictHelp.
  unfold_proc. rewrite isGitRepository_run.
  destruct (spawn (str "git rev-parse --git-dir") w) as [[o0|m0 s0] w0];
    cbv beta iota; cbn [fst snd negb app]; [|reflexivity].
  rewrite (liftIO_eq (Git.getIntegrationBranch (execSyncIO spawn))).
  destruct queries_never_throw as (_ & _ & _ & Hn).
  destruct (Hn (w0, [Ran (str "git rev-parse --git-dir")])) as (detected & [w1 tr] & ->).
  exists detected, w1, tr. split; [reflexivity|].
  cbv zeta. cbv beta iota. cbn [fst snd].
  destruct (interactive options) as [[|]|];
    (destruct (spawn (str "git rev-parse --git-dir") w1) as [[o2|m2 s2] w2];
     cbv beta iota; cbn [fst snd]; [|reflexivity]);
    (destruct (spawn (str "git rev-parse --abbrev-ref HEAD") w2) as [[o3|m3 s3] w3];
     cbv beta iota; cbn [fst snd status message];
     [|destruct s3 as [[|[|?]]|]; reflexivity]);
    rewrite hasUncommittedChanges_run;
    (destruct (spawn (str "git status --porcelain") w3) as [[o4|m4 s4] w4];
     cbv beta iota; cbn [fst snd];
     [destruct (0 <? List.length (trim o4)); cbv beta iota; cbn [fst snd];
      [reflexivity|]|]);
    repeat match goal with
           | |- context [spawn ?c ?x] =>
               is_var x; destruct (spawn c x) as [[?|? [[|[|?]]|]] ?];
               cbv beta iota; cbn [fst snd status message negb]
           end; try reflexivity.
  all: split; [reflexivity|];
    rewrite <- ?app_assoc; cbn [app]; rewrite ?commandsOf_app; cbn [app commandsOf];
    match goal with |- exists b, ?t ++ ?l = _ =>
      exists (t ++ removelast l); rewrite <- app_assoc; reflexivity end.
Qed.

(** X22. When [rebaseBranch] reports uncommitted changes, it ends the
    process with exit code 1 and every command it has run is one of the
    repository queries of git.ts: no rebase was started. *)
Theorem rebaseBranch_stops_on_uncommitted options (w : World) :
  In uncommittedError (traceOf (rebaseBranch spawn options) w) ->
  outcomeOf (rebaseBranch spawn options) w = Exited 1 /\
  Forall (fun c => In c repositoryQueries)
         (commandsOf (traceOf (rebaseBranch spawn options) w)).
Proof. apply rebaseBranch_runs. Qed.

(** *** status.ts under the trace *)

Section StoreEmits.

Variable P : Event -> Prop.

Lemma emitsStore_ret (A : Type) (a : A) :
  emitsOnlyStore P (Git.ret (World:=Status.Store (Machine World)) a).
Proof. intros s. exists []. simpl. rewrite app_nil_r. auto. Qed.

Lemma emitsStore_modify f : emitsOnlyStore P (Status.modify (World:=Machine World) f).
Proof. intros s. exists []. simpl. rewrite app_nil_r. auto. Qed.

Lemma emitsStore_exec cmd :
  P (Ran cmd) -> emitsOnlyStore P (Status.exec (execSyncIO spawn) cmd).
Proof.
  intros H [[w tr] st]. exists [Ran cmd]. unfold Status.exec, execSyncIO. simpl.
  destruct (spawn cmd w) as [[o|msg code] w']; simpl; auto.
Qed.

Lemma emitsStore_bind (A B : Type) (c : Git.IO (Status.Store (Machine World)) A)
    (k : A -> Git.IO (Status.Store (Machine World)) B) :
  emitsOnlyStore P c -> (forall a, emitsOnlyStore P (k a)) ->
  emitsOnlyStore P (Git.bindIO c k).
Proof.
  intros Hc Hk s. unfold Git.bindIO. destruct (Hc s) as (tr1 & E1 & F1).
  destruct (c s) as [[a|e] s']; simpl in *; try (exists tr1; auto; fail).
  destruct (Hk a s') as (tr2 & E2 & F2). exists (tr1 ++ tr2).
  rewrite E2, E1, app_assoc. split; auto. apply Forall_app; auto.
Qed.

Lemma emitsStore_tryCatch (A : Type) (c h : Git.IO (Status.Store (Machine World)) A) :
  emitsOnlyStore P c -> emitsOnlyStore P h -> emitsOnlyStore P (Git.tryCatch c h).
Proof.
  intros Hc Hh s. unfold Git.tryCatch. destruct (Hc s) as (tr1 & E1 & F1).
  destruct (c s) as [[a|e] s']; simpl in *; try (exists tr1; auto; fail).
  destruct (Hh s') as (tr2 & E2 & F2). exists (tr1 ++ tr2).
  rewrite E2, E1, app_assoc. split; auto. apply Forall_app; auto.
Qed.

Lemma emitsStore_tryCatchError (A : Type) (c : Git.IO (Status.Store (Machine World)) A) h :
  emitsOnlyStore P c -> (forall e, emitsOnlyStore P (h e)) ->
  emitsOnlyStore P (Status.tryCatchError c h).
Proof.
  intros Hc Hh s. unfold Status.tryCatchError. destruct (Hc s) as (tr1 & E1 & F1).
  destruct (c s) as [[a|e] s']; simpl in *; try (exists tr1; auto; fail).
  destruct (Hh e s') as (tr2 & E2 & F2). exists (tr1 ++ tr2).
  rewrite E2, E1, app_assoc. split; auto. apply Forall_app; auto.
Qed.

Lemma emitsStore_when b (c : Git.IO (Status.Store (Machine World)) unit) :
  emitsOnlyStore P c -> emitsOnlyStore P (Status.when b c).
Proof. intros H. destruct b; simpl; auto. apply emitsStore_ret. Qed.

Ltac emitsStore :=
  unfold Status.pushIssue, Status.pushWarning, Status.pushInfo, Status.setNotReady;
  repeat first
    [ apply emitsStore_bind | apply emitsStore_tryCatch | apply emitsStore_tryCatchError
    | apply emitsStore_when | apply emitsStore_ret | apply emitsStore_modify
    | apply emitsStore_exec
    | match goal with
      | |- emitsOnlyStore _ (if ?b then _ else _) => destruct b
      | |- forall _, emitsOnlyStore _ _ => intro
      end ].

(** The commands of [checkPRReadiness]. *)
Hypothesis runs_rev_parse : forall s, P (Ran (str "git rev-parse " ++ s)).
Hypothesis runs_fetch : forall s, P (Ran (str "git fetch origin " ++ s)).
Hypothesis runs_log_develop :
  P (Ran (str "git log origin/develop..HEAD --oneline --no-merges")).
Hypothesis runs_log_main :
  P (Ran (str "git log origin/main..HEAD --oneline --no-merges")).
Hypothesis runs_status : P (Ran (str "git status --porcelain")).
Hypothesis runs_merge_base : P (Ran (str "git merge-base HEAD origin/develop")).

Lemma checkPRReadiness_emits :
  emitsOnlyIO P (Status.checkPRReadiness (execSyncIO spawn)).
Proof.
  assert (Hrun : forall A (c : Git.IO (Status.Store (Machine World)) A),
            emitsOnlyStore P c -> forall s, exists tr,
              snd (fst (snd (c s))) = snd (fst s) ++ tr /\ Forall P tr) by auto.
  intros m. unfold Status.checkPRReadiness.
  match goal with |- context [?c (m, Status.initialStatus)] =>
    destruct (Hrun _ c) with (s := (m, Status.initialStatus)) as (tr & E & F)
  end.
  - unfold Status.checkBranch, Status.checkTracking, Status.checkCommits, Status.checkRebase.
    emitsStore.
    all: try (apply (runs_rev_parse (str "--git-dir"))).
    all: try (apply (runs_rev_parse (str "--abbrev-ref HEAD"))).
    all: try (apply (runs_rev_parse (str "--abbrev-ref --symbolic-full-name @{u}"))).
    all: try (apply (runs_rev_parse (str "HEAD"))).
    all: try (apply (runs_rev_parse (str "origin/develop"))).
    all: try apply runs_rev_parse.
    all: try apply runs_fetch.
    all: try (apply (runs_fetch (str "develop"))).
    all: try apply runs_log_develop.
    all: try apply runs_log_main.
    all: try apply runs_merge_base.
    all: try apply runs_status.
    intros s. exists []. unfold Status.when. destruct (0 <? _); simpl; rewrite app_nil_r; auto.
  - exists tr. split; [|exact F].
    match goal with |- context [?c (m, Status.initialStatus)] =>
      destruct (c (m, Status.initialStatus)) as [[[]|e] [m' st]] end; exact E.
Qed.

End StoreEmits.


Lemma pasted_rev_parse text : ofCheck (str "git rev-parse " ++ text).
Proof. right. exists text. auto. Qed.

Lemma pasted_fetch text : ofCheck (str "git fetch origin " ++ text).
Proof. right. exists text. auto. Qed.

Lemma listed_check command : In command checkCommands -> ofCheck command.
Proof. intros H. left. exact H. Qed.

Lemma readiness_checks : emitsOnlyIO runsCheck (Status.checkPRReadiness (execSyncIO spawn)).
Proof.
  apply checkPRReadiness_emits.
  - exact pasted_rev_parse.
  - exact pasted_fetch.
  - apply listed_check. simpl. auto 20.
  - apply listed_check. simpl. auto 20.
  - apply listed_check. simpl. auto 20.
  - apply listed_check. simpl. auto 20.
Qed.

Lemma readiness_runs (m : Machine World) :
  exists report w' tr,
    liftIO (Status.checkPRReadiness (execSyncIO spawn)) m =
      (Returned report, (w', snd m ++ tr)) /\
    Status.readyForPR report = (List.length (Status.issues report) =? 0) /\
    Forall (fun e => exists c, e = Ran c) tr.
Proof.
  destruct (checkPRReadiness_result (execSyncIO spawn) m) as (report & m' & E & R).
  destruct (@checkPRReadiness_emits (fun e => exists c, e = Ran c)) with (m := m)
    as (tr & Etr & Htr); eauto.
  rewrite E in Etr. cbn [snd] in Etr.
  exists report, (fst m'), tr. unfold liftIO. rewrite E. destruct m' as [w' t'].
  cbn [fst snd] in *. subst t'. auto.
Qed.

Lemma commands_of_checks tr : Forall runsCheck tr -> Forall ofCheck (commandsOf tr).
Proof.
  induction 1 as [|e tr He _ IH]; simpl; auto.
  destruct e; auto.
Qed.

(** One block of [displayFindings]: a line for each entry and an empty
    line after them, when there is an entry. *)
Lemma block_run (l : list jsstring) (g : jsstring -> list Segment) (w : World) tr :
  when (0 <? List.length l)
    (bind (forEach l (fun x => consoleLog (g x))) (fun _ => consoleLog [Plain []])) (w, tr) =
  (Returned tt,
   (w, tr ++ map (fun x => Log (g x)) l ++ (if 0 <? List.length l then [Log [Plain []]] else []))).
Proof.
  destruct l as [|x l].
  - unfold when, ret. simpl. now rewrite app_nil_r.
  - change (0 <? List.length (x :: l)) with true. unfold when.
    rewrite bind_eq, forEach_log. cbv beta iota. rewrite log_eq, <- app_assoc. reflexivity.
Qed.

Lemma displayFindings_run report (w : World) tr :
  exists lines,
    displayFindings report (w, tr) = (Returned tt, (w, tr ++ lines)) /\
    (forall issue, In issue (Status.issues report) -> In (issueLine issue) lines) /\
    (forall e, In e lines ->
       (exists issue, In issue (Status.issues report) /\ e = issueLine issue) \/
       e = Log [Plain []] \/
       (exists msg, e = Log [Styled "blue" (informationSign ++ str " "); Plain msg]) \/
       (exists msg, e = Log [Styled "yellow" (warningSign ++ str " "); Plain msg])).
Proof.
  unfold displayFindings.
  rewrite bind_eq, block_run. cbv beta iota.
  rewrite bind_eq, block_run. cbv beta iota.
  rewrite block_run. rewrite <- !app_assoc.
  eexists. split; [reflexivity|]. split.
  - intros issue Hin. rewrite !in_app_iff. right. right. left.
    apply (in_map (fun x => Log [Styled "red" crossMark; Plain x])). exact Hin.
  - intros e. rewrite !in_app_iff, !in_map_iff.
    intros [(x & <- & Hx)|[Hs|[(x & <- & Hx)|[Hs|[(x & <- & Hx)|Hs]]]]]; eauto 6.
    all: match type of Hs with context [if ?b then _ else _] => destruct b end;
      simpl in Hs; [destruct Hs as [<-|[]]; auto | contradiction].
Qed.

(** X23. [showWorkflowStatus] never ends the process, whatever it finds:
    it returns after printing a line for every issue of the readiness
    check and one verdict, the green one exactly when there is no issue
    and the red one exactly when there is one. *)
Theorem showWorkflowStatus_verdict (w : World) :
  exists report m',
    Status.checkPRReadiness (execSyncIO spawn) (w, []) = (Normal report, m') /\
    outcomeOf (showWorkflowStatus spawn) w = Returned tt /\
    (forall issue, In issue (Status.issues report) ->
       In (issueLine issue) (traceOf (showWorkflowStatus spawn) w)) /\
    (In (Log [Styled "green.bold" (checkMark ++ str " Branch is ready for Pull Request!")])
        (traceOf (showWorkflowStatus spawn) w) <-> Status.issues report = []) /\
    (In (Log [Styled "red.bold" (crossMark ++ str " Branch is NOT ready for Pull Request")])
        (traceOf (showWorkflowStatus spawn) w) <-> Status.issues report <> []).
Proof.
  destruct (readiness_runs (w, [])) as (report & w' & tr & E & R & Htr).
  exists report, (w', tr). split.
  { unfold liftIO in E.
    destruct (Status.checkPRReadiness (execSyncIO spawn) (w, [])) as [[a|e] m'];
      [injection E as -> ->; reflexivity|discriminate E]. }
  cbn [snd app] in E.
  unfold outcomeOf, traceOf, showWorkflowStatus.
  rewrite bind_eq, E. cbv beta iota.
  rewrite bind_eq, log_eq. cbv beta iota.
  rewrite bind_eq.
  match goal with |- context [displayFindings report (?w, ?t)] =>
    destruct (displayFindings_run report w t) as (lines & -> & Hissues & Hlines) end.
  cbv beta iota. rewrite R.
  assert (Hcmd : forall args, ~ In (Log args) tr).
  { intros args Hin. rewrite Forall_forall in Htr.
    destruct (Htr _ Hin) as (c & Hc). discriminate Hc. }
  assert (Hline : forall style text, ~ In (Log [Styled style text]) lines).
  { intros style text Hin.
    destruct (Hlines _ Hin) as [(x & _ & H)|[H|[(x & H)|(x & H)]]]; discriminate H. }
  assert (Hnot : forall style text tail,
            (forall e, In e tail -> e <> Log [Styled style text]) ->
            style <> "blue.bold"%string ->
            ~ In (Log [Styled style text])
                 (tr ++ Log [Styled "blue.bold"
                               (LF :: barChart ++ str " Git Workflow Status" ++ [LF])]
                        :: lines ++ tail)).
  { intros style text tail Htail Hstyle H.
    apply in_app_or in H. destruct H as [H|[H|H]].
    - exact (Hcmd _ H).
    - injection H as H _. symmetry in H. exact (Hstyle H).
    - apply in_app_or in H. destruct H as [H|H].
      + exact (Hline _ _ H).
      + exact (Htail _ H eq_refl). }
  destruct (Status.issues report) as [|issue issues] eqn:Hi.
  - change (List.length (@nil jsstring) =? 0) with true. cbv iota.
    unfold_proc. rewrite <- !app_assoc. cbn [app].
    split; [reflexivity|]. split; [intros x []|]. split.
    + split; [intros _; reflexivity|]. intros _.
      apply in_or_app. right. right. apply in_or_app. right. left. reflexivity.
    + split; [|intros H; now contradiction H]. intros H. exfalso. revert H.
      apply Hnot; [|discriminate].
      intros e He. simpl in He.
      repeat (destruct He as [<-|He]; [discriminate|]). contradiction.
  - change (List.length (issue :: issues) =? 0) with false. cbv iota.
    unfold_proc. rewrite <- !app_assoc. cbn [app].
    split; [reflexivity|]. split.
    { intros x Hx. apply in_or_app. right. right. apply in_or_app. left.
      apply Hissues. exact Hx. }
    split.
    + split; [|intros H; discriminate H]. intros H. exfalso. revert H.
      apply Hnot; [|discriminate].
      intros e He. simpl in He.
      repeat (destruct He as [<-|He]; [discriminate|]). contradiction.
    + split; [intros _ H; discriminate H|]. intros _.
      apply in_or_app. right. right. apply in_or_app. right. left. reflexivity.
Qed.

(** *** pr.ts *)

Lemma readiness_never_throws :
  neverThrowsIO (Status.checkPRReadiness (execSyncIO spawn)).
Proof.
  intros m. destruct (checkPRReadiness_result (execSyncIO spawn) m) as (st & m' & E & _).
  eauto.
Qed.

Lemma showWorkflowStatus_settles : settles (showWorkflowStatus spawn).
Proof.
  pose proof readiness_never_throws.
  unfold showWorkflowStatus, displayFindings. settle; auto.
Qed.

Lemma preparePR_settles : settles (preparePR spawn).
Proof.
  pose proof readiness_never_throws.
  destruct queries_never_throw as (H1 & H2 & H3 & H4).
  unfold preparePR, displayFindings. settle; auto.
Qed.

(** X24. The command lines of the two checks: every command that
    [showWorkflowStatus] or [preparePR] hands to [execSync] is one of the
    eleven fixed lines of [checkCommands], or [git fetch origin <text>],
    [git rev-parse <text>], [git rev-list --count <text>..HEAD] or
    [git rev-list --count HEAD..<text>] for some text. *)
Theorem checks_run_listed_commands (w : World) :
  Forall ofCheck (commandsOf (traceOf (showWorkflowStatus spawn) w)) /\
  Forall ofCheck (commandsOf (traceOf (preparePR spawn) w)).
Proof.
  pose proof readiness_checks as Hr.
  assert (Hs : emitsOnly runsCheck (showWorkflowStatus spawn)).
  { unfold showWorkflowStatus, displayFindings. emits; auto; exact I. }
  assert (Hp : emitsOnly runsCheck (preparePR spawn)).
  { unfold preparePR, showBranchStatus, validateLastCommit, displayFindings,
      Repository.isGitRepository, Repository.getCurrentBranch.
    emits; auto; try exact I.
    all: try (emitsIO; apply listed_check; simpl; auto 20; fail).
    all: try (apply listed_check; simpl; auto 20; fail).
    all: right; eexists; eauto 6. }
  unfold traceOf. split.
  - destruct (Hs (w, [])) as (tr & -> & Htr). apply commands_of_checks, Htr.
  - destruct (Hp (w, [])) as (tr & -> & Htr). apply commands_of_checks, Htr.
Qed.

(** A command that never throws returns or exits with code 1, having
    appended its events. *)
Lemma settled_run (P : Event -> Prop) (c : Proc World unit) (m : Machine World) :
  settles c -> emitsOnly P c ->
  exists w' tr,
    Forall P tr /\
    (c m = (Returned tt, (w', snd m ++ tr)) \/ c m = (Exited 1, (w', snd m ++ tr))).
Proof.
  intros Hs He. specialize (Hs m). destruct (He m) as (tr & E & F).
  destruct (c m) as [[[]|e|code] [w' t']]; cbn [fst snd] in *; subst.
  - exists w', tr. auto.
  - contradiction.
  - exists w', tr. auto.
Qed.

Ltac event_differs :=
  cbv beta;
  repeat match goal with
         | |- _ /\ _ => split
         | |- forall _, _ => intro
         | |- _ <> _ => let H := fresh in intros H; cbv in H; discriminate H
         | |- notVerdict _ => unfold notVerdict
         end.

Lemma showBranchStatus_step (m : Machine World) :
  exists w' tr,
    Forall (fun e => notVerdict e /\ e <> commitFailed) tr /\
    (showBranchStatus spawn m = (Returned tt, (w', snd m ++ tr)) \/
     showBranchStatus spawn m = (Exited 1, (w', snd m ++ tr))).
Proof.
  apply settled_run; [apply showBranchStatus_settles|].
  unfold showBranchStatus. emits; event_differs.
Qed.

(** The heading of a failed validation is followed by the exit. *)
Lemma validateLastCommit_step (m : Machine World) :
  exists w' tr,
    Forall notVerdict tr /\
    ((validateLastCommit spawn m = (Returned tt, (w', snd m ++ tr)) /\
      ~ In commitFailed tr) \/
     validateLastCommit spawn m = (Exited 1, (w', snd m ++ tr))).
Proof.
  assert (He : emitsOnly notVerdict (validateLastCommit spawn)).
  { unfold validateLastCommit. emits; event_differs. }
  destruct (@settled_run notVerdict _ m validateLastCommit_settles He)
    as (w' & tr & F & [E|E]); exists w', tr; (split; [exact F|]); [left|right; exact E].
  split; [exact E|]. intros Hin.
  destruct m as [w0 tr0]. cbn [snd] in E.
  unfold validateLastCommit in E.
  rewrite bind_eq in E. unfold tryCatch at 1 in E. rewrite bind_eq, exec_eq in E.
  destruct (spawn (str "git rev-parse --git-dir") w0) as [[o|msg st] w1];
    cbv beta iota in E; [|unfold_proc_in E; discriminate E].
  unfold ret at 1 in E. cbv beta iota in E.
  unfold tryCatch in E. rewrite bind_eq, exec_eq in E.
  destruct (spawn (str "git log -1 --pretty=%B") w1) as [[message|msg st] w2];
    cbv beta iota in E; [|unfold_proc_in E; discriminate E].
  destruct (validate_total message) as (r & Hr).
  rewrite bind_eq in E. unfold liftCompletion in E. rewrite Hr in E. cbv beta iota in E.
  rewrite bind_eq, log_eq in E. cbv beta iota in E.
  rewrite bind_eq, log_eq in E. cbv beta iota in E.
  rewrite bind_eq, log_eq in E. cbv beta iota in E.
  destruct (Commit.valid r) eqn:Hvalid.
  - rewrite bind_eq, log_eq in E. cbv beta iota in E. rewrite log_block in E.
    injection E as _ E. rewrite <- !app_assoc in E. apply app_inv_head in E. subst tr.
    revert Hin. cbn [app]. rewrite ?in_app_iff, ?in_map_iff. cbn [In].
    intros H.
    repeat match goal with
           | H : _ \/ _ |- _ => destruct H as [H|H]
           | H : exists _, _ |- _ => destruct H as (? & H & _)
           | H : False |- _ => contradiction
           | H : In _ (if ?b then _ else _) |- _ => destruct b; cbn [In] in H
           | H : In _ (_ ++ _) |- _ => apply in_app_or in H
           | H : In _ (map _ _) |- _ => apply in_map_iff in H
           | H : _ = commitFailed |- _ => cbv in H; discriminate H
           end.
  - rewrite bind_eq, log_eq in E. cbv beta iota in E.
    rewrite bind_eq, forEach_log in E. cbv beta iota in E.
    rewrite bind_eq, log_block in E. cbv beta iota in E.
    discriminate E.
Qed.

Ltac find_event :=
  repeat first [ left; reflexivity | assumption | right | apply in_or_app; right ].

Ltac all_events :=
  rewrite <- ?app_assoc; cbn [app];
  repeat first
    [ assumption
    | apply Forall_app; split
    | apply Forall_cons; [event_differs|]
    | apply Forall_nil ].

Lemma not_in_trace (P : Event -> Prop) e tr : Forall P tr -> ~ P e -> ~ In e tr.
Proof.
  intros F Hn Hin. rewrite Forall_forall in F. exact (Hn (F _ Hin)).
Qed.

(** A run of [preparePR] that ends before the readiness check. *)
Lemma early_exit (r : Outcome unit * Machine World) :
  fst r = Exited 1 ->
  Forall notVerdict (snd (snd r)) ->
  (fst r = Returned tt <->
   In summaryHeader (snd (snd r)) /\ forall issue, ~ In (issueLine issue) (snd (snd r))) /\
  (In commitFailed (snd (snd r)) ->
   fst r = Exited 1 /\ ~ In summaryHeader (snd (snd r))).
Proof.
  intros Ho F.
  assert (Hs : ~ In summaryHeader (snd (snd r))).
  { apply (@not_in_trace _ _ _ F). intros [H _]. exact (H eq_refl). }
  rewrite Ho. split; [split|].
  - intros H0; discriminate H0.
  - intros [H0 _]. contradiction.
  - intros _. split; [reflexivity|exact Hs].
Qed.

Lemma preparePR_runs (w : World) :
  (outcomeOf (preparePR spawn) w = Returned tt <->
   In summaryHeader (traceOf (preparePR spawn) w) /\
   forall issue, ~ In (issueLine issue) (traceOf (preparePR spawn) w)) /\
  (In commitFailed (traceOf (preparePR spawn) w) ->
   outcomeOf (preparePR spawn) w = Exited 1 /\
   ~ In summaryHeader (traceOf (preparePR spawn) w)).
Proof.
  unfold outcomeOf, traceOf.
  remember (preparePR spawn (w, [])) as run eqn:E.
  unfold preparePR in E.
  rewrite bind_eq, isGitRepository_run in E.
  destruct (spawn (str "git rev-parse --git-dir") w) as [[o0|m0 s0] w0];
    cbv beta iota in E; cbn [negb app] in E.
  2:{ unfold_proc_in E. subst run. apply early_exit; [reflexivity|]. cbn [snd]. all_events. }
  rewrite bind_eq in E. unfold when at 1, ret at 1 in E. cbv beta iota in E.
  rewrite bind_eq, getCurrentBranch_run in E.
  destruct (spawn (str "git rev-parse --abbrev-ref HEAD") w0) as [[out|m1 s1] w1];
    cbv beta iota in E; cbn [app] in E.
  2:{ unfold_proc_in E. subst run. apply early_exit; [reflexivity|]. cbn [snd]. all_events. }
  destruct (trim out) as [|c current].
  { unfold_proc_in E. subst run. apply early_exit; [reflexivity|]. cbn [snd]. all_events. }
  cbv zeta in E.
  rewrite bind_eq, log_eq in E. cbv beta iota in E.
  rewrite bind_eq, log_eq in E. cbv beta iota in E.
  rewrite bind_eq, log_eq in E. cbv beta iota in E.
  rewrite bind_eq in E. unfold tryCatch at 1 in E. rewrite bind_eq in E.
  match type of E with context [showBranchStatus spawn ?m] =>
    destruct (showBranchStatus_step m) as (w2 & tr1 & F1 & [E1|E1]) end;
    rewrite E1 in E; cbv beta iota in E; cbn [snd] in E.
  2:{ subst run. apply early_exit; [reflexivity|]. cbn [snd].
      apply Forall_and_inv in F1 as [F1 _]. all_events. }
  rewrite bind_eq, log_eq in E. cbv beta iota in E. unfold ret at 1 in E. cbv beta iota in E.
  rewrite bind_eq, log_eq in E. cbv beta iota in E.
  rewrite bind_eq in E. unfold tryCatch at 1 in E. rewrite bind_eq in E.
  match type of E with context [validateLastCommit spawn ?m] =>
    destruct (validateLastCommit_step m) as (w3 & tr2 & F2 & [[E2 N2]|E2]) end;
    rewrite E2 in E; cbv beta iota in E; cbn [snd] in E.
  2:{ subst run. apply early_exit; [reflexivity|]. cbn [snd].
      apply Forall_and_inv in F1 as [F1 _]. all_events. }
  rewrite bind_eq, log_eq in E. cbv beta iota in E. unfold ret at 1 in E. cbv beta iota in E.
  rewrite bind_eq, log_eq in E. cbv beta iota in E.
  rewrite bind_eq in E.
  match type of E with context [liftIO _ ?m] =>
    destruct (readiness_runs m) as (report & w4 & tr3 & E3 & R & F3) end.
  rewrite E3 in E. cbv beta iota in E. cbn [snd] in E.
  rewrite bind_eq in E.
  match type of E with context [displayFindings report (?w, ?t)] =>
    destruct (displayFindings_run report w t) as (lines & Ed & Hissues & Hlines) end.
  rewrite Ed in E. cbv beta iota in E.
  rewrite bind_eq, log_eq in E. cbv beta iota in E.
  assert (G1 : Forall (fun e => e <> commitFailed /\ forall issue, e <> issueLine issue) tr1).
  { eapply Forall_impl; [|exact F1]. intros e [[_ Hn] Hc]. auto. }
  assert (G2 : Forall (fun e => e <> commitFailed /\ forall issue, e <> issueLine issue) tr2).
  { rewrite Forall_forall in *. intros e He. split.
    - intros ->. exact (N2 He).
    - apply (F2 _ He). }
  assert (G3 : Forall (fun e => e <> commitFailed /\ forall issue, e <> issueLine issue) tr3).
  { eapply Forall_impl; [|exact F3]. intros e (cmd & ->). event_differs. }
  assert (L1 : Forall (fun e => e <> commitFailed) lines).
  { rewrite Forall_forall. intros e He.
    destruct (Hlines _ He) as [(x & _ & ->)|[->|[(x & ->)|(x & ->)]]]; event_differs. }
  assert (L2 : Status.issues report = [] ->
               Forall (fun e => e <> commitFailed /\ forall issue, e <> issueLine issue) lines).
  { intros Hnone. rewrite Forall_forall. intros e He.
    destruct (Hlines _ He) as [(x & Hx & _)|[->|[(x & ->)|(x & ->)]]]; [|event_differs..].
    rewrite Hnone in Hx. contradiction. }
  assert (C1 : Forall (fun e => e <> commitFailed) tr1)
    by (eapply Forall_impl; [|exact G1]; intros e [Hc _]; exact Hc).
  assert (C2 : Forall (fun e => e <> commitFailed) tr2)
    by (eapply Forall_impl; [|exact G2]; intros e [Hc _]; exact Hc).
  assert (C3 : Forall (fun e => e <> commitFailed) tr3)
    by (eapply Forall_impl; [|exact G3]; intros e [Hc _]; exact Hc).
  destruct (Status.issues report) as [|issue issues] eqn:Hi.
  - specialize (L2 eq_refl).
    change (0 <? List.length (@nil jsstring)) with false in E. cbv iota in E.
    assert (Hall : Forall (fun e => e <> commitFailed /\ forall issue, e <> issueLine issue)
                          (snd (snd run)) /\
                   fst run = Returned tt /\ In summaryHeader (snd (snd run))).
    { destruct (0 <? List.length (Status.warnings report)); cbv iota in E;
        unfold_proc_in E; subst run; cbn [fst snd];
        (split; [all_events|split; [reflexivity|]]);
        rewrite <- ?app_assoc; cbn [app]; find_event. }
    destruct Hall as (Hall & Ho & Hs). rewrite Ho. split; [split|].
    + intros _. split; [exact Hs|]. intros x Hx.
      rewrite Forall_forall in Hall. exact (proj2 (Hall _ Hx) x eq_refl).
    + reflexivity.
    + intros Hc. exfalso. rewrite Forall_forall in Hall. exact (proj1 (Hall _ Hc) eq_refl).
  - change (0 <? List.length (issue :: issues)) with true in E. cbv iota in E.
    pose proof (Hissues issue (or_introl eq_refl)) as Hin.
    assert (Hall : Forall (fun e => e <> commitFailed) (snd (snd run)) /\
                   fst run = Exited 1 /\ In (issueLine issue) (snd (snd run))).
    { unfold_proc_in E; subst run; cbn [fst snd];
        (split; [all_events|split; [reflexivity|]]);
        rewrite <- ?app_assoc; cbn [app].
      repeat first [ apply in_or_app; left; exact Hin | right | apply in_or_app; right ]. }
    destruct Hall as (Hall & Ho & Hs). rewrite Ho. split; [split|].
    + intros H; discriminate H.
    + intros [_ Hn]. exfalso. exact (Hn _ Hs).
    + intros Hc. exfalso. rewrite Forall_forall in Hall. exact (Hall _ Hc eq_refl).
Qed.

(** X25. [preparePR] returns exactly when it has printed the heading of
    its summary and no issue line.  So a finding of [showBranchStatus] or
    of [validateLastCommit] never comes to the summary as an error: after
    the summary, nothing but the issues of the readiness check decides. *)
Theorem preparePR_verdict (w : World) :
  outcomeOf (preparePR spawn) w = Returned tt <->
  In summaryHeader (traceOf (preparePR spawn) w) /\
  forall issue, ~ In (issueLine issue) (traceOf (preparePR spawn) w).
Proof. apply preparePR_runs. Qed.

(** X26. When [preparePR] prints the heading of a failed commit
    validation, it ends the process with exit code 1 and prints no
    summary. *)
Theorem preparePR_stops_at_invalid_commit (w : World) :
  In commitFailed (traceOf (preparePR spawn) w) ->
  outcomeOf (preparePR spawn) w = Exited 1 /\
  ~ In summaryHeader (traceOf (preparePR spawn) w).
Proof. apply preparePR_runs. Qed.

(** *** All commands *)

(** X27. No command lets an exception escape, and none ends the process
    with another exit code than 1: whatever [git] does, each of the eight
    command functions returns or exits with code 1. *)
Theorem commands_settle :
  (forall message, settles (validateStagedCommit (World:=World) message)) /\
  settles (validateLastCommit spawn) /\
  (forall options, settles (createBranch spawn options)) /\
  settles (showBranchStatus spawn) /\
  (forall options, settles (syncBranch spawn options)) /\
  (forall options, settles (rebaseBranch spawn options)) /\
  settles (showWorkflowStatus spawn) /\
  settles (preparePR spawn).
Proof.
  split; [exact validateStagedCommit_settles|].
  split; [exact validateLastCommit_settles|].
  split; [exact createBranch_settles|].
  split; [exact showBranchStatus_settles|].
  split; [exact syncBranch_settles|].
  split; [exact rebaseBranch_settles|].
  split; [exact showWorkflowStatus_settles|exact preparePR_settles].
Qed.

End CommandFacts.

(** *** Runs in small worlds

    A repository that answers every command with the same output. *)

Section CommandRuns.

Import Cli.

Lemma createBranch_rejects_invalid_name_witness :
  outcomeOf (createBranch (fun _ (_ : unit) => (Output [], tt))
                          (mkBranchOptions (str "Add Login") None)) tt = Exited 1 /\
  traceOf (createBranch (fun _ (_ : unit) => (Output [], tt))
                        (mkBranchOptions (str "Add Login") None)) tt =
    [Error [Styled "red" (crossMark ++ str " Error:");
            Plain (toString (Branch.error (Branch.validateBranchName
                     (name (mkBranchOptions (str "Add Login") None)))))]].
Proof.
  apply (@createBranch_rejects_invalid_name unit (fun _ _ => (Output [], tt))
           (mkBranchOptions (str "Add Login") None) tt).
  reflexivity.
Defined.

Lemma syncBranch_keeps_mainline_witness :
  outcomeOf (syncBranch masterClone (mkSyncOptions None None)) tt = Returned tt /\
  commandsOf (traceOf (syncBranch masterClone (mkSyncOptions None None)) tt) =
    [ str "git rev-parse --git-dir"; str "git rev-parse --abbrev-ref HEAD";
      Git.fetchCommand; Git.branchCommand; Git.symbolicRefCommand;
      str "git status --porcelain"; str "git fetch origin";
      str "git rev-parse --abbrev-ref --symbolic-full-name @{u}";
      str "git pull --rebase origin master" ] /\
  Forall (fun c => isRebaseCommand c = false)
         (commandsOf (traceOf (syncBranch masterClone (mkSyncOptions None None)) tt)).
Proof.
  split; [vm_compute; reflexivity|]. split; [vm_compute; reflexivity|].
  apply (@syncBranch_keeps_mainline unit masterClone (mkSyncOptions None None)
           tt tt tt [] (str "master" ++ [LF]));
    [reflexivity | reflexivity | left; right; left; reflexivity].
Defined.

Lemma syncBranch_stops_on_uncommitted_witness :
  outcomeOf (syncBranch (fun _ (_ : unit) => (Output (str " M src/a.ts"), tt))
                        (mkSyncOptions None None)) tt = Exited 1 /\
  Forall (fun c => In c repositoryQueries)
         (commandsOf (traceOf (syncBranch (fun _ (_ : unit) => (Output (str " M src/a.ts"), tt))
                                          (mkSyncOptions None None)) tt)).
Proof.
  apply (@syncBranch_stops_on_uncommitted unit (fun _ _ => (Output (str " M src/a.ts"), tt))
           (mkSyncOptions None None) tt).
  vm_compute. repeat (first [left; reflexivity | right]).
Defined.

Lemma rebaseBranch_stops_on_uncommitted_witness :
  outcomeOf (rebaseBranch (fun _ (_ : unit) => (Output (str " M src/a.ts"), tt))
                          (mkRebaseOptions Absent None)) tt = Exited 1 /\
  Forall (fun c => In c repositoryQueries)
         (commandsOf (traceOf (rebaseBranch (fun _ (_ : unit) => (Output (str " M src/a.ts"), tt))
                                            (mkRebaseOptions Absent None)) tt)).
Proof.
  apply (@rebaseBranch_stops_on_uncommitted unit (fun _ _ => (Output (str " M src/a.ts"), tt))
           (mkRebaseOptions Absent None) tt).
  vm_compute. repeat (first [left; reflexivity | right]).
Defined.

Lemma preparePR_stops_at_invalid_commit_witness :
  outcomeOf (preparePR (fun _ (_ : unit) => (Output (str "wip"), tt))) tt = Exited 1 /\
  ~ In summaryHeader (traceOf (preparePR (fun _ (_ : unit) => (Output (str "wip"), tt))) tt).
Proof.
  apply (@preparePR_stops_at_invalid_commit unit (fun _ _ => (Output (str "wip"), tt)) tt).
  vm_compute. repeat (first [left; reflexivity | right]).
Defined.

(** On the clean clone the branch is created from [develop], and a
    feature branch would be rebased onto [main], the target of
    [origin/HEAD]. *)
Example createBranch_on_clean_clone :
  outcomeOf (createBranch masterClone (mkBranchOptions (str "feature/add-login") None)) tt =
    Returned tt /\
  commandsOf (traceOf (createBranch masterClone
                         (mkBranchOptions (str "feature/add-login") None)) tt) =
    [ str "git rev-parse --git-dir"; str "git branch --list"; str "git branch -r --list";
      str "git fetch origin"; str "git checkout develop"; str "git pull origin develop";
      str "git switch -c feature/add-login" ].
Proof. vm_compute. auto. Qed.

Example rebaseBranch_on_clean_clone :
  outcomeOf (rebaseBranch masterClone (mkRebaseOptions Absent None)) tt = Returned tt /\
  commandsOf (traceOf (rebaseBranch masterClone (mkRebaseOptions Absent None)) tt) =
    [ str "git rev-parse --git-dir";
      Git.fetchCommand; Git.branchCommand; Git.symbolicRefCommand;
      str "git rev-parse --git-dir"; str "git rev-parse --abbrev-ref HEAD";
      str "git status --porcelain"; str "git fetch origin main";
      str "git rev-parse origin/main"; str "git rebase origin/main" ].
Proof. vm_compute. auto. Qed.

End CommandRuns.
